(** * ClawDBot: the provider-failover manager

    A shallow embedding of [LLMProvider] and [LLMManager] as they are written
    in [src/bot.py] (module [Bot]) and in the older copy
    [src/clawdbot/bot.py] (module [Legacy]), and the properties of
    construction, rotation, health checking and generation with fallback.

    Python objects are shared by reference: a provider lives in an object
    store and the manager's registry is a list of references into it.  The
    HTTP backend is an oracle; every request sent is appended to a log kept
    next to the store, so that "which provider was contacted, and how often"
    is a statement about that log.

    Around the manager, the same two files are followed further: how
    [Config()] reads the allowed user ids and what [is_authorized] makes
    of them, [BotState.uptime], start-up ([run] and [post_init]), and the
    handlers [message_handler] and [health_command], which run on the
    global [bot_state] and talk to Telegram, a second oracle with a log of
    its own. *)

From stdpp Require Import base option list strings pretty.
From Stdlib Require Import ZArith Floats Lia Ascii.
From Equations Require Import Equations.

Open Scope Z_scope.

(** ** Python values *)

(** An exception object: its class name and the text [str(e)].  All but
    one are instances of [Exception]; the one that is not is the
    [SystemExit] of [run], below.  Cancellation, which derives from
    [BaseException] only, is outside this model. *)
Record exn := PyExc { exc_class : string; exc_str : string }.

Definition Exception (msg : string) : exn := PyExc "Exception" msg.
Definition IndexError (msg : string) : exn := PyExc "IndexError" msg.
Definition TypeError (msg : string) : exn := PyExc "TypeError" msg.
Definition AttributeError (msg : string) : exn := PyExc "AttributeError" msg.

(** [sys.exit(code)] raises [SystemExit], which is not an [Exception]: no
    [except Exception] clause catches it, and this model puts none around
    it. *)
Definition SystemExit (code : Z) : exn := PyExc "SystemExit" (pretty code).

(** [str(KeyError(k))] is [repr(k)]; the keys looked up by the program are
    plain words, whose [repr] is the word between single quotes. *)
Definition KeyError (k : string) : exn := PyExc "KeyError" ("'" +:+ k +:+ "'").
Definition KeyError_int (i : Z) : exn := PyExc "KeyError" (pretty i).

(** The outcome of evaluating Python code: a value or a raised exception. *)
Inductive res (A : Type) : Type :=
| Ok (a : A)
| Raise (e : exn).
Arguments Ok {A} a.
Arguments Raise {A} e.

(** The value [await resp.json()] evaluates to: [None], a bool, a number, a
    [str], a [list] or a [dict] with string keys (in insertion order). *)
#[local] Unset Elimination Schemes.
Inductive json : Type :=
| JNull
| JBool (b : bool)
| JInt (n : Z)
| JFloat (f : float)
| JStr (s : string)
| JList (items : list json)
| JDict (fields : list (string * json)).
#[local] Set Elimination Schemes.

(** [l[i]] on a Python sequence: negative indices count from the end, and an
    index outside [-len(l) <= i < len(l)] has no element. *)
Definition py_index {A : Type} (l : list A) (i : Z) : option A :=
  let n := Z.of_nat (length l) in
  if 0 <=? i then l !! Z.to_nat i
  else if - n <=? i then l !! Z.to_nat (n + i)
  else None.

Fixpoint dict_get (fields : list (string * json)) (k : string) : option json :=
  match fields with
  | [] => None
  | (k', v) :: rest => if String.eqb k' k then Some v else dict_get rest k
  end.

(** A [str] is modelled by its UTF-8 encoding (a lone surrogate, which a
    [str] may hold, by the three bytes its code point takes).  A character
    is then a byte that is no continuation byte, together with the
    continuation bytes that follow it.  A sequence of bytes that encodes
    no text stands for no [str]; what is proved of every sequence holds of
    those that do. *)
Definition byte (c : ascii) : Z := Z.of_nat (nat_of_ascii c).

Definition is_continuation (c : ascii) : bool :=
  (128 <=? byte c) && (byte c <? 192).

(** The text begins in the middle of a character. *)
Definition starts_continuation (s : string) : bool :=
  match s with
  | EmptyString => false
  | String d _ => is_continuation d
  end.

(** [list(s)]: the characters of a [str], each a [str] of length 1. *)
Fixpoint str_chars (s : string) : list string :=
  match s with
  | EmptyString => []
  | String c s' =>
      match str_chars s' with
      | [] => [String c EmptyString]
      | ch :: rest =>
          if starts_continuation s' then String c ch :: rest
          else String c EmptyString :: ch :: rest
      end
  end.

(** ["".join(l)]. *)
Definition str_of_chars (l : list string) : string :=
  foldr String.append EmptyString l.

(** [len(s)]. *)
Definition str_len (s : string) : nat := length (str_chars s).

(** [s[:n]]. *)
Definition str_slice_to (n : nat) (s : string) : string :=
  str_of_chars (take n (str_chars s)).

(** [s[i]]. *)
Definition str_index (s : string) (i : Z) : option string :=
  py_index (str_chars s) i.

Definition not_subscriptable (ty : string) : exn :=
  TypeError ("'" +:+ ty +:+ "' object is not subscriptable").

(** [v[k]] with a string key. *)
Definition getitem_str (v : json) (k : string) : res json :=
  match v with
  | JDict fields =>
      match dict_get fields k with
      | Some x => Ok x
      | None => Raise (KeyError k)
      end
  | JList _ => Raise (TypeError "list indices must be integers or slices, not str")
  | JStr _ => Raise (TypeError "string indices must be integers, not 'str'")
  | JNull => Raise (not_subscriptable "NoneType")
  | JBool _ => Raise (not_subscriptable "bool")
  | JInt _ => Raise (not_subscriptable "int")
  | JFloat _ => Raise (not_subscriptable "float")
  end.

(** [v[i]] with an integer key.  The keys of a parsed JSON object are
    strings, so an integer is never among them. *)
Definition getitem_int (v : json) (i : Z) : res json :=
  match v with
  | JList items =>
      match py_index items i with
      | Some x => Ok x
      | None => Raise (IndexError "list index out of range")
      end
  | JStr s =>
      match str_index s i with
      | Some c => Ok (JStr c)
      | None => Raise (IndexError "string index out of range")
      end
  | JDict _ => Raise (KeyError_int i)
  | JNull => Raise (not_subscriptable "NoneType")
  | JBool _ => Raise (not_subscriptable "bool")
  | JInt _ => Raise (not_subscriptable "int")
  | JFloat _ => Raise (not_subscriptable "float")
  end.

(** Truth value of a [str] and of an [Optional[str]]. *)
Definition truthy (s : string) : bool := negb (String.eqb s "").

Definition truthy_opt (o : option string) : bool :=
  match o with
  | Some s => truthy s
  | None => false
  end.

(** [a or b] on strings. *)
Definition str_or (a b : string) : string := if truthy a then a else b.

(** ** Providers, requests and the backend *)

(** [@dataclass class LLMProvider], the same in both source files.  The
    first five fields identify the backend; [healthy], [last_error] and
    [latency_ms] are the status fields, with defaults [True], [None] and
    [0.0]. *)
Record LLMProvider := mkLLMProvider {
  name : string;
  api_base : string;
  model : string;
  api_key : option string;
  timeout : Z;
  healthy : bool;
  last_error : option string;
  latency_ms : float
}.

Definition new_LLMProvider (name api_base model : string)
    (api_key : option string) (timeout : Z) : LLMProvider :=
  mkLLMProvider name api_base model api_key timeout true None 0%float.

Definition set_healthy (b : bool) (p : LLMProvider) : LLMProvider :=
  mkLLMProvider (name p) (api_base p) (model p) (api_key p) (timeout p)
    b (last_error p) (latency_ms p).

Definition set_last_error (e : option string) (p : LLMProvider) : LLMProvider :=
  mkLLMProvider (name p) (api_base p) (model p) (api_key p) (timeout p)
    (healthy p) e (latency_ms p).

Definition set_latency_ms (t : float) (p : LLMProvider) : LLMProvider :=
  mkLLMProvider (name p) (api_base p) (model p) (api_key p) (timeout p)
    (healthy p) (last_error p) t.

(** A reference to a provider object. *)
Definition loc := nat.

(** One chat message, a [Dict[str, str]]. *)
Definition Message := list (string * string).

(** What [session.post] is called with. *)
Record Request := mkRequest {
  url : string;
  payload_model : string;
  payload_messages : list Message;
  payload_max_tokens : Z;
  payload_temperature : float;
  headers : list (string * string);
  timeout_total : Z
}.

(** The response object: its [status], and what [await resp.json()] and
    [await resp.text()] evaluate to. *)
Record Response := mkResponse {
  status : Z;
  resp_json : res json;
  resp_text : res string
}.

(** What becomes of a request: [session.post] raises (time-out, refused
    connection, malformed URL, ...), or a response arrives, [elapsed_ms]
    being the value of [(time.time() - start) * 1000] read on arrival. *)
Inductive Reply :=
| Refused (e : exn)
| Answered (r : Response) (elapsed_ms : float).

(** The backend: the reply to a request, given how many requests went out
    before it. *)
Definition Network := nat -> Request -> Reply.

(** Headers of both kinds of request. *)
Definition build_headers (key : option string) : list (string * string) :=
  let headers := [("Content-Type", "application/json")] in
  if truthy_opt key
  then headers ++ [("Authorization", "Bearer " +:+ default "" key)]
  else headers.

(** ** The manager's state and the evaluation monad *)

(** [class LLMManager]: the attributes assigned by [__init__], which both
    source files declare alike; they differ in [Config] only. *)
Record LLMManager (Config : Type) := mkLLMManager {
  config : Config;
  providers : list loc;
  current_provider_index : Z
}.
Arguments mkLLMManager {Config} _ _ _.
Arguments config {Config} _.
Arguments providers {Config} _.
Arguments current_provider_index {Config} _.

(** The manager, the object store holding the providers, and the log of the
    requests sent so far, each with the provider it was built from. *)
Record State (Config : Type) := mkState {
  self : LLMManager Config;
  heap : list LLMProvider;
  sent : list (loc * Request)
}.
Arguments mkState {Config} _ _ _.
Arguments self {Config} _.
Arguments heap {Config} _.
Arguments sent {Config} _.

(** Code that runs on a state and leaves a state, whatever its outcome: an
    exception does not undo the writes made before it.  [None] is not a
    Python outcome: the model gives it when it is asked to follow a
    reference that designates no object of the store, which no reference
    held by a Python program does. *)
Definition M (Config A : Type) : Type :=
  State Config -> option (res A * State Config).

Section Monad.
Context {Config : Type}.

#[export] Instance M_ret : MRet (M Config) := λ A a st, Some (Ok a, st).

#[export] Instance M_bind : MBind (M Config) := λ A B k m st,
  match m st with
  | Some (Ok a, st') => k a st'
  | Some (Raise e, st') => Some (Raise e, st')
  | None => None
  end.

Definition raise {A : Type} (e : exn) : M Config A := λ st, Some (Raise e, st).

Definition lift {A : Type} (r : res A) : M Config A := λ st, Some (r, st).

(** [try: body except Exception as e: handler]. *)
Definition try_except {A : Type} (body : M Config A)
    (handler : exn -> M Config A) : M Config A :=
  λ st,
    match body st with
    | Some (Raise e, st') => handler e st'
    | other => other
    end.

(** Attribute read [o.f] on the object at [l]. *)
Definition getattr {A : Type} (l : loc) (f : LLMProvider -> A) : M Config A :=
  λ st,
    match heap st !! l with
    | Some p => Some (Ok (f p), st)
    | None => None
    end.

(** Attribute write [o.f = v]: [upd] replaces the field. *)
Definition setattr (l : loc) (upd : LLMProvider -> LLMProvider) : M Config unit :=
  λ st,
    match heap st !! l with
    | Some p => Some (Ok tt, mkState (self st) (<[l := upd p]> (heap st)) (sent st))
    | None => None
    end.

(** Attribute access on a variable that may hold [None]. *)
Definition object_of (what : string) (o : option loc) : M Config loc :=
  match o with
  | Some l => mret l
  | None => raise (AttributeError
                     ("'NoneType' object has no attribute '" +:+ what +:+ "'"))
  end.

Definition get_self : M Config (LLMManager Config) :=
  λ st, Some (Ok (self st), st).

(** [LLMProvider(...)]: a new object, at a reference not used before. *)
Definition new_object (p : LLMProvider) : M Config loc :=
  λ st,
    Some (Ok (length (heap st)), mkState (self st) (heap st ++ [p]) (sent st)).

(** [self.providers.append(o)]. *)
Definition providers_append (l : loc) : M Config unit :=
  λ st,
    Some (Ok tt,
          mkState (mkLLMManager (config (self st)) (providers (self st) ++ [l])
                     (current_provider_index (self st)))
            (heap st) (sent st)).

Definition set_current_provider_index (i : Z) : M Config unit :=
  λ st,
    Some (Ok tt,
          mkState (mkLLMManager (config (self st)) (providers (self st)) i)
            (heap st) (sent st)).

(** [async with aiohttp.ClientSession() as session] and
    [async with session.post(...) as resp], for the provider at [l]: the
    request is logged, and the backend either makes the call raise or
    hands back the response with the time it took.  Opening the session
    before the request counts as part of the request, and leaving the two
    [async with] blocks is taken not to raise. *)
Definition session_post (net : Network) (l : loc) (req : Request)
    : M Config (Response * float) :=
  λ st,
    let st' := mkState (self st) (heap st) (sent st ++ [(l, req)]) in
    match net (length (sent st)) req with
    | Refused e => Some (Raise e, st')
    | Answered r t => Some (Ok (r, t), st')
    end.
End Monad.

(** The result of [generate], a dict with one of two key sets:
    [{"success": True, "provider", "model", "content", "latency_ms"}] or
    [{"success": False, "error", "provider"}]. *)
Inductive Result :=
| Success (provider model : string) (content : json) (latency_ms : float)
| Failure (error provider : string).

Definition success (r : Result) : bool :=
  match r with
  | Success _ _ _ _ => true
  | Failure _ _ => false
  end.

Definition result_provider (r : Result) : string :=
  match r with
  | Success p _ _ _ => p
  | Failure _ p => p
  end.

(** The payload and headers [generate] posts for the provider [p]. *)
Definition generate_request (messages : list Message) (max_tokens : Z)
    (p : LLMProvider) : Request :=
  mkRequest (api_base p +:+ "/chat/completions")
    (model p) messages max_tokens 0x1.6666666666666p-1%float
    (build_headers (api_key p)) (timeout p).

(** The payload and headers [health_check] posts for the provider [p]. *)
Definition health_request (p : LLMProvider) : Request :=
  mkRequest (api_base p +:+ "/chat/completions")
    (model p) [[("role", "user"); ("content", "Reply with OK.")]] 10
    0x1.999999999999ap-4%float
    (build_headers (api_key p)) (timeout p).

(** [result["choices"][0]["message"]["content"]]. *)
Definition completion_content (result : json) : res json :=
  match getitem_str result "choices" with
  | Ok choices =>
      match getitem_int choices 0 with
      | Ok choice =>
          match getitem_str choice "message" with
          | Ok message => getitem_str message "content"
          | other => other
          end
      | other => other
      end
  | other => other
  end.

(** ** What a call does, attempt by attempt

    The vocabulary in which the properties of [generate] and [health_check]
    are stated; the two source files share it. *)

(** What the [try] block of [generate] makes of a reply: it returns the
    completion, or an exception reaches the [except] clause.  [measured]
    tells whether [latency_ms] was written before the exception. *)
Inductive Outcome :=
| Served (content : json) (elapsed_ms : float)
| Failed (e : exn) (measured : option float).

Definition is_served (o : Outcome) : bool :=
  match o with
  | Served _ _ => true
  | Failed _ _ => false
  end.

(** The fields that identify a backend, which no method assigns. *)
Definition backend (p : LLMProvider)
    : string * string * string * option string * Z :=
  (name p, api_base p, model p, api_key p, timeout p).

Section Failover.
Context {Config : Type}.
Implicit Types st : State Config.

Definition registry_size st : Z := Z.of_nat (length (providers (self st))).

(** [0 <= current_provider_index < len(providers)]. *)
Definition index_valid st : Prop :=
  0 ≤ current_provider_index (self st) < registry_size st.

(** Every reference of the registry designates an object. *)
Definition refs_live st : Prop :=
  Forall (λ l, l < length (heap st))%nat (providers (self st)).

Definition well_formed st : Prop := index_valid st ∧ refs_live st.

(** The reference [self.providers[self.current_provider_index]]. *)
Definition current_ref st : option loc :=
  providers (self st) !! Z.to_nat (current_provider_index (self st)).

Definition with_index (i : Z) st : State Config :=
  mkState (mkLLMManager (config (self st)) (providers (self st)) i)
    (heap st) (sent st).

Definition with_object (l : loc) (p : LLMProvider) st : State Config :=
  mkState (self st) (<[l := p]> (heap st)) (sent st).

Definition with_request (l : loc) (req : Request) st : State Config :=
  mkState (self st) (heap st) (sent st ++ [(l, req)]).

(** The index after a rotation. *)
Definition next_index st : Z :=
  (current_provider_index (self st) + 1) `mod` registry_size st.

(** The state a successful attempt on the object [p] at [l] leaves. *)
Definition served_state (l : loc) (p : LLMProvider) (req : Request)
    (t : float) st : State Config :=
  with_object l (set_healthy true (set_latency_ms t p)) (with_request l req st).

(** The state the [try] block leaves when it raises: the request was
    sent, and [latency_ms] and [healthy] were written if the status was
    200. *)
Definition tried_state (l : loc) (p : LLMProvider) (req : Request)
    (measured : option float) st : State Config :=
  match measured with
  | Some t =>
      with_object l (set_healthy true (set_latency_ms t p)) (with_request l req st)
  | None => with_request l req st
  end.

(** The provider object after a failed attempt of [generate]. *)
Definition failed_provider (p : LLMProvider) (e : exn)
    (measured : option float) : LLMProvider :=
  let p1 := match measured with
            | Some t => set_healthy true (set_latency_ms t p)
            | None => p
            end in
  set_last_error (Some (exc_str e)) (set_healthy false p1).

(** The state a failed attempt leaves, rotation included, when it was
    attempt number [attempts] of [max_attempts]. *)
Definition failed_state (l : loc) (p : LLMProvider) (req : Request) (e : exn)
    (measured : option float) (attempts max_attempts : Z) st : State Config :=
  let st1 := with_object l (failed_provider p e measured) (with_request l req st) in
  if attempts <? max_attempts - 1 then with_index (next_index st) st1 else st1.

(** The runs of [generate]'s loop from the counter value [attempts], for a
    reading [outcome] of the replies: the result returned and the state
    left. *)
Inductive runs (outcome : Reply -> Outcome) (net : Network)
    (messages : list Message) (max_tokens max_attempts : Z)
    : Z -> State Config -> Result -> State Config -> Prop :=
| runs_exhausted attempts st :
    max_attempts ≤ attempts →
    runs outcome net messages max_tokens max_attempts attempts st
      (Failure "All providers failed" "NONE") st
| runs_served attempts st l p content t :
    attempts < max_attempts →
    current_ref st = Some l →
    heap st !! l = Some p →
    outcome (net (length (sent st)) (generate_request messages max_tokens p))
      = Served content t →
    runs outcome net messages max_tokens max_attempts attempts st
      (Success (name p) (model p) content t)
      (served_state l p (generate_request messages max_tokens p) t st)
| runs_failed attempts st l p e measured r st' :
    attempts < max_attempts →
    current_ref st = Some l →
    heap st !! l = Some p →
    outcome (net (length (sent st)) (generate_request messages max_tokens p))
      = Failed e measured →
    runs outcome net messages max_tokens max_attempts (attempts + 1)
      (failed_state l p (generate_request messages max_tokens p) e measured
         attempts max_attempts st) r st' →
    runs outcome net messages max_tokens max_attempts attempts st r st'.

(** What a run of the loop that started in [st] with the counter at
    [attempts] did, when it returned [r] and left [st']; [new] lists the
    requests it sent, oldest first. *)
Record fallback (outcome : Reply -> Outcome) (net : Network)
    (messages : list Message) (max_tokens attempts : Z)
    (st : State Config) (r : Result) (st' : State Config)
    (new : list (loc * Request)) : Prop := mk_fallback {
  (* the log grew by the requests of this call *)
  fb_log : sent st' = sent st ++ new;
  (* no more requests than attempts were left, and one if any was left *)
  fb_at_most :
    Z.of_nat (length new) ≤ Z.max 0 (registry_size st - attempts);
  fb_at_least : attempts < registry_size st → new ≠ [];
  (* the providers contacted are the first ones of the registry rotated to
     the index at entry, in that order *)
  fb_order :
    new.*1 = take (length new)
               (rotate (Z.to_nat (current_provider_index (self st)))
                  (providers (self st)));
  (* each request is the one built from the provider it went to *)
  fb_requests :
    ∀ j l req, new !! j = Some (l, req) →
      ∃ p, heap st !! l = Some p ∧ req = generate_request messages max_tokens p;
  (* a request was served if and only if it is the last one of a call that
     succeeded *)
  fb_served :
    ∀ j l req, new !! j = Some (l, req) →
      is_served (outcome (net (length (sent st) + j)%nat req))
        = success r && bool_decide (S j = length new);
  (* a success comes from the provider contacted last *)
  fb_success :
    ∀ pname pmodel content t, r = Success pname pmodel content t →
      ∃ l req p p',
        last new = Some (l, req) ∧ heap st !! l = Some p
        ∧ pname = name p ∧ pmodel = model p
        ∧ outcome (net (length (sent st) + (length new - 1))%nat req)
            = Served content t
        ∧ heap st' !! l = Some p' ∧ latency_ms p' = t ∧ healthy p' = true;
  (* a failure is the exhaustion of the attempts *)
  fb_failure :
    success r = false →
      r = Failure "All providers failed" "NONE"
      ∧ Z.of_nat (length new) = Z.max 0 (registry_size st - attempts);
  (* one rotation after each request but the last *)
  fb_index :
    current_provider_index (self st')
      = (current_provider_index (self st) + Z.of_nat (length new - 1))
          `mod` registry_size st;
  (* the registry, the configuration and the identity of every object stay *)
  fb_registry : providers (self st') = providers (self st);
  fb_config : config (self st') = config (self st);
  fb_heap : backend <$> heap st' = backend <$> heap st
}.

(** The state a health check of the object [p] at [l] leaves, and the
    boolean it returns. *)
Definition probed_provider (p : LLMProvider) (reply : Reply) : LLMProvider :=
  match reply with
  | Refused e => set_last_error (Some (exc_str e)) (set_healthy false p)
  | Answered r t =>
      let p1 := set_healthy (status r =? 200) (set_latency_ms t p) in
      if status r =? 200 then p1
      else set_last_error (Some ("HTTP " +:+ pretty (status r))) p1
  end.

Definition probed_state (net : Network) (l : loc) (p : LLMProvider) st
    : State Config :=
  with_object l
    (probed_provider p (net (length (sent st)) (health_request p)))
    (with_request l (health_request p) st).

(** The providers a call contacted: those of the requests logged between
    [st] and [st']. *)
Definition contacted st st' : list loc := (drop (length (sent st)) (sent st')).*1.

(** [generate] went through the registry in rotated order: [out] is what
    the call evaluated to from [st].  Each request of the call is the one
    built from the provider it is logged for, so it went to that
    provider's endpoint, with its model, key and timeout. *)
Definition tries_in_rotated_order (outcome : Reply -> Outcome) (net : Network)
    (messages : list Message) (max_tokens : Z)
    st (out : option (res Result * State Config)) : Prop :=
  ∃ r st' new,
    out = Some (Ok r, st')
    ∧ sent st' = sent st ++ new
    ∧ (1 ≤ length new ≤ length (providers (self st)))%nat
    ∧ new.*1 = take (length new)
                 (rotate (Z.to_nat (current_provider_index (self st)))
                    (providers (self st)))
    ∧ (∀ j l req, new !! j = Some (l, req) →
         ∃ p, heap st !! l = Some p
              ∧ req = generate_request messages max_tokens p)
    ∧ (NoDup (providers (self st)) → NoDup new.*1)
    ∧ (∀ j l req, new !! j = Some (l, req) →
         is_served (outcome (net (length (sent st) + j)%nat req))
           = success r && bool_decide (S j = length new))
    ∧ (success r = false → length new = length (providers (self st)))
    ∧ (∀ l req,
         new !! 0%nat = Some (l, req) →
         is_served (outcome (net (length (sent st)) req)) = true →
         new = [(l, req)]
         ∧ current_provider_index (self st') = current_provider_index (self st)).

(** Every provider fails in a call that starts in [st]: the one contacted
    in position [j] of the rotated order does not serve the request it is
    sent. *)
Definition all_fail (outcome : Reply -> Outcome) (net : Network)
    (messages : list Message) (max_tokens : Z) st : Prop :=
  ∀ (j : nat) l p,
    rotate (Z.to_nat (current_provider_index (self st))) (providers (self st)) !! j
      = Some l →
    heap st !! l = Some p →
    is_served (outcome (net (length (sent st) + j)%nat
                          (generate_request messages max_tokens p))) = false.

(** The next call starts where this state points: whatever the backend
    does, the first provider it contacts is the current one. *)
Definition next_call_starts_here
    (generate_op : Network -> list Message -> Z -> M Config Result) st : Prop :=
  ∀ net messages max_tokens,
    ∃ r st',
      generate_op net messages max_tokens st = Some (Ok r, st')
      ∧ head (contacted st st') = current_ref st.

(** The result of a call in which every provider failed, and the index it
    leaves: that of the provider tried last, which differs from the index
    at entry as soon as there are two providers. *)
Definition sticky_failure
    (generate_op : Network -> list Message -> Z -> M Config Result)
    (net : Network) (messages : list Message) (max_tokens : Z) st : Prop :=
  ∃ error st',
    generate_op net messages max_tokens st = Some (Ok (Failure error "NONE"), st')
    ∧ error ≠ ""
    ∧ length (contacted st st') = length (providers (self st))
    ∧ current_provider_index (self st')
        = (current_provider_index (self st) + (registry_size st - 1))
            `mod` registry_size st
    ∧ (2 ≤ registry_size st →
         current_provider_index (self st') ≠ current_provider_index (self st))
    ∧ providers (self st') = providers (self st)
    ∧ next_call_starts_here generate_op st'.

(** What a success and a failure carry.  A success comes from the provider
    contacted last, whose answer had status 200 and a body in which
    [choices[0].message.content] is [content], whatever value that is. *)
Definition result_carries (net : Network) st (r : Result) st' : Prop :=
  match r with
  | Success pname pmodel content t =>
      ∃ l req p p' resp body,
        last (drop (length (sent st)) (sent st')) = Some (l, req)
        ∧ heap st !! l = Some p
        ∧ pname = name p ∧ pmodel = model p
        ∧ net (length (sent st') - 1)%nat req = Answered resp t
        ∧ status resp = 200
        ∧ resp_json resp = Ok body
        ∧ completion_content body = Ok content
        ∧ heap st' !! l = Some p' ∧ latency_ms p' = t
  | Failure error pname => error ≠ "" ∧ pname = "NONE"
  end.

(** A completion that is a non-empty text. *)
Definition nonempty_text (content : json) : bool :=
  match content with
  | JStr s => truthy s
  | _ => false
  end.

(** What a health check of the object at [l] does: it returns a boolean,
    the value of [healthy] it leaves.  When an answer came, whatever its
    status, the object holds the measured latency and whether the status
    was 200, and for another status the diagnostic; when the request
    raised, the object is unhealthy with the text of the exception. *)
Definition probe_contract (net : Network) (l : loc) st
    (out : option (res bool * State Config)) : Prop :=
  ∃ b p p' st',
    out = Some (Ok b, st')
    ∧ heap st !! l = Some p ∧ heap st' !! l = Some p'
    ∧ b = healthy p'
    ∧ sent st' = sent st ++ [(l, health_request p)]
    ∧ self st' = self st
    ∧ (∀ r t,
         net (length (sent st)) (health_request p) = Answered r t →
         latency_ms p' = t
         ∧ healthy p' = bool_decide (status r = 200)
         ∧ (status r ≠ 200 →
              last_error p' = Some ("HTTP " +:+ pretty (status r))))
    ∧ (∀ e,
         net (length (sent st)) (health_request p) = Refused e →
         healthy p' = false ∧ last_error p' = Some (exc_str e)
         ∧ latency_ms p' = latency_ms p).

(** The object [health_check] probes, and what the call needs: an
    argument that designates an object, or else a current provider. *)
Definition probe_target (provider : option loc) st : option loc :=
  match provider with
  | Some l => Some l
  | None => current_ref st
  end.

Definition probe_ready (provider : option loc) st : Prop :=
  match provider with
  | Some l => is_Some (heap st !! l)
  | None => well_formed st
  end.

(** What [health_check] evaluates to: the contract on the object it
    probes, or [False] at once when there is none. *)
Definition probe_outcome (net : Network) (provider : option loc) st
    (out : option (res bool * State Config)) : Prop :=
  match probe_target provider st with
  | Some l => probe_contract net l st out
  | None => out = Some (Ok false, st)
  end.

(** The current provider does not serve the request [generate] sends it. *)
Definition current_fails (outcome : Reply -> Outcome) (net : Network)
    (messages : list Message) (max_tokens : Z) st : Prop :=
  ∀ l p,
    current_ref st = Some l → heap st !! l = Some p →
    is_served (outcome (net (length (sent st))
                          (generate_request messages max_tokens p))) = false.

(** A failed attempt that is not the last one: the pass [attempt_op]
    through the loop leaves the index one further, modulo the size, and the
    loop [loop_op] goes on from there. *)
Definition rotates_after_failure {A : Type}
    (attempt_op : Z -> Z -> M Config (option Result))
    (loop_op : Z -> Z -> State Config -> A) (attempts : Z) st : Prop :=
  ∃ st',
    attempt_op attempts (registry_size st) st = Some (Ok None, st')
    ∧ current_provider_index (self st')
        = (current_provider_index (self st) + 1) `mod` registry_size st
    ∧ loop_op (registry_size st) attempts st
        = loop_op (registry_size st) (attempts + 1) st'.

(** When a pass through the loop writes [latency_ms] of the provider it
    tried ([p] before, [p'] after): exactly when an answer came with status
    200, whether or not its body could then be read. *)
Definition latency_written (reply : Reply) (p p' : LLMProvider) : Prop :=
  match reply with
  | Answered r t =>
      if status r =? 200 then latency_ms p' = t
      else latency_ms p' = latency_ms p
  | Refused _ => latency_ms p' = latency_ms p
  end.

(** The state [__init__] leaves when it created the objects [ps], in this
    order. *)
Definition registered (cfg : Config) (ps : list LLMProvider) : State Config :=
  mkState (mkLLMManager cfg (seq 0 (length ps)) 0) ps [].

(** The invariant of a manager whose objects were created as [ps]: the
    registry lists them in order, no object changed identity, and the index
    is within the registry whenever there is one. *)
Definition built_from (ps : list LLMProvider) st : Prop :=
  providers (self st) = seq 0 (length ps)
  ∧ backend <$> heap st = backend <$> ps
  ∧ (providers (self st) ≠ [] → index_valid st).

(** The states a manager built from [cfg] goes through, for the operations
    of one source file: [rotate], [generate] and [health_check] are called
    in any order, with any backend, and [health_check] on any object. *)
Section LifeCycle.
Context {R : Type}.
Variable init : Config -> option (res unit * State Config).
Variable rotate_op : M Config R.
Variable generate_op : Network -> list Message -> Z -> M Config Result.
Variable health_check_op : Network -> option loc -> M Config bool.

Inductive step : State Config -> State Config -> Prop :=
| step_rotate st out st' :
    rotate_op st = Some (out, st') → step st st'
| step_generate net messages max_tokens st out st' :
    generate_op net messages max_tokens st = Some (out, st') → step st st'
| step_health_check net provider st out st' :
    (∀ l, provider = Some l → is_Some (heap st !! l)) →
    health_check_op net provider st = Some (out, st') → step st st'.

Inductive reachable (cfg : Config) : State Config -> Prop :=
| reachable_init st :
    init cfg = Some (Ok tt, st) → reachable cfg st
| reachable_step st st' :
    reachable cfg st → step st st' → reachable cfg st'.
End LifeCycle.

(** What holds of every state of a manager built by [init] from [cfg]: the
    registry and the identity of the objects are those of construction,
    where the index is 0, every reference of the registry designates an
    object, and the index is within the registry whenever there is one. *)
Definition registry_invariant
    (init : Config -> option (res unit * State Config)) (cfg : Config) st : Prop :=
  ∃ st0,
    init cfg = Some (Ok tt, st0)
    ∧ current_provider_index (self st0) = 0
    ∧ providers (self st) = providers (self st0)
    ∧ backend <$> heap st = backend <$> heap st0
    ∧ refs_live st
    ∧ (providers (self st) ≠ [] → index_valid st).

End Failover.

(** [a % b] on Python integers: the remainder has the sign of [b], as
    [Z.modulo] has, and a zero divisor raises. *)
Definition py_mod (a b : Z) : res Z :=
  if b =? 0 then Raise (PyExc "ZeroDivisionError" "integer modulo by zero")
  else Ok (a `mod` b).

(** In the specification's words: a key adds a fallback provider at
    [https://api.openai.com/v1], with model [gpt-4o-mini] and a timeout of
    30 seconds.  To be compared with what [_setup_providers] does. *)
Definition openai_fallback (key : option string) : list LLMProvider :=
  if truthy_opt key
  then [new_LLMProvider "OPENAI" "https://api.openai.com/v1" "gpt-4o-mini" key 30]
  else [].

(** ** Text *)

(** The code point of a character: the bits of its first byte, then six
    bits of each continuation byte. *)
Fixpoint continuation_bits (acc : Z) (rest : string) : Z :=
  match rest with
  | EmptyString => acc
  | String d rest' => continuation_bits (acc * 64 + (byte d - 128)) rest'
  end.

Definition code_point (ch : string) : Z :=
  match ch with
  | EmptyString => 0
  | String c rest =>
      let b := byte c in
      let first :=
        if b <? 128 then b
        else if b <? 224 then b - 192
        else if b <? 240 then b - 224
        else b - 240 in
      continuation_bits first rest
  end.

(** [str.isspace] on a code point: the white space of Unicode, which is
    U+0009 to U+000D, U+001C to U+0020, U+0085, U+00A0, U+1680, U+2000 to
    U+200A, U+2028, U+2029, U+202F, U+205F and U+3000. *)
Definition isspace (n : Z) : bool :=
  ((9 <=? n) && (n <=? 13)) || ((28 <=? n) && (n <=? 32))
  || (n =? 133) || (n =? 160) || (n =? 5760)
  || ((8192 <=? n) && (n <=? 8202))
  || (n =? 8232) || (n =? 8233) || (n =? 8239) || (n =? 8287)
  || (n =? 12288).

(** The characters left when the white space in front is dropped. *)
Fixpoint drop_spaces (l : list string) : list string :=
  match l with
  | [] => []
  | ch :: rest => if isspace (code_point ch) then drop_spaces rest else l
  end.

(** The characters of [s.strip()], given those of [s]: the white space in
    front and at the end is dropped. *)
Definition stripped (l : list string) : list string :=
  rev (drop_spaces (rev (drop_spaces l))).

(** [s.strip()]. *)
Definition strip (s : string) : string :=
  str_of_chars (stripped (str_chars s)).

(** [s.split(sep)] for a separator of one ASCII character, whose byte
    occurs in the encoding of no other character: the pieces between the
    separators, empty ones included; there is always one piece. *)
Fixpoint split (sep : ascii) (s : string) : list string :=
  match s with
  | EmptyString => [EmptyString]
  | String c s' =>
      if Ascii.eqb c sep then EmptyString :: split sep s'
      else
        match split sep s' with
        | piece :: pieces => String c piece :: pieces
        | [] => [String c EmptyString]
        end
  end.

(** [sep.join(pieces)]. *)
Fixpoint join (sep : string) (pieces : list string) : string :=
  match pieces with
  | [] => EmptyString
  | [piece] => piece
  | piece :: rest => piece +:+ sep +:+ join sep rest
  end.

(** Every byte of [s] satisfies [P]. *)
Fixpoint all_chars (P : ascii -> bool) (s : string) : bool :=
  match s with
  | EmptyString => true
  | String c s' => P c && all_chars P s'
  end.

(** The characters of the decimal text of an integer, one byte each. *)
Definition is_sign_or_digit (c : ascii) : bool :=
  let n := Z.of_nat (nat_of_ascii c) in
  (n =? 45) || ((48 <=? n) && (n <=? 57)).

(** A character: a byte and the continuation bytes after it. *)
Definition is_char (ch : string) : Prop :=
  ∃ c rest, ch = String c rest ∧ all_chars is_continuation rest = true.

(** The characters of a text: each is one character, and all but the first
    begin with a byte that is no continuation byte. *)
Definition chars_ok (l : list string) : Prop :=
  Forall is_char l ∧ Forall (λ ch, starts_continuation ch = false) (tail l).

(** [BotState.uptime], the same in both source files, as a function of
    [int(delta.total_seconds())]: [divmod] rounds towards minus infinity,
    as [Z.div] and [Z.modulo] do. *)
Definition uptime_parts (total_seconds : Z) : Z * Z * Z :=
  let (hours, remainder) := (total_seconds `div` 3600, total_seconds `mod` 3600) in
  let (minutes, seconds) := (remainder `div` 60, remainder `mod` 60) in
  (hours, minutes, seconds).

Definition uptime (total_seconds : Z) : string :=
  let '(hours, minutes, seconds) := uptime_parts total_seconds in
  pretty hours +:+ "h " +:+ pretty minutes +:+ "m " +:+ pretty seconds +:+ "s".

(** * More of the manager: diagnostics, frames, rotation and requests *)

(** A provider that a failed call left marked: unhealthy, with a diagnostic. *)
Definition marked_unhealthy (p : LLMProvider) : Prop :=
  healthy p = false ∧ is_Some (last_error p).

(** [op] run [k] times in a row, as long as no run raises. *)
Fixpoint times {Config R : Type} (k : nat) (op : M Config R) : M Config unit :=
  match k with
  | O => mret tt
  | S k' => op;; times k' op
  end.

(** A body that is a JSON object in which [choices] is a non-empty list
    whose first element is an object with a [message] object holding
    [content]. *)
Definition completion_shaped (body content : json) : Prop :=
  ∃ fields first rest cfields mfields,
    body = JDict fields
    ∧ dict_get fields "choices" = Some (JList (first :: rest))
    ∧ first = JDict cfields
    ∧ dict_get cfields "message" = Some (JDict mfields)
    ∧ dict_get mfields "content" = Some content.

(** The request [req] is addressed as the provider [p] says: its endpoint,
    model, key and timeout. *)
Definition request_of (p : LLMProvider) (req : Request) : Prop :=
  url req = api_base p +:+ "/chat/completions"
  ∧ payload_model req = model p
  ∧ headers req = build_headers (api_key p)
  ∧ timeout_total req = timeout p.

(** Every request of the log went to one of the providers [ps], the one
    its reference designates. *)
Definition requests_from {Config : Type} (ps : list LLMProvider)
    (st : State Config) : Prop :=
  ∀ l req, (l, req) ∈ sent st → ∃ p, ps !! l = Some p ∧ request_of p req.

(** Where a request that carries a key may go: to the OpenAI endpoint, with
    the configured key as bearer token. *)
Definition key_confined (key : option string) (req : Request) : Prop :=
  ∀ v, ("Authorization", v) ∈ headers req →
    ∃ k, key = Some k ∧ k ≠ "" ∧ v = "Bearer " +:+ k
         ∧ url req = "https://api.openai.com/v1/chat/completions"
         ∧ payload_model req = "gpt-4o-mini".

(** The manager start-up leaves, when construction created the objects
    [ps]: the first provider was probed, and the index moved on by one,
    modulo the size, unless the probe found it healthy. *)
Definition started {Config : Type} (net : Network) (cfg : Config)
    (ps : list LLMProvider) : State Config :=
  match ps with
  | [] => registered cfg []
  | p :: _ =>
      let st := probed_state net 0%nat p (registered cfg ps) in
      if healthy (probed_provider p (net 0%nat (health_request p))) then st
      else with_index (1 `mod` Z.of_nat (length ps)) st
  end.

(** What start-up did, seen from the state [st] it left: the registry is
    the constructed one; with no provider nothing was sent; otherwise one
    health request went to the first provider, which holds the result of
    the probe, the others are as constructed, and the index is 0 when the
    first provider answered with status 200 and [1 mod len(providers)]
    when it did not. *)
Definition startup_contract {Config : Type} (net : Network)
    (ps : list LLMProvider) (st : State Config) : Prop :=
  built_from ps st
  ∧ match ps with
    | [] => sent st = []
    | p :: others =>
        sent st = [(0%nat, health_request p)]
        ∧ heap st = probed_provider p (net 0%nat (health_request p)) :: others
        ∧ current_provider_index (self st)
            = match net 0%nat (health_request p) with
              | Answered r _ =>
                  if status r =? 200 then 0 else 1 `mod` Z.of_nat (length ps)
              | Refused _ => 1 `mod` Z.of_nat (length ps)
              end
    end.

(** The probe start-up sends to [p] does not find it healthy: no answer
    with status 200 comes. *)
Definition probe_fails (net : Network) (p : LLMProvider) : Prop :=
  ∀ r t, net 0%nat (health_request p) = Answered r t → status r ≠ 200.

(** The call of [generate_op] in [st] sends its first request to the
    object [q] at [l]; when that request is served, it is the only one and
    the result names [q]. *)
Definition first_goes_to {Config : Type}
    (generate_op : Network -> list Message -> Z -> M Config Result)
    (outcome : Reply -> Outcome) (net : Network) (messages : list Message)
    (max_tokens : Z) (l : loc) (q : LLMProvider) (st : State Config) : Prop :=
  ∃ r st' rest,
    generate_op net messages max_tokens st = Some (Ok r, st')
    ∧ sent st' = sent st ++ (l, generate_request messages max_tokens q) :: rest
    ∧ (is_served (outcome (net (length (sent st))
                             (generate_request messages max_tokens q))) = true →
         rest = [] ∧ ∃ content t, r = Success (name q) (model q) content t).

(** * The Telegram side

    A handler runs on the global [bot_state] and talks to Telegram.  Like
    the HTTP backend, Telegram is an oracle: it tells whether a call of
    the Bot API raises, and every call made is logged. *)

(** [class BotState] without [start_time]: the two counters and the
    manager, [None] until start-up assigns it.  The manager comes with the
    store its providers live in and the log of its requests. *)
Record BotState (Config : Type) := mkBotState {
  message_count : Z;
  error_count : Z;
  llm_manager : option (State Config)
}.
Arguments mkBotState {Config} _ _ _.
Arguments message_count {Config} _.
Arguments error_count {Config} _.
Arguments llm_manager {Config} _.

(** The calls of the Bot API the handlers make:
    [update.message.reply_text(text, parse_mode=...)] and
    [context.bot.send_chat_action(chat_id=..., action=...)].  The text of
    a reply is whatever value the handler passes. *)
Inductive TelegramCall :=
| reply_text (text : json) (parse_mode : option string)
| send_chat_action (chat_id : Z) (action : string).

(** What a call raises, if anything, given how many calls were made
    before it. *)
Definition Telegram := nat -> TelegramCall -> option exn.

(** An update that carries a new text message: [update.effective_user.id],
    [update.effective_chat.id] and [update.message.text], a [str]. *)
Record Update := mkUpdate {
  effective_user_id : Z;
  effective_chat_id : Z;
  message_text : string
}.

Record World (Config : Type) := mkWorld {
  bot_state : BotState Config;
  telegram_calls : list TelegramCall
}.
Arguments mkWorld {Config} _ _.
Arguments bot_state {Config} _.
Arguments telegram_calls {Config} _.

(** Handler code: it runs on a world and leaves a world, whatever its
    outcome.  As for [M], [None] stands for a dangling reference. *)
Definition H (Config A : Type) : Type :=
  World Config -> option (res A * World Config).

Section Handlers.
Context {Config : Type}.

#[export] Instance H_ret : MRet (H Config) := λ A a w, Some (Ok a, w).

#[export] Instance H_bind : MBind (H Config) := λ A B k m w,
  match m w with
  | Some (Ok a, w') => k a w'
  | Some (Raise e, w') => Some (Raise e, w')
  | None => None
  end.

(** [try: body except Exception: handler]. *)
Definition try_except_H {A : Type} (body : H Config A)
    (handler : exn -> H Config A) : H Config A :=
  λ w,
    match body w with
    | Some (Raise e, w') => handler e w'
    | other => other
    end.

(** A value computed without effect, or the exception it raises. *)
Definition lift_H {A : Type} (r : res A) : H Config A := λ w, Some (r, w).

(** A call of the Bot API. *)
Definition telegram (tg : Telegram) (call : TelegramCall) : H Config unit :=
  λ w,
    let w' := mkWorld (bot_state w) (telegram_calls w ++ [call]) in
    match tg (length (telegram_calls w)) call with
    | Some e => Some (Raise e, w')
    | None => Some (Ok tt, w')
    end.

Definition get_bot_state : H Config (BotState Config) :=
  λ w, Some (Ok (bot_state w), w).

(** [bot_state.message_count += 1]. *)
Definition incr_message_count : H Config unit :=
  λ w,
    let b := bot_state w in
    Some (Ok tt,
          mkWorld (mkBotState (message_count b + 1) (error_count b) (llm_manager b))
            (telegram_calls w)).

(** [bot_state.error_count += 1]. *)
Definition incr_error_count : H Config unit :=
  λ w,
    let b := bot_state w in
    Some (Ok tt,
          mkWorld (mkBotState (message_count b) (error_count b + 1) (llm_manager b))
            (telegram_calls w)).

(** A method of the manager called on [bot_state.llm_manager]. *)
Definition on_manager {A : Type} (what : string) (op : M Config A) : H Config A :=
  λ w,
    let b := bot_state w in
    match llm_manager b with
    | Some st =>
        match op st with
        | Some (r, st') =>
            Some (r, mkWorld (mkBotState (message_count b) (error_count b) (Some st'))
                       (telegram_calls w))
        | None => None
        end
    | None =>
        Some (Raise (AttributeError
                       ("'NoneType' object has no attribute '" +:+ what +:+ "'")), w)
    end.
End Handlers.

(** The line feed. *)
Definition LF : string := String "010" EmptyString.

(** The characters of a [str], as the values a [list] holds. *)
Definition chars (s : string) : list json := JStr <$> str_chars s.

Definition type_name (v : json) : string :=
  match v with
  | JNull => "NoneType"
  | JBool _ => "bool"
  | JInt _ => "int"
  | JFloat _ => "float"
  | JStr _ => "str"
  | JList _ => "list"
  | JDict _ => "dict"
  end.

(** [v += s] for a [str] [s]: concatenation on a [str], extension by the
    characters on a [list], a [TypeError] on the other values. *)
Definition iadd_str (v : json) (s : string) : res json :=
  match v with
  | JStr a => Ok (JStr (a +:+ s))
  | JList items => Ok (JList (items ++ chars s))
  | _ =>
      Raise (TypeError ("unsupported operand type(s) for +=: '" +:+ type_name v
                          +:+ "' and 'str'"))
  end.

(** The fields of a result, as the handlers read them. *)
Definition result_content (r : Result) : res json :=
  match r with
  | Success _ _ content _ => Ok content
  | Failure _ _ => Raise (KeyError "content")
  end.

(** The one message a handler sends to [generate]. *)
Definition user_messages (text : string) : list Message :=
  [[("role", "user"); ("content", text)]].

(** What a handler did with an authorised message, seen from the world
    [w'] it left after [generate] returned [r] and left [st']: the message
    is counted, a failure is counted as an error, the manager is the one
    [generate] left, and Telegram was sent the typing action and then at
    most [max_replies] replies. *)
Definition message_accounted {Config : Type} (typing : TelegramCall)
    (max_replies : nat) (w : World Config) (r : Result) (st' : State Config)
    (w' : World Config) : Prop :=
  message_count (bot_state w') = message_count (bot_state w) + 1
  ∧ error_count (bot_state w')
      = error_count (bot_state w) + (if success r then 0 else 1)
  ∧ llm_manager (bot_state w') = Some st'
  ∧ ∃ replies,
      telegram_calls w' = telegram_calls w ++ typing :: replies
      ∧ (length replies ≤ max_replies)%nat.

(** The text sent for the completion [s] that the provider named [pname]
    served: the completion itself from [LOCAL], and with the provider's
    name appended, between [opening] and [closing], from any other. *)
Definition annotated (opening closing pname s : string) : string :=
  if String.eqb pname "LOCAL" then s
  else s +:+ LF +:+ LF +:+ opening +:+ pname +:+ closing.

(** The replies a handler sent after the typing action, and its outcome,
    for a completion [content] served by [pname]: a text is sent as
    Markdown, annotated; when [retry] is set and Telegram refuses the
    Markdown, the same text is sent again as plain text; a completion from
    another provider than [LOCAL] that is neither a text nor a list makes
    the handler raise [TypeError] before anything is sent. *)
Definition replied {Config : Type} (tg : Telegram) (retry : bool)
    (opening closing pname : string) (content : json)
    (typing : TelegramCall) (w : World Config)
    (out : res unit) (w' : World Config) : Prop :=
  let n := S (length (telegram_calls w)) in
  (∀ s, content = JStr s →
     let markdown := reply_text (JStr (annotated opening closing pname s))
                       (Some "Markdown") in
     let plain := reply_text (JStr (annotated opening closing pname s)) None in
     match tg n markdown with
     | None =>
         out = Ok tt
         ∧ telegram_calls w' = telegram_calls w ++ [typing; markdown]
     | Some e =>
         if retry then
           telegram_calls w' = telegram_calls w ++ [typing; markdown; plain]
           ∧ out = match tg (S n) plain with
                   | Some e' => Raise e'
                   | None => Ok tt
                   end
         else
           out = Raise e
           ∧ telegram_calls w' = telegram_calls w ++ [typing; markdown]
     end)
  ∧ (pname ≠ "LOCAL" → (∀ s, content ≠ JStr s) → (∀ items, content ≠ JList items) →
       out = Raise (TypeError ("unsupported operand type(s) for +=: '"
                                 +:+ type_name content +:+ "' and 'str'"))
       ∧ telegram_calls w' = telegram_calls w ++ [typing]).

(** [for provider in llm_mgr.providers: ...] of [health_command]: each
    provider is probed in turn, and [entry] makes the lines of the report
    from the outcome of the probe and the provider as the probe left it. *)
Fixpoint for_each_provider {Config : Type}
    (health_check_op : option loc -> M Config bool)
    (entry : bool -> LLMProvider -> list string) (ps : list loc)
    : M Config (list string) :=
  match ps with
  | [] => mret []
  | provider :: rest =>
      is_healthy ← health_check_op (Some provider);
      p ← getattr provider id;
      more ← for_each_provider health_check_op entry rest;
      mret (entry is_healthy p ++ more)
  end.

(** What [health_command] did to the manager, seen from the state [st']
    it left: the registry and the index are untouched, one health request
    went to each provider, in the order of the registry, and each provider
    holds the result of its own probe. *)
Definition all_probed {Config : Type} (net : Network)
    (st st' : State Config) : Prop :=
  self st' = self st
  ∧ contacted st st' = providers (self st)
  ∧ length (sent st') = (length (sent st) + length (providers (self st)))%nat
  ∧ (∀ l, l ∉ providers (self st) → heap st' !! l = heap st !! l)
  ∧ (NoDup (providers (self st)) →
     ∀ j l p,
       providers (self st) !! j = Some l → heap st !! l = Some p →
       heap st' !! l
         = Some (probed_provider p
                   (net (length (sent st) + j)%nat (health_request p)))).

(** What [health_command] did, seen from the world [w'] it left, once the
    announcement [announce] went through: the counters are untouched, every
    provider of the manager was probed, and after the announcement one
    reply was sent, the report: the [header] and at least one, at most two
    lines for each provider.  The handler raises only what that reply
    raises. *)
Definition health_reported {Config : Type} (tg : Telegram) (net : Network)
    (announce : TelegramCall) (header : string) (parse_mode : option string)
    (w : World Config) (st : State Config)
    (out : res unit) (w' : World Config) : Prop :=
  ∃ st' lines,
    let report := reply_text (JStr (join LF (header :: lines))) parse_mode in
    llm_manager (bot_state w') = Some st'
    ∧ message_count (bot_state w') = message_count (bot_state w)
    ∧ error_count (bot_state w') = error_count (bot_state w)
    ∧ all_probed net st st'
    ∧ (length (providers (self st)) ≤ length lines
       ≤ 2 * length (providers (self st)))%nat
    ∧ telegram_calls w' = telegram_calls w ++ [announce; report]
    ∧ out = match tg (S (length (telegram_calls w))) report with
            | Some e => Raise e
            | None => Ok tt
            end.

(** * [src/bot.py] *)

Module Bot.

(** [@dataclass class Config]: the values read from the environment. *)
Record Config := mkConfig {
  TELEGRAM_BOT_TOKEN : string;
  TELEGRAM_ALLOWED_IDS : list string;
  LOCAL_LLM_API_BASE : string;
  LOCAL_LLM_MODEL : string;
  LOCAL_LLM_TIMEOUT : Z;
  OPENAI_API_KEY : option string;
  PORT : Z
}.

(** [Config.validate]: only the token and the allowed ids are required; a
    missing local endpoint is a warning. *)
Definition validate (c : Config) : bool :=
  let ok := true in
  let ok := if negb (truthy (TELEGRAM_BOT_TOKEN c)) then false else ok in
  let ok := if bool_decide (TELEGRAM_ALLOWED_IDS c = []) then false else ok in
  ok.

(** [LLMManager._setup_providers]. *)
Definition _setup_providers : M Config unit :=
  s ← get_self;
  let cfg := config s in
  (if truthy (LOCAL_LLM_API_BASE cfg)
   then
     o ← new_object
           (new_LLMProvider "LOCAL" (LOCAL_LLM_API_BASE cfg)
              (str_or (LOCAL_LLM_MODEL cfg) "default") None
              (LOCAL_LLM_TIMEOUT cfg));
     providers_append o
   else mret tt);;
  (if truthy_opt (OPENAI_API_KEY cfg)
   then
     o ← new_object
           (new_LLMProvider "OPENAI" "https://api.openai.com/v1" "gpt-4o-mini"
              (OPENAI_API_KEY cfg) 30);
     providers_append o
   else mret tt).

(** In the specification's words: the local endpoint adds the primary
    provider.  To be compared with what [_setup_providers] does. *)
Definition local_provider (cfg : Config) : list LLMProvider :=
  if truthy (LOCAL_LLM_API_BASE cfg)
  then [new_LLMProvider "LOCAL" (LOCAL_LLM_API_BASE cfg)
          (str_or (LOCAL_LLM_MODEL cfg) "default") None (LOCAL_LLM_TIMEOUT cfg)]
  else [].

(** [LLMManager.__init__], run in a new process: no object exists and no
    request was sent. *)
Definition __init__ (cfg : Config) : option (res unit * State Config) :=
  _setup_providers (mkState (mkLLMManager cfg [] 0) [] []).

(** [LLMManager.current_provider]. *)
Definition current_provider : M Config (option loc) :=
  s ← get_self;
  match providers s with
  | [] => mret None
  | _ =>
      match py_index (providers s) (current_provider_index s) with
      | Some l => mret (Some l)
      | None => raise (IndexError "list index out of range")
      end
  end.

(** [LLMManager.switch_to_next_provider]. *)
Definition switch_to_next_provider : M Config unit :=
  s ← get_self;
  if Z.of_nat (length (providers s)) <=? 1 then mret tt
  else
    cur ← current_provider;
    o ← object_of "name" cur;
    old ← getattr o name;
    i ← lift (py_mod (current_provider_index s + 1)
                (Z.of_nat (length (providers s))));
    set_current_provider_index i;;
    cur ← current_provider;
    o ← object_of "name" cur;
    new ← getattr o name;
    mret tt.

(** [LLMManager.health_check]. *)
Definition health_check (net : Network) (provider : option loc) : M Config bool :=
  prov ← match provider with
         | Some l => mret (Some l)
         | None => current_provider
         end;
  match prov with
  | None => mret false
  | Some prov =>
      try_except
        (p ← getattr prov id;
         '(resp, elapsed) ← session_post net prov (health_request p);
         setattr prov (set_latency_ms elapsed);;
         setattr prov (set_healthy (status resp =? 200));;
         h ← getattr prov healthy;
         (if negb h
          then setattr prov
                 (set_last_error (Some ("HTTP " +:+ pretty (status resp))))
          else mret tt);;
         getattr prov healthy)
        (λ e,
           setattr prov (set_healthy false);;
           setattr prov (set_last_error (Some (exc_str e)));;
           getattr prov name;;
           mret false)
  end.

(** The [try] block of [generate]'s loop: it returns from [generate] or
    raises. *)
Definition try_body (net : Network) (messages : list Message) (max_tokens : Z)
    (provider : option loc) : M Config Result :=
  prov ← object_of "model" provider;
  p ← getattr prov id;
  '(resp, elapsed) ← session_post net prov (generate_request messages max_tokens p);
  if status resp =? 200 then
    setattr prov (set_latency_ms elapsed);;
    setattr prov (set_healthy true);;
    result ← lift (resp_json resp);
    pname ← getattr prov name;
    pmodel ← getattr prov model;
    content ← lift (completion_content result);
    latency ← getattr prov latency_ms;
    mret (Success pname pmodel content latency)
  else
    body ← lift (resp_text resp);
    raise (Exception ("HTTP " +:+ pretty (status resp) +:+ ": "
                        +:+ str_slice_to 200 body)).

(** The [except Exception as e] block of the loop, up to [attempts += 1]. *)
Definition except_body (provider : option loc) (e : exn)
    (attempts max_attempts : Z) : M Config unit :=
  prov ← object_of "healthy" provider;
  setattr prov (set_healthy false);;
  setattr prov (set_last_error (Some (exc_str e)));;
  getattr prov name;;
  if attempts <? max_attempts - 1 then switch_to_next_provider else mret tt.

(** One pass through the body of [while attempts < max_attempts]:
    [Some r] when [generate] returns [r], [None] when the loop goes on. *)
Definition attempt (net : Network) (messages : list Message) (max_tokens : Z)
    (attempts max_attempts : Z) : M Config (option Result) :=
  provider ← current_provider;
  try_except
    (r ← try_body net messages max_tokens provider; mret (Some r))
    (λ e, except_body provider e attempts max_attempts;; mret None).

Equations generate_loop (net : Network) (messages : list Message)
    (max_tokens max_attempts attempts : Z) (st : State Config)
    : option (res Result * State Config)
    by wf (Z.to_nat (max_attempts - attempts)) lt :=
generate_loop net messages max_tokens max_attempts attempts st
    with Z_lt_dec attempts max_attempts := {
  | right _ => Some (Ok (Failure "All providers failed" "NONE"), st)
  | left _ with attempt net messages max_tokens attempts max_attempts st := {
      | Some (Ok (Some r), st') => Some (Ok r, st')
      | Some (Ok None, st') =>
          generate_loop net messages max_tokens max_attempts (attempts + 1) st'
      | Some (Raise e, st') => Some (Raise e, st')
      | None => None } }.
Next Obligation. lia. Qed.

(** [LLMManager.generate]. *)
Definition generate (net : Network) (messages : list Message) (max_tokens : Z)
    : M Config Result :=
  λ st,
    match providers (self st) with
    | [] => Some (Ok (Failure "No LLM providers configured" "NONE"), st)
    | _ =>
        generate_loop net messages max_tokens
          (Z.of_nat (length (providers (self st)))) 0 st
    end.

(** How the [try] block reads a reply: a 200 whose body holds a completion
    is served; an unreadable 200 fails with the latency already written; a
    response with another status fails on its status and the first 200
    characters of its body. *)
Definition outcome (reply : Reply) : Outcome :=
  match reply with
  | Refused e => Failed e None
  | Answered r t =>
      if status r =? 200 then
        match resp_json r with
        | Ok result =>
            match completion_content result with
            | Ok content => Served content t
            | Raise e => Failed e (Some t)
            end
        | Raise e => Failed e (Some t)
        end
      else
        match resp_text r with
        | Ok body =>
            Failed (Exception ("HTTP " +:+ pretty (status r) +:+ ": "
                                 +:+ str_slice_to 200 body)) None
        | Raise e => Failed e None
        end
  end.

(** The block of [run] from [LLMManager(config)] to the end of the initial
    health check: what start-up does to the manager it builds. *)
Definition initial_health_check (net : Network) (cfg : Config)
    : option (res unit * State Config) :=
  match __init__ cfg with
  | Some (Ok _, st) =>
      (s ← get_self;
       match providers s with
       | [] => mret tt
       | _ =>
           is_healthy ← health_check net None;
           if (is_healthy : bool) then
             cur ← current_provider;
             o ← object_of "name" cur;
             getattr o name;;
             cur ← current_provider;
             o ← object_of "latency_ms" cur;
             getattr o latency_ms;;
             mret tt
           else
             s ← get_self;
             if 1 <? Z.of_nat (length (providers s))
             then switch_to_next_provider
             else mret tt
       end) st
  | other => other
  end.

(** [run], up to the initial health check, [config] being the value
    [Config()] returned.  A configuration that [validate] rejects makes
    the process exit before anything is built; otherwise the manager is
    built, assigned to [bot_state.llm_manager] and probed.  The rest of
    [run] builds the Telegram application and the web server and waits
    for a signal. *)
Definition run (net : Network) (config : Config) : H Config unit :=
  if negb (validate config) then lift_H (Raise (SystemExit 1))
  else
    λ w,
      let b := bot_state w in
      match initial_health_check net config with
      | Some (r, st) =>
          Some (r, mkWorld (mkBotState (message_count b) (error_count b) (Some st))
                     (telegram_calls w))
      | None => None
      end.

(** The value [Config()] gives [TELEGRAM_ALLOWED_IDS] when the environment
    variable of that name holds [env] ([None] when it is not set): the
    pieces between commas, stripped, without the blank ones. *)
Definition TELEGRAM_ALLOWED_IDS_factory (env : option string) : list string :=
  strip <$> filter (λ x, truthy (strip x) = true) (split "," (default "" env)).

(** [is_authorized]; [str(user_id)] is the decimal text of the integer. *)
Definition is_authorized (user_id : Z) (config : Config) : bool :=
  bool_decide (pretty user_id ∈ TELEGRAM_ALLOWED_IDS config).

(** [message_handler], for an update that carries a new text message. *)
Definition message_handler (tg : Telegram) (net : Network) (update : Update)
    (config : Config) : H Config unit :=
  if negb (is_authorized (effective_user_id update) config) then
    telegram tg (reply_text (JStr "Unauthorized.") None)
  else
    let user_message := message_text update in
    if negb (truthy user_message) then mret tt
    else
      incr_message_count;;
      b ← get_bot_state;
      if match llm_manager b with
         | None => true
         | Some st => bool_decide (providers (self st) = [])
         end
      then
        telegram tg
          (reply_text
             (JStr "No LLM providers are configured. Check bot environment variables.")
             None)
      else
        try_except_H
          (telegram tg (send_chat_action (effective_chat_id update) "typing"))
          (λ _, mret tt);;
        result ← on_manager "generate" (generate net (user_messages user_message) 1024);
        if success result then
          response ← lift_H (result_content result);
          response ← (if negb (String.eqb (result_provider result) "LOCAL")
                      then
                        lift_H (iadd_str response
                                  (LF +:+ LF +:+ "(via "
                                     +:+ result_provider result +:+ ")"))
                      else mret response);
          try_except_H
            (telegram tg (reply_text response (Some "Markdown")))
            (λ _, telegram tg (reply_text response None))
        else
          incr_error_count;;
          telegram tg
            (reply_text
               (JStr ("Failed to generate response. All LLM providers unavailable."
                        +:+ LF +:+ "Use /health to check provider status."))
               None).

(** The lines [health_command] appends for one provider.  [format_0f] is
    the text that [f"{x:.0f}"] gives for a float. *)
Definition report_entry (format_0f : float -> string) (is_healthy : bool)
    (provider : LLMProvider) : list string :=
  let status := if is_healthy then "HEALTHY" else "UNHEALTHY" in
  let latency :=
    if PrimFloat.ltb 0 (latency_ms provider)
    then format_0f (latency_ms provider) +:+ "ms"
    else "N/A" in
  (LF +:+ name provider +:+ LF
     +:+ "  Status: " +:+ status +:+ LF
     +:+ "  Model: " +:+ model provider +:+ LF
     +:+ "  Latency: " +:+ latency)
  :: (if truthy_opt (last_error provider) && negb is_healthy
      then ["  Error: " +:+ str_slice_to 80 (default "" (last_error provider))]
      else []).

(** [health_command]. *)
Definition health_command (format_0f : float -> string) (tg : Telegram)
    (net : Network) (update : Update) (config : Config) : H Config unit :=
  if negb (is_authorized (effective_user_id update) config) then
    telegram tg (reply_text (JStr "Unauthorized.") None)
  else
    b ← get_bot_state;
    if match llm_manager b with
       | None => true
       | Some st => bool_decide (providers (self st) = [])
       end
    then telegram tg (reply_text (JStr "No LLM providers configured.") None)
    else
      telegram tg (reply_text (JStr "Running health checks...") None);;
      lines ← on_manager "providers"
                (s ← get_self;
                 for_each_provider (health_check net) (report_entry format_0f)
                   (providers s));
      telegram tg
        (reply_text
           (JStr (join LF (("LLM Health Report" +:+ LF +:+ "==================")
                             :: lines)))
           None).

End Bot.

(** * [src/clawdbot/bot.py]

    The older copy: the local provider is always registered, and neither
    the accessors nor [generate] test for an empty registry. *)

Module Legacy.

Record Config := mkConfig {
  TELEGRAM_BOT_TOKEN : string;
  TELEGRAM_ALLOWED_IDS : list string;
  LOCAL_LLM_API_BASE : string;
  LOCAL_LLM_MODEL : string;
  LOCAL_LLM_TIMEOUT : Z;
  OPENAI_API_KEY : option string;
  ANTHROPIC_API_KEY : option string
}.

(** [Config.validate]: here the local endpoint is required. *)
Definition validate (c : Config) : bool :=
  if negb (truthy (TELEGRAM_BOT_TOKEN c)) then false
  else if bool_decide (TELEGRAM_ALLOWED_IDS c = [])
          || bool_decide (TELEGRAM_ALLOWED_IDS c = [""]) then false
  else if negb (truthy (LOCAL_LLM_API_BASE c)) then false
  else true.

(** [LLMManager._setup_providers]. *)
Definition _setup_providers : M Config unit :=
  s ← get_self;
  let cfg := config s in
  o ← new_object
        (new_LLMProvider "LOCAL" (LOCAL_LLM_API_BASE cfg) (LOCAL_LLM_MODEL cfg)
           None (LOCAL_LLM_TIMEOUT cfg));
  providers_append o;;
  (if truthy_opt (OPENAI_API_KEY cfg)
   then
     o ← new_object
           (new_LLMProvider "OPENAI" "https://api.openai.com/v1" "gpt-4o-mini"
              (OPENAI_API_KEY cfg) 30);
     providers_append o
   else mret tt).

(** The primary provider as this file has it: always there.  To be
    compared with what [_setup_providers] does. *)
Definition local_provider (cfg : Config) : list LLMProvider :=
  [new_LLMProvider "LOCAL" (LOCAL_LLM_API_BASE cfg) (LOCAL_LLM_MODEL cfg) None
     (LOCAL_LLM_TIMEOUT cfg)].

(** [LLMManager.__init__], run in a new process. *)
Definition __init__ (cfg : Config) : option (res unit * State Config) :=
  _setup_providers (mkState (mkLLMManager cfg [] 0) [] []).

(** [LLMManager.current_provider]. *)
Definition current_provider : M Config loc :=
  s ← get_self;
  match py_index (providers s) (current_provider_index s) with
  | Some l => mret l
  | None => raise (IndexError "list index out of range")
  end.

(** [LLMManager.switch_to_next_provider]; it returns both names. *)
Definition switch_to_next_provider : M Config (string * string) :=
  o ← current_provider;
  old_provider ← getattr o name;
  s ← get_self;
  i ← lift (py_mod (current_provider_index s + 1)
              (Z.of_nat (length (providers s))));
  set_current_provider_index i;;
  o ← current_provider;
  new_provider ← getattr o name;
  mret (old_provider, new_provider).

(** [LLMManager.health_check]. *)
Definition health_check (net : Network) (provider : option loc) : M Config bool :=
  prov ← match provider with
         | Some l => mret l
         | None => current_provider
         end;
  try_except
    (p ← getattr prov id;
     '(resp, elapsed) ← session_post net prov (health_request p);
     setattr prov (set_latency_ms elapsed);;
     setattr prov (set_healthy (status resp =? 200));;
     h ← getattr prov healthy;
     (if negb h
      then setattr prov
             (set_last_error (Some ("HTTP " +:+ pretty (status resp))))
      else mret tt);;
     getattr prov healthy)
    (λ e,
       setattr prov (set_healthy false);;
       setattr prov (set_last_error (Some (exc_str e)));;
       getattr prov name;;
       mret false).

(** The [try] block of [generate]'s loop. *)
Definition try_body (net : Network) (messages : list Message) (max_tokens : Z)
    (provider : loc) : M Config Result :=
  p ← getattr provider id;
  '(resp, elapsed) ← session_post net provider
                       (generate_request messages max_tokens p);
  if status resp =? 200 then
    setattr provider (set_latency_ms elapsed);;
    setattr provider (set_healthy true);;
    result ← lift (resp_json resp);
    pname ← getattr provider name;
    pmodel ← getattr provider model;
    content ← lift (completion_content result);
    latency ← getattr provider latency_ms;
    mret (Success pname pmodel content latency)
  else
    raise (Exception ("HTTP " +:+ pretty (status resp))).

(** The [except Exception as e] block of the loop, up to [attempts += 1]. *)
Definition except_body (provider : loc) (e : exn)
    (attempts max_attempts : Z) : M Config unit :=
  setattr provider (set_healthy false);;
  setattr provider (set_last_error (Some (exc_str e)));;
  getattr provider name;;
  if attempts <? max_attempts - 1
  then '(old, new) ← switch_to_next_provider; mret tt
  else mret tt.

(** One pass through the body of [while attempts < max_attempts]. *)
Definition attempt (net : Network) (messages : list Message) (max_tokens : Z)
    (attempts max_attempts : Z) : M Config (option Result) :=
  provider ← current_provider;
  try_except
    (r ← try_body net messages max_tokens provider; mret (Some r))
    (λ e, except_body provider e attempts max_attempts;; mret None).

Equations generate_loop (net : Network) (messages : list Message)
    (max_tokens max_attempts attempts : Z) (st : State Config)
    : option (res Result * State Config)
    by wf (Z.to_nat (max_attempts - attempts)) lt :=
generate_loop net messages max_tokens max_attempts attempts st
    with Z_lt_dec attempts max_attempts := {
  | right _ => Some (Ok (Failure "All providers failed" "NONE"), st)
  | left _ with attempt net messages max_tokens attempts max_attempts st := {
      | Some (Ok (Some r), st') => Some (Ok r, st')
      | Some (Ok None, st') =>
          generate_loop net messages max_tokens max_attempts (attempts + 1) st'
      | Some (Raise e, st') => Some (Raise e, st')
      | None => None } }.
Next Obligation. lia. Qed.

(** [LLMManager.generate]. *)
Definition generate (net : Network) (messages : list Message) (max_tokens : Z)
    : M Config Result :=
  λ st,
    generate_loop net messages max_tokens
      (Z.of_nat (length (providers (self st)))) 0 st.

(** How the [try] block reads a reply; a response with a status other than
    200 fails on its status alone. *)
Definition outcome (reply : Reply) : Outcome :=
  match reply with
  | Refused e => Failed e None
  | Answered r t =>
      if status r =? 200 then
        match resp_json r with
        | Ok result =>
            match completion_content result with
            | Ok content => Served content t
            | Raise e => Failed e (Some t)
            end
        | Raise e => Failed e (Some t)
        end
      else Failed (Exception ("HTTP " +:+ pretty (status r))) None
  end.

(** [post_init]: the manager is built, probed, and rotated when the probe
    fails. *)
Definition post_init (net : Network) (cfg : Config)
    : option (res unit * State Config) :=
  match __init__ cfg with
  | Some (Ok _, st) =>
      (is_healthy ← health_check net None;
       if (is_healthy : bool) then
         o ← current_provider;
         getattr o model;;
         mret tt
       else
         '(old, new) ← switch_to_next_provider;
         mret tt) st
  | other => other
  end.

(** The value [Config()] gives [TELEGRAM_ALLOWED_IDS] when the environment
    variable of that name holds [env] ([None] when it is not set): the
    pieces between commas, as they are. *)
Definition TELEGRAM_ALLOWED_IDS_factory (env : option string) : list string :=
  split "," (default "" env).

(** [is_authorized]. *)
Definition is_authorized (user_id : Z) (config : Config) : bool :=
  bool_decide (pretty user_id ∈ TELEGRAM_ALLOWED_IDS config).

(** [message_handler], for an update that carries a new text message. *)
Definition message_handler (tg : Telegram) (net : Network) (update : Update)
    (config : Config) : H Config unit :=
  if negb (is_authorized (effective_user_id update) config) then
    telegram tg (reply_text (JStr "⛔ Unauthorized access.") None)
  else
    let user_message := message_text update in
    incr_message_count;;
    b ← get_bot_state;
    match llm_manager b with
    | None => telegram tg (reply_text (JStr "❌ LLM Manager not initialized") None)
    | Some _ =>
        telegram tg (send_chat_action (effective_chat_id update) "typing");;
        result ← on_manager "generate" (generate net (user_messages user_message) 1024);
        if success result then
          response ← lift_H (result_content result);
          response ← (if negb (String.eqb (result_provider result) "LOCAL")
                      then
                        lift_H (iadd_str response
                                  (LF +:+ LF +:+ "_(via "
                                     +:+ result_provider result +:+ ")_"))
                      else mret response);
          telegram tg (reply_text response (Some "Markdown"))
        else
          incr_error_count;;
          telegram tg
            (reply_text
               (JStr ("❌ Failed to generate response. All LLM providers unavailable."
                        +:+ LF +:+ "Check /health for details."))
               None)
    end.

(** The lines [health_command] appends for one provider. *)
Definition report_entry (format_0f : float -> string) (is_healthy : bool)
    (provider : LLMProvider) : list string :=
  let status := if is_healthy then "🟢 Healthy" else "🔴 Unhealthy" in
  let latency :=
    if PrimFloat.ltb 0 (latency_ms provider)
    then format_0f (latency_ms provider) +:+ "ms"
    else "N/A" in
  (LF +:+ "*" +:+ name provider +:+ "*" +:+ LF
     +:+ "Status: " +:+ status +:+ LF
     +:+ "Model: `" +:+ model provider +:+ "`" +:+ LF
     +:+ "Latency: " +:+ latency)
  :: (if truthy_opt (last_error provider) && negb is_healthy
      then ["Error: `" +:+ str_slice_to 50 (default "" (last_error provider))
              +:+ "...`"]
      else []).

(** [health_command]. *)
Definition health_command (format_0f : float -> string) (tg : Telegram)
    (net : Network) (update : Update) (config : Config) : H Config unit :=
  if negb (is_authorized (effective_user_id update) config) then
    telegram tg (reply_text (JStr "⛔ Unauthorized access.") None)
  else
    b ← get_bot_state;
    match llm_manager b with
    | None => telegram tg (reply_text (JStr "❌ LLM Manager not initialized") None)
    | Some _ =>
        telegram tg (reply_text (JStr "🔍 Running health checks...") None);;
        lines ← on_manager "providers"
                  (s ← get_self;
                   for_each_provider (health_check net) (report_entry format_0f)
                     (providers s));
        telegram tg
          (reply_text
             (JStr (join LF (("🩺 *LLM Health Report*" +:+ LF
                                +:+ "━━━━━━━━━━━━━━━━━━━━━") :: lines)))
             (Some "Markdown"))
    end.

End Legacy.

(** * Sample managers and backends *)

Definition sample_config : Bot.Config :=
  Bot.mkConfig "123:abc" ["42"] "https://llm.example.net/v1" "" 60
    (Some "sk-test") 8080.

Definition sample_local_config : Bot.Config :=
  Bot.mkConfig "123:abc" ["42"] "https://llm.example.net/v1" "llama3" 60 None 8080.

Definition sample_legacy_config : Legacy.Config :=
  Legacy.mkConfig "123:abc" ["42"] "https://llm.example.net/v1" "llama3" 60
    (Some "sk-test") None.

(** A configuration without local endpoint. *)
Definition legacy_config_without_endpoint : Legacy.Config :=
  Legacy.mkConfig "123:abc" ["42"] "" "" 60 None None.

Definition built {Config : Type} (cfg : Config)
    (o : option (res unit * State Config)) : State Config :=
  match o with
  | Some (_, st) => st
  | None => mkState (mkLLMManager cfg [] 0) [] []
  end.

(** The managers [LLMManager(config)] builds. *)
Definition sample_state : State Bot.Config :=
  Eval vm_compute in built sample_config (Bot.__init__ sample_config).

Definition sample_local_state : State Bot.Config :=
  Eval vm_compute in built sample_local_config (Bot.__init__ sample_local_config).

Definition sample_legacy_state : State Legacy.Config :=
  Eval vm_compute in built sample_legacy_config (Legacy.__init__ sample_legacy_config).

(** A configuration with no backend at all, and the manager it gives. *)
Definition sample_empty_config : Bot.Config :=
  Bot.mkConfig "123:abc" ["42"] "" "" 60 None 8080.

Definition sample_empty_state : State Bot.Config :=
  Eval vm_compute in built sample_empty_config (Bot.__init__ sample_empty_config).

(** The older manager before [_setup_providers] ran: the only state in
    which its registry is empty. *)
Definition legacy_unbuilt_state : State Legacy.Config :=
  mkState (mkLLMManager sample_legacy_config [] 0) [] [].

(** The local provider of [sample_local_state] and of
    [sample_legacy_state], as constructed. *)
Definition sample_local : LLMProvider :=
  new_LLMProvider "LOCAL" "https://llm.example.net/v1" "llama3" None 60.

Definition sample_messages : list Message :=
  [[("role", "user"); ("content", "hi")]].

(** The body of an answer whose completion is [text]. *)
Definition completion (text : string) : json :=
  JDict [("id", JStr "chatcmpl-1");
         ("choices",
          JList [JDict [("index", JInt 0);
                        ("message",
                         JDict [("role", JStr "assistant");
                                ("content", JStr text)])]])].

Definition answer_200 (body : json) : Response :=
  mkResponse 200 (Ok body) (Ok "").

Definition connection_refused : exn :=
  PyExc "ClientConnectorError" "Cannot connect to host".

(** No backend is reachable. *)
Definition net_down : Network := λ _ _, Refused connection_refused.

(** Every backend answers [hello] in 12 ms. *)
Definition net_up : Network :=
  λ _ _, Answered (answer_200 (completion "hello")) 12%float.

(** The local backend is down, the others answer. *)
Definition net_local_down : Network :=
  λ _ req,
    if String.eqb (url req) "https://llm.example.net/v1/chat/completions"
    then Refused connection_refused
    else Answered (answer_200 (completion "hello")) 12%float.

(** The backend answers 200 with a completion whose content is empty. *)
Definition net_empty_content : Network :=
  λ _ _, Answered (answer_200 (completion "")) 7%float.

(** The backend answers 200 with a body that is not JSON. *)
Definition net_bad_body : Network :=
  λ _ _,
    Answered
      (mkResponse 200
         (Raise (PyExc "ContentTypeError" "Attempt to decode JSON with unexpected mimetype"))
         (Ok "<html>ok</html>")) 5%float.

(** The backend answers 503. *)
Definition net_unavailable : Network :=
  λ _ _,
    Answered
      (mkResponse 503 (Raise (PyExc "ContentTypeError" "unexpected mimetype"))
         (Ok "Service Unavailable")) 5%float.

(** The first request is refused, the later ones are answered. *)
Definition net_recovers : Network :=
  λ n _,
    match n with
    | O => Refused connection_refused
    | S _ => Answered (answer_200 (completion "hello")) 12%float
    end.

(** The backend answers 200 with a body that holds no completion. *)
Definition net_no_choices : Network :=
  λ _ _, Answered (answer_200 (JDict [("error", JStr "overloaded")])) 5%float.

(** Telegram accepts every call. *)
Definition tg_ok : Telegram := λ _ _, None.

(** Telegram refuses the replies sent as Markdown. *)
Definition tg_no_markdown : Telegram :=
  λ _ call,
    match call with
    | reply_text _ (Some _) => Some (PyExc "BadRequest" "Can't parse entities")
    | _ => None
    end.

(** A message of the allowed user, and one of a stranger. *)
Definition sample_update : Update := mkUpdate 42 42 "hi".

Definition sample_stranger : Update := mkUpdate 7 7 "hi".

(** The worlds right after construction of the sample managers. *)
Definition sample_world : World Bot.Config :=
  mkWorld (mkBotState 0 0 (Some sample_state)) [].

Definition sample_legacy_world : World Legacy.Config :=
  mkWorld (mkBotState 0 0 (Some sample_legacy_state)) [].

(** The sample managers after start-up, the local backend being down. *)
Definition sample_started : State Bot.Config :=
  Eval vm_compute in
    built sample_config (Bot.initial_health_check net_local_down sample_config).

Definition sample_legacy_started : State Legacy.Config :=
  Eval vm_compute in
    built sample_legacy_config (Legacy.post_init net_local_down sample_legacy_config).

(** The sample managers after a first message, the local backend being
    down. *)
Definition sample_served : State Bot.Config :=
  Eval vm_compute in
    match Bot.generate net_local_down (user_messages "hi") 1024 sample_state with
    | Some (_, st) => st
    | None => sample_state
    end.

Definition sample_legacy_served : State Legacy.Config :=
  Eval vm_compute in
    match Legacy.generate net_local_down (user_messages "hi") 1024
            sample_legacy_state with
    | Some (_, st) => st
    | None => sample_legacy_state
    end.

(** The sample managers after a call in which no backend was reachable:
    every provider holds the error of its refused request. *)
Definition sample_outage_state : State Bot.Config :=
  Eval vm_compute in
    match Bot.generate net_down sample_messages 1024 sample_state with
    | Some (_, st) => st
    | None => sample_state
    end.

Definition sample_legacy_outage_state : State Legacy.Config :=
  Eval vm_compute in
    match Legacy.generate net_down sample_messages 1024 sample_legacy_state with
    | Some (_, st) => st
    | None => sample_legacy_state
    end.

(** The sample managers after a first message, then a rotation, then a
    health check of the local provider that finds it up. *)
Definition sample_rotated : State Bot.Config :=
  Eval vm_compute in
    match Bot.switch_to_next_provider sample_served with
    | Some (_, st) => st
    | None => sample_served
    end.

Definition sample_probed : State Bot.Config :=
  Eval vm_compute in
    match Bot.health_check net_up (Some 0%nat) sample_rotated with
    | Some (_, st) => st
    | None => sample_rotated
    end.

Definition sample_legacy_rotated : State Legacy.Config :=
  Eval vm_compute in
    match Legacy.switch_to_next_provider sample_legacy_served with
    | Some (_, st) => st
    | None => sample_legacy_served
    end.

Definition sample_legacy_probed : State Legacy.Config :=
  Eval vm_compute in
    match Legacy.health_check net_up (Some 0%nat) sample_legacy_rotated with
    | Some (_, st) => st
    | None => sample_legacy_rotated
    end.

(** The backend answers 503 with a body of 210 characters of three bytes
    each. *)
Definition long_body : string := str_of_chars (replicate 210 "漢").

Definition net_long_body : Network :=
  λ _ _,
    Answered
      (mkResponse 503 (Raise (PyExc "ContentTypeError" "unexpected mimetype"))
         (Ok long_body)) 5%float.

(** [TELEGRAM_ALLOWED_IDS] holding [42], an em space (U+2003), a comma and
    [7], and the configurations read from it. *)
Definition EM_SPACE : string :=
  String "226" (String "128" (String "131" EmptyString)).

Definition spaced_ids : string := "42" +:+ EM_SPACE +:+ ",7".

Definition spaced_config : Bot.Config :=
  Bot.mkConfig "123:abc" (Bot.TELEGRAM_ALLOWED_IDS_factory (Some spaced_ids))
    "https://llm.example.net/v1" "" 60 (Some "sk-test") 8080.

Definition spaced_legacy_config : Legacy.Config :=
  Legacy.mkConfig "123:abc" (Legacy.TELEGRAM_ALLOWED_IDS_factory (Some spaced_ids))
    "https://llm.example.net/v1" "llama3" 60 (Some "sk-test") None.

(** * Properties *)

(** ** Running the monad, one statement at a time *)

Lemma py_index_nonneg {A} (l : list A) (i : Z) :
  0 ≤ i → py_index l i = l !! Z.to_nat i.
Proof. intros Hi. unfold py_index. destruct (Z.leb_spec 0 i); [done | lia]. Qed.

Section References.
Context {Config : Type}.
Implicit Types st : State Config.

Lemma current_ref_live st l :
  refs_live st → current_ref st = Some l → is_Some (heap st !! l).
Proof.
  intros Hlive Hl. apply lookup_lt_is_Some.
  unfold refs_live in Hlive. rewrite Forall_forall in Hlive.
  apply Hlive. eapply list_elem_of_lookup_2. exact Hl.
Qed.

Lemma index_valid_current st :
  index_valid st → is_Some (current_ref st).
Proof.
  intros [H0 Hn]. apply lookup_lt_is_Some. unfold registry_size in Hn. lia.
Qed.
End References.

Lemma Bot_current_provider_exec (st : State Bot.Config) l :
  0 ≤ current_provider_index (self st) → current_ref st = Some l →
  Bot.current_provider st = Some (Ok (Some l), st).
Proof.
  intros Hi Hl. unfold Bot.current_provider, current_ref in *.
  unfold mbind, M_bind, get_self. simpl.
  rewrite py_index_nonneg by done. rewrite Hl.
  destruct (providers (self st)); [done|]. done.
Qed.


Section Steps.
Context {Config : Type}.
Implicit Types st : State Config.

Lemma bind_ok {A B} (m : M Config A) (k : A → M Config B) st a st' :
  m st = Some (Ok a, st') → (m ≫= k) st = k a st'.
Proof. intros H. unfold mbind, M_bind. by rewrite H. Qed.

Lemma bind_raise {A B} (m : M Config A) (k : A → M Config B) st e st' :
  m st = Some (Raise e, st') → (m ≫= k) st = Some (Raise e, st').
Proof. intros H. unfold mbind, M_bind. by rewrite H. Qed.

Lemma getattr_live {A} (f : LLMProvider → A) l p st :
  heap st !! l = Some p → getattr l f st = Some (Ok (f p), st).
Proof. intros H. unfold getattr. by rewrite H. Qed.

Lemma setattr_live u l p st :
  heap st !! l = Some p → setattr l u st = Some (Ok tt, with_object l (u p) st).
Proof. intros H. unfold setattr. by rewrite H. Qed.

Lemma session_post_refused net l req st e :
  net (length (sent st)) req = Refused e →
  session_post net l req st = Some (Raise e, with_request l req st).
Proof. intros H. unfold session_post. by rewrite H. Qed.

Lemma session_post_answered net l req st r t :
  net (length (sent st)) req = Answered r t →
  session_post net l req st = Some (Ok (r, t), with_request l req st).
Proof. intros H. unfold session_post. by rewrite H. Qed.

Lemma heap_with_object l p q st :
  heap st !! l = Some p → heap (with_object l q st) !! l = Some q.
Proof.
  intros H. simpl. apply list_lookup_insert_eq. by eapply lookup_lt_Some.
Qed.

Lemma with_object_twice l p q st :
  with_object l q (with_object l p st) = with_object l q st.
Proof. unfold with_object. simpl. by rewrite list_insert_insert_eq. Qed.
End Steps.


Section WellFormed.
Context {Config : Type}.
Implicit Types st : State Config.

Lemma next_index_bounds st : 0 < registry_size st → 0 ≤ next_index st < registry_size st.
Proof. intros Hn. unfold next_index. by apply Z.mod_pos_bound. Qed.

Lemma with_index_well_formed i st :
  refs_live st → 0 ≤ i < registry_size st → well_formed (with_index i st).
Proof. intros Hlive Hi. split; [exact Hi | exact Hlive]. Qed.

Lemma with_object_well_formed l p st :
  well_formed st → well_formed (with_object l p st).
Proof.
  intros [Hi Hlive]. split; [exact Hi |].
  unfold refs_live, with_object. simpl. by rewrite length_insert.
Qed.

Lemma with_request_well_formed l req st :
  well_formed st → well_formed (with_request l req st).
Proof. intros [Hi Hlive]. by split. Qed.

Lemma well_formed_current st :
  well_formed st → ∃ l p, current_ref st = Some l ∧ heap st !! l = Some p.
Proof.
  intros [Hidx Hlive].
  destruct (index_valid_current st Hidx) as [l Hl].
  destruct (current_ref_live st l Hlive Hl) as [p Hp]. eauto.
Qed.
End WellFormed.

Lemma py_mod_ok a b : b ≠ 0 → py_mod a b = Ok (a `mod` b).
Proof. intros Hb. unfold py_mod. by destruct (Z.eqb_spec b 0). Qed.

Lemma Bot_switch_exec (st : State Bot.Config) :
  well_formed st →
  Bot.switch_to_next_provider st =
    Some (Ok tt, if registry_size st <=? 1 then st else with_index (next_index st) st).
Proof.
  intros Hwf. pose proof Hwf as [Hidx Hlive].
  unfold Bot.switch_to_next_provider. erewrite bind_ok by reflexivity.
  fold (registry_size st).
  destruct (Z.leb_spec (registry_size st) 1) as [Hn|Hn]; [done|].
  destruct (well_formed_current st Hwf) as (l & p & Hl & Hp).
  erewrite bind_ok by (apply Bot_current_provider_exec; [apply Hidx | exact Hl]).
  simpl. erewrite bind_ok by reflexivity.
  erewrite bind_ok by (eapply getattr_live; exact Hp).
  unfold lift. erewrite bind_ok by (rewrite py_mod_ok by lia; reflexivity).
  fold (next_index st).
  erewrite bind_ok by reflexivity.
  fold (with_index (next_index st) st).
  assert (Hwf' : well_formed (with_index (next_index st) st)).
  { apply with_index_well_formed; [done|]. apply next_index_bounds. lia. }
  destruct (well_formed_current _ Hwf') as (l' & p' & Hl' & Hp').
  erewrite bind_ok by (apply Bot_current_provider_exec; [apply Hwf' | exact Hl']).
  simpl. erewrite bind_ok by reflexivity.
  erewrite bind_ok by (eapply getattr_live; exact Hp').
  reflexivity.
Qed.


(** ** [src/bot.py]: what each block evaluates to *)

Lemma insert_lookup_live {A} (h : list A) l p q :
  h !! l = Some p → <[l := q]> h !! l = Some q.
Proof. intros H. apply list_lookup_insert_eq. by eapply lookup_lt_Some. Qed.

Ltac live :=
  cbn [heap with_object with_request with_index];
  first [ eassumption | eapply insert_lookup_live; live ].

Ltac mstep :=
  erewrite bind_ok by
    first [ reflexivity
          | eapply getattr_live; live
          | eapply setattr_live; live ].

Lemma Bot_try_body_exec net messages max_tokens (st : State Bot.Config) l p :
  heap st !! l = Some p →
  Bot.try_body net messages max_tokens (Some l) st =
    Some (match Bot.outcome (net (length (sent st))
                               (generate_request messages max_tokens p)) with
          | Served content t =>
              (Ok (Success (name p) (model p) content t),
               served_state l p (generate_request messages max_tokens p) t st)
          | Failed e measured =>
              (Raise e,
               tried_state l p (generate_request messages max_tokens p) measured st)
          end).
Proof.
  intros Hp. unfold Bot.try_body.
  cbn [object_of]. mstep. mstep. cbn [id].
  unfold Bot.outcome.
  destruct (net _ _) as [e | r t] eqn:Hnet.
  - erewrite bind_raise by (by apply session_post_refused). reflexivity.
  - erewrite bind_ok by (by apply session_post_answered).
    cbn beta iota.
    destruct (status r =? 200) eqn:Hs.
    + mstep. mstep. rewrite with_object_twice. unfold lift.
      destruct (resp_json r) as [result | e].
      * mstep. mstep. mstep.
        destruct (completion_content result) as [content | e].
        -- mstep. mstep. reflexivity.
        -- erewrite bind_raise by reflexivity. reflexivity.
      * erewrite bind_raise by reflexivity. reflexivity.
    + unfold lift. destruct (resp_text r) as [body | e].
      * mstep. reflexivity.
      * erewrite bind_raise by reflexivity. reflexivity.
Qed.

Lemma Bot_except_body_exec (st : State Bot.Config) l q e attempts max_attempts :
  0 ≤ attempts → max_attempts = registry_size st →
  well_formed st → heap st !! l = Some q →
  Bot.except_body (Some l) e attempts max_attempts st =
    Some (Ok tt,
          let st1 := with_object l
                       (set_last_error (Some (exc_str e)) (set_healthy false q)) st in
          if attempts <? max_attempts - 1
          then with_index (next_index st) st1 else st1).
Proof.
  intros Ha -> Hwf Hq. unfold Bot.except_body.
  cbn [object_of]. mstep. mstep. mstep. rewrite with_object_twice. mstep.
  cbn zeta.
  destruct (Z.ltb_spec attempts (registry_size st - 1)) as [Hlt|Hge]; [|done].
  rewrite Bot_switch_exec by (by apply with_object_well_formed).
  change (registry_size (with_object _ _ st)) with (registry_size st).
  destruct (Z.leb_spec (registry_size st) 1); [lia | done].
Qed.

Lemma Bot_attempt_exec net messages max_tokens attempts max_attempts
    (st : State Bot.Config) l p :
  0 ≤ attempts → max_attempts = registry_size st →
  well_formed st → current_ref st = Some l → heap st !! l = Some p →
  Bot.attempt net messages max_tokens attempts max_attempts st =
    Some (match Bot.outcome (net (length (sent st))
                               (generate_request messages max_tokens p)) with
          | Served content t =>
              (Ok (Some (Success (name p) (model p) content t)),
               served_state l p (generate_request messages max_tokens p) t st)
          | Failed e measured =>
              (Ok None,
               failed_state l p (generate_request messages max_tokens p) e
                 measured attempts max_attempts st)
          end).
Proof.
  intros Ha Hn Hwf Hl Hp. unfold Bot.attempt.
  erewrite bind_ok by (apply Bot_current_provider_exec; [apply Hwf | exact Hl]).
  unfold try_except.
  pose proof (Bot_try_body_exec net messages max_tokens st l p Hp) as Htry.
  destruct (Bot.outcome _) as [content t | e measured].
  - erewrite bind_ok by exact Htry. reflexivity.
  - erewrite bind_raise by exact Htry.
    set (req := generate_request messages max_tokens p) in *.
    assert (Hwf1 : well_formed (tried_state l p req measured st)).
    { destruct measured; cbn [tried_state];
        auto using with_object_well_formed, with_request_well_formed. }
    destruct measured as [t|]; cbn [tried_state] in *.
    + erewrite bind_ok by (apply Bot_except_body_exec; [done | done | done | live]).
      cbn zeta. rewrite with_object_twice. reflexivity.
    + erewrite bind_ok by (apply Bot_except_body_exec; [done | done | done | live]).
      reflexivity.
Qed.

Lemma Bot_generate_loop_unfold net messages max_tokens max_attempts attempts
    (st : State Bot.Config) :
  Bot.generate_loop net messages max_tokens max_attempts attempts st =
    if decide (attempts < max_attempts) then
      match Bot.attempt net messages max_tokens attempts max_attempts st with
      | Some (Ok (Some r), st') => Some (Ok r, st')
      | Some (Ok None, st') =>
          Bot.generate_loop net messages max_tokens max_attempts (attempts + 1) st'
      | Some (Raise e, st') => Some (Raise e, st')
      | None => None
      end
    else Some (Ok (Failure "All providers failed" "NONE"), st).
Proof.
  simp generate_loop.
  destruct (Z_lt_dec attempts max_attempts) as [Hlt|Hge]; cbn.
  - rewrite decide_True by done.
    destruct (Bot.attempt _ _ _ _ _ _) as [[[[r|]|e] st']|]; reflexivity.
  - rewrite decide_False by done. reflexivity.
Qed.

Section FailedState.
Context {Config : Type}.
Implicit Types st : State Config.

Lemma failed_state_well_formed l p req e measured attempts max_attempts st :
  0 ≤ attempts → max_attempts = registry_size st → well_formed st →
  well_formed (failed_state l p req e measured attempts max_attempts st).
Proof.
  intros Ha -> Hwf. unfold failed_state.
  assert (well_formed (with_object l (failed_provider p e measured)
                         (with_request l req st))) as Hwf1
    by auto using with_object_well_formed, with_request_well_formed.
  destruct (Z.ltb_spec attempts (registry_size st - 1)); [|done].
  apply with_index_well_formed; [apply Hwf1|].
  change (0 ≤ next_index st < registry_size st).
  apply next_index_bounds. lia.
Qed.

Lemma failed_state_registry l p req e measured attempts max_attempts st :
  providers (self (failed_state l p req e measured attempts max_attempts st))
    = providers (self st).
Proof. unfold failed_state. by destruct (_ <? _). Qed.

Lemma failed_state_size l p req e measured attempts max_attempts st :
  registry_size (failed_state l p req e measured attempts max_attempts st)
    = registry_size st.
Proof. unfold registry_size. by rewrite failed_state_registry. Qed.
End FailedState.

Lemma Bot_generate_loop_runs net messages max_tokens max_attempts (k : nat) :
  ∀ attempts (st : State Bot.Config),
    Z.to_nat (max_attempts - attempts) = k → 0 ≤ attempts →
    max_attempts = registry_size st → well_formed st →
    ∃ r st',
      Bot.generate_loop net messages max_tokens max_attempts attempts st
        = Some (Ok r, st')
      ∧ runs Bot.outcome net messages max_tokens max_attempts attempts st r st'.
Proof.
  induction k as [|k IH]; intros attempts st Hk Ha Hn Hwf;
    rewrite Bot_generate_loop_unfold; case_decide; try lia.
  - eexists _, _. split; [reflexivity|]. constructor. lia.
  - destruct (well_formed_current st Hwf) as (l & p & Hl & Hp).
    rewrite (Bot_attempt_exec _ _ _ _ _ _ l p) by done.
    destruct (Bot.outcome _) as [content t | e measured] eqn:Hout.
    + eexists _, _. split; [reflexivity|]. by apply runs_served.
    + edestruct (IH (attempts + 1)) as (r & st' & Hloop & Hruns);
        [ | | | eapply failed_state_well_formed; [exact Ha | exact Hn | exact Hwf] | ].
      * lia.
      * lia.
      * by rewrite failed_state_size.
      * exists r, st'. split; [exact Hloop|]. eapply runs_failed; eauto.
Qed.

(** ** Rotations of the registry *)

Section Rotation.
Context {A : Type}.
Implicit Types l : list A.

Lemma rotate_lookup_0 l i x :
  l !! i = Some x → rotate i l !! 0%nat = Some x.
Proof.
  intros Hx. pose proof (lookup_lt_Some _ _ _ Hx) as Hlt.
  rewrite lookup_rotate_r by lia. by rewrite rotate_nat_add_0.
Qed.

Lemma rotate_lookup_S l i j :
  (S j < length l)%nat → rotate i l !! S j = rotate (S i) l !! j.
Proof.
  intros Hj. rewrite !lookup_rotate_r by lia. f_equal.
  unfold rotate_nat_add. f_equal. f_equal. lia.
Qed.

Lemma take_rotate_S l i k x :
  l !! i = Some x → (k < length l)%nat →
  take (S k) (rotate i l) = x :: take k (rotate (S i) l).
Proof.
  intros Hx Hk. apply list_eq. intros [|j].
  - rewrite lookup_take_lt by lia. cbn. by apply rotate_lookup_0.
  - change ((x :: take k (rotate (S i) l)) !! S j)
      with (take k (rotate (S i) l) !! j).
    destruct (decide (j < k)%nat) as [Hlt|Hge].
    + rewrite !lookup_take_lt by lia. apply rotate_lookup_S. lia.
    + rewrite !lookup_take_ge by lia. done.
Qed.

Lemma rotate_mod_index l (i : Z) :
  0 ≤ i → l ≠ [] →
  rotate (Z.to_nat ((i + 1) `mod` Z.of_nat (length l))) l = rotate (S (Z.to_nat i)) l.
Proof.
  intros Hi Hl. assert (0 < length l)%nat by (destruct l; [done | cbn; lia]).
  unfold rotate. 
  assert (Z.to_nat ((i + 1) `mod` Z.of_nat (length l)) `mod` length l
          = S (Z.to_nat i) `mod` length l)%nat as ->; [|done].
  apply Nat2Z.inj. rewrite !Nat2Z.inj_mod, !Z2Nat.id.
  - rewrite Z.mod_mod by lia. f_equal. lia.
  - apply Z.mod_pos_bound. lia.
Qed.
End Rotation.

Lemma generate_request_backend messages max_tokens p q :
  backend p = backend q →
  generate_request messages max_tokens p = generate_request messages max_tokens q.
Proof.
  unfold backend, generate_request. intros [= Hn Hb Hm Hk Ht].
  by rewrite Hb, Hm, Hk, Ht.
Qed.

Lemma backend_lookup (h1 h0 : list LLMProvider) l p1 :
  backend <$> h1 = backend <$> h0 → h1 !! l = Some p1 →
  ∃ p0, h0 !! l = Some p0 ∧ backend p0 = backend p1.
Proof.
  intros Hb Hl.
  assert ((backend <$> h0) !! l = Some (backend p1)) as H0
    by (by rewrite <- Hb, list_lookup_fmap, Hl).
  rewrite list_lookup_fmap in H0.
  destruct (h0 !! l) as [p0|]; [|done]. exists p0. split; [done|].
  cbn in H0. congruence.
Qed.

Lemma backend_insert (h : list LLMProvider) l p q :
  h !! l = Some p → backend q = backend p →
  backend <$> <[l := q]> h = backend <$> h.
Proof.
  intros Hl Hb. rewrite list_fmap_insert, Hb.
  apply list_insert_id. by rewrite list_lookup_fmap, Hl.
Qed.

(** ** What a run of the loop did *)

Section Runs.
Context {Config : Type}.
Implicit Types st : State Config.
Variable outcome : Reply → Outcome.
Variable net : Network.
Variable messages : list Message.
Variable max_tokens : Z.

Lemma index_valid_mod st :
  index_valid st →
  current_provider_index (self st)
    = (current_provider_index (self st) + 0) `mod` registry_size st.
Proof. intros Hi. rewrite Z.add_0_r, Z.mod_small; [done | exact Hi]. Qed.

Lemma current_ref_rotate st l :
  current_ref st = Some l →
  [l] = take 1 (rotate (Z.to_nat (current_provider_index (self st)))
                  (providers (self st))).
Proof.
  intros Hl. erewrite take_rotate_S; [by rewrite take_0 | exact Hl |].
  apply lookup_lt_Some in Hl. lia.
Qed.

Lemma runs_fallback max_attempts attempts st r st' :
  runs outcome net messages max_tokens max_attempts attempts st r st' →
  0 ≤ attempts → max_attempts = registry_size st → well_formed st →
  ∃ new, fallback outcome net messages max_tokens attempts st r st' new.
Proof.
  induction 1 as [a st Hge | a st l p content t Hlt Hl Hp Hout
                 | a st l p e measured r st' Hlt Hl Hp Hout Hruns IH];
    intros Ha Hn Hwf; subst max_attempts.
  - exists []. split.
    + by rewrite app_nil_r.
    + cbn. lia.
    + lia.
    + done.
    + done.
    + done.
    + done.
    + intros _. split; [done | cbn; lia].
    + cbn. apply index_valid_mod, Hwf.
    + done.
    + done.
    + done.
  - set (req := generate_request messages max_tokens p) in *.
    exists [(l, req)]. split.
    + done.
    + cbn. lia.
    + done.
    + cbn. by apply current_ref_rotate.
    + intros [|j] l' req' Hj; [|done]. injection Hj as <- <-. eauto.
    + intros [|j] l' req' Hj; [|done]. injection Hj as <- <-.
      rewrite Nat.add_0_r, Hout. done.
    + intros pn pm c t' [= <- <- <- <-].
      exists l, req, p, (set_healthy true (set_latency_ms t p)).
      cbn. rewrite Nat.add_0_r. split_and!; try done.
      by eapply insert_lookup_live.
    + done.
    + cbn. apply index_valid_mod, Hwf.
    + done.
    + done.
    + cbn. by eapply backend_insert.
  - set (req := generate_request messages max_tokens p) in *.
    set (st1 := failed_state l p req e measured a (registry_size st) st) in *.
    assert (Hsize : registry_size st1 = registry_size st)
      by apply failed_state_size.
    assert (Hprov : providers (self st1) = providers (self st))
      by apply failed_state_registry.
    assert (Hcfg : config (self st1) = config (self st))
      by (unfold st1, failed_state; by destruct (_ <? _)).
    assert (Hsent : sent st1 = sent st ++ [(l, req)])
      by (unfold st1, failed_state; by destruct (_ <? _)).
    assert (Hheap : heap st1 = <[l := failed_provider p e measured]> (heap st))
      by (unfold st1, failed_state; by destruct (_ <? _)).
    assert (Hback : backend <$> heap st1 = backend <$> heap st).
    { rewrite Hheap. eapply backend_insert; [exact Hp|]. by destruct measured. }
    assert (Hidx : current_provider_index (self st1)
                   = if a <? registry_size st - 1 then next_index st
                     else current_provider_index (self st))
      by (unfold st1, failed_state; by destruct (_ <? _)).
    assert (Hlen : length (sent st1) = S (length (sent st)))
      by (rewrite Hsent, length_app; cbn; lia).
    pose proof Hwf as [Hvalid _].
    assert (Hne : providers (self st) ≠ [])
      by (intros Hnil; unfold current_ref in Hl; by rewrite Hnil in Hl).
    destruct IH as [new' IH].
    { lia. }
    { by rewrite Hsize. }
    { by apply failed_state_well_formed. }
    destruct IH as [Ilog Imost Ileast Iorder Ireq Iserved Isucc Ifail Iindex
                      Ireg Icfg Iheap].
    rewrite Hsize in *.
    assert (Hempty : new' = [] → success r = false).
    { intros ->. destruct r as [pn pm c t|]; [|done].
      destruct (Isucc _ _ _ _ eq_refl) as (? & ? & ? & ? & Hlast & _). done. }
    exists ((l, req) :: new'). split.
    + rewrite Ilog, Hsent, <- app_assoc. done.
    + cbn [length]. lia.
    + done.
    + cbn [fmap list_fmap length fst]. rewrite Iorder, Hprov, Hidx.
      destruct new' as [|x new'']; cbn [length].
      { rewrite take_0. by apply current_ref_rotate. }
      cbn [length] in Imost.
      destruct (Z.ltb_spec a (registry_size st - 1)); [|lia].
      unfold next_index, registry_size.
      rewrite rotate_mod_index by (done || apply Hvalid).
      symmetry. apply take_rotate_S; [exact Hl|].
      unfold registry_size in *. lia.
    + intros [|j] l' req' Hj.
      * injection Hj as <- <-. eauto.
      * destruct (Ireq j l' req' Hj) as (p1 & Hp1 & ->).
        destruct (backend_lookup _ _ _ _ Hback Hp1) as (p0 & Hp0 & Hb).
        exists p0. split; [done|]. by apply generate_request_backend.
    + intros [|j] l' req' Hj.
      * injection Hj as <- <-. rewrite Nat.add_0_r. fold req. rewrite Hout.
        cbn [is_served length]. symmetry. apply andb_false_iff.
        destruct new' as [|x new'']; [left; by apply Hempty|].
        right. by apply bool_decide_eq_false_2.
      * specialize (Iserved j l' req' Hj). rewrite Hlen in Iserved.
        replace (length (sent st) + S j)%nat with (S (length (sent st)) + j)%nat by lia.
        rewrite Iserved. cbn [length]. f_equal.
        apply bool_decide_ext. lia.
    + intros pn pm c t Hr.
      destruct (Isucc _ _ _ _ Hr) as (l' & req' & p1 & p' & Hlast & Hp1 & -> & -> & Hserved & Hp' & Hlat & Hhealthy).
      destruct (backend_lookup _ _ _ _ Hback Hp1) as (p0 & Hp0 & Hb).
      exists l', req', p0, p'.
      assert (new' ≠ []) as Hnn by (intros ->; done).
      split_and!; try done.
      * destruct new'; [done|]. by rewrite last_cons_cons.
      * unfold backend in Hb. congruence.
      * unfold backend in Hb. congruence.
      * rewrite Hlen in Hserved. rewrite <- Hserved. f_equal. f_equal.
        cbn [length]. destruct new'; [done|]. cbn [length]. lia.
    + intros Hr. destruct (Ifail Hr) as [-> Hall]. split; [done|].
      cbn [length]. lia.
    + rewrite Iindex, Hidx. cbn [length].
      destruct new' as [|x new'']; cbn [length] in *.
      * destruct (Z.ltb_spec a (registry_size st - 1)).
        -- exfalso. apply Ileast; [lia | done].
        -- replace (1 - 1)%nat with 0%nat by lia. done.
      * destruct (Z.ltb_spec a (registry_size st - 1)); [|lia].
        unfold next_index. rewrite Zplus_mod_idemp_l. f_equal. lia.
    + congruence.
    + congruence.
    + congruence.
Qed.
End Runs.

Lemma Bot_generate_fallback net messages max_tokens (st : State Bot.Config) :
  well_formed st →
  ∃ r st' new,
    Bot.generate net messages max_tokens st = Some (Ok r, st')
    ∧ fallback Bot.outcome net messages max_tokens 0 st r st' new.
Proof.
  intros Hwf. unfold Bot.generate.
  destruct (providers (self st)) as [|l0 ps] eqn:Hps.
  { destruct Hwf as [[H0 Hn] _]. unfold registry_size in Hn. rewrite Hps in Hn.
    cbn in Hn. lia. }
  rewrite <- Hps. fold (registry_size st).
  destruct (Bot_generate_loop_runs net messages max_tokens (registry_size st)
              _ 0 st eq_refl) as (r & st' & Hloop & Hruns); [lia | done | done |].
  destruct (runs_fallback _ _ _ _ _ _ _ _ _ Hruns) as [new Hfb]; [lia | done | done |].
  eauto.
Qed.

(** ** [src/clawdbot/bot.py]: what each block evaluates to *)

Lemma Legacy_current_provider_exec (st : State Legacy.Config) l :
  0 ≤ current_provider_index (self st) → current_ref st = Some l →
  Legacy.current_provider st = Some (Ok l, st).
Proof.
  intros Hi Hl. unfold Legacy.current_provider, current_ref in *.
  erewrite bind_ok by reflexivity.
  rewrite py_index_nonneg by done. by rewrite Hl.
Qed.

Lemma Legacy_switch_exec (st : State Legacy.Config) :
  well_formed st →
  ∃ names,
    Legacy.switch_to_next_provider st
      = Some (Ok names, with_index (next_index st) st).
Proof.
  intros Hwf. pose proof Hwf as [Hidx Hlive].
  unfold Legacy.switch_to_next_provider.
  destruct (well_formed_current st Hwf) as (l & p & Hl & Hp).
  erewrite bind_ok by (apply Legacy_current_provider_exec; [apply Hidx | exact Hl]).
  mstep. mstep. fold (registry_size st).
  unfold lift. erewrite bind_ok by (rewrite py_mod_ok by (destruct Hidx; lia); reflexivity).
  fold (next_index st).
  erewrite bind_ok by reflexivity.
  fold (with_index (next_index st) st).
  assert (Hwf' : well_formed (with_index (next_index st) st)).
  { apply with_index_well_formed; [done|]. apply next_index_bounds.
    destruct Hidx; lia. }
  destruct (well_formed_current _ Hwf') as (l' & p' & Hl' & Hp').
  erewrite bind_ok by (apply Legacy_current_provider_exec; [apply Hwf' | exact Hl']).
  erewrite bind_ok by (eapply getattr_live; exact Hp').
  eexists. reflexivity.
Qed.

Lemma Legacy_try_body_exec net messages max_tokens (st : State Legacy.Config) l p :
  heap st !! l = Some p →
  Legacy.try_body net messages max_tokens l st =
    Some (match Legacy.outcome (net (length (sent st))
                                  (generate_request messages max_tokens p)) with
          | Served content t =>
              (Ok (Success (name p) (model p) content t),
               served_state l p (generate_request messages max_tokens p) t st)
          | Failed e measured =>
              (Raise e,
               tried_state l p (generate_request messages max_tokens p) measured st)
          end).
Proof.
  intros Hp. unfold Legacy.try_body.
  mstep. cbn [id].
  unfold Legacy.outcome.
  destruct (net _ _) as [e | r t] eqn:Hnet.
  - erewrite bind_raise by (by apply session_post_refused). reflexivity.
  - erewrite bind_ok by (by apply session_post_answered).
    cbn beta iota.
    destruct (status r =? 200) eqn:Hs.
    + mstep. mstep. rewrite with_object_twice. unfold lift.
      destruct (resp_json r) as [result | e].
      * mstep. mstep. mstep.
        destruct (completion_content result) as [content | e].
        -- mstep. mstep. reflexivity.
        -- erewrite bind_raise by reflexivity. reflexivity.
      * erewrite bind_raise by reflexivity. reflexivity.
    + reflexivity.
Qed.

Lemma Legacy_except_body_exec (st : State Legacy.Config) l q e attempts max_attempts :
  0 ≤ attempts → max_attempts = registry_size st →
  well_formed st → heap st !! l = Some q →
  Legacy.except_body l e attempts max_attempts st =
    Some (Ok tt,
          let st1 := with_object l
                       (set_last_error (Some (exc_str e)) (set_healthy false q)) st in
          if attempts <? max_attempts - 1
          then with_index (next_index st) st1 else st1).
Proof.
  intros Ha -> Hwf Hq. unfold Legacy.except_body.
  mstep. mstep. rewrite with_object_twice. mstep.
  cbn zeta.
  destruct (Z.ltb_spec attempts (registry_size st - 1)) as [Hlt|Hge]; [|done].
  edestruct Legacy_switch_exec as [[old new] Hsw];
    [ | erewrite bind_ok by exact Hsw ].
  { apply with_object_well_formed. exact Hwf. }
  reflexivity.
Qed.

Lemma Legacy_attempt_exec net messages max_tokens attempts max_attempts
    (st : State Legacy.Config) l p :
  0 ≤ attempts → max_attempts = registry_size st →
  well_formed st → current_ref st = Some l → heap st !! l = Some p →
  Legacy.attempt net messages max_tokens attempts max_attempts st =
    Some (match Legacy.outcome (net (length (sent st))
                                  (generate_request messages max_tokens p)) with
          | Served content t =>
              (Ok (Some (Success (name p) (model p) content t)),
               served_state l p (generate_request messages max_tokens p) t st)
          | Failed e measured =>
              (Ok None,
               failed_state l p (generate_request messages max_tokens p) e
                 measured attempts max_attempts st)
          end).
Proof.
  intros Ha Hn Hwf Hl Hp. unfold Legacy.attempt.
  erewrite bind_ok by (apply Legacy_current_provider_exec; [apply Hwf | exact Hl]).
  unfold try_except.
  pose proof (Legacy_try_body_exec net messages max_tokens st l p Hp) as Htry.
  destruct (Legacy.outcome _) as [content t | e measured].
  - erewrite bind_ok by exact Htry. reflexivity.
  - erewrite bind_raise by exact Htry.
    set (req := generate_request messages max_tokens p) in *.
    assert (Hwf1 : well_formed (tried_state l p req measured st)).
    { destruct measured; cbn [tried_state];
        auto using with_object_well_formed, with_request_well_formed. }
    destruct measured as [t|]; cbn [tried_state] in *.
    + erewrite bind_ok by (apply Legacy_except_body_exec; [done | done | done | live]).
      cbn zeta. rewrite with_object_twice. reflexivity.
    + erewrite bind_ok by (apply Legacy_except_body_exec; [done | done | done | live]).
      reflexivity.
Qed.

Lemma Legacy_generate_loop_unfold net messages max_tokens max_attempts attempts
    (st : State Legacy.Config) :
  Legacy.generate_loop net messages max_tokens max_attempts attempts st =
    if decide (attempts < max_attempts) then
      match Legacy.attempt net messages max_tokens attempts max_attempts st with
      | Some (Ok (Some r), st') => Some (Ok r, st')
      | Some (Ok None, st') =>
          Legacy.generate_loop net messages max_tokens max_attempts (attempts + 1) st'
      | Some (Raise e, st') => Some (Raise e, st')
      | None => None
      end
    else Some (Ok (Failure "All providers failed" "NONE"), st).
Proof.
  simp generate_loop.
  destruct (Z_lt_dec attempts max_attempts) as [Hlt|Hge]; cbn.
  - rewrite decide_True by done.
    destruct (Legacy.attempt _ _ _ _ _ _) as [[[[r|]|e] st']|]; reflexivity.
  - rewrite decide_False by done. reflexivity.
Qed.

Lemma Legacy_generate_loop_runs net messages max_tokens max_attempts (k : nat) :
  ∀ attempts (st : State Legacy.Config),
    Z.to_nat (max_attempts - attempts) = k → 0 ≤ attempts →
    max_attempts = registry_size st → well_formed st →
    ∃ r st',
      Legacy.generate_loop net messages max_tokens max_attempts attempts st
        = Some (Ok r, st')
      ∧ runs Legacy.outcome net messages max_tokens max_attempts attempts st r st'.
Proof.
  induction k as [|k IH]; intros attempts st Hk Ha Hn Hwf;
    rewrite Legacy_generate_loop_unfold; case_decide; try lia.
  - eexists _, _. split; [reflexivity|]. constructor. lia.
  - destruct (well_formed_current st Hwf) as (l & p & Hl & Hp).
    rewrite (Legacy_attempt_exec _ _ _ _ _ _ l p) by done.
    destruct (Legacy.outcome _) as [content t | e measured] eqn:Hout.
    + eexists _, _. split; [reflexivity|]. by apply runs_served.
    + edestruct (IH (attempts + 1)) as (r & st' & Hloop & Hruns);
        [ | | | eapply failed_state_well_formed; [exact Ha | exact Hn | exact Hwf] | ].
      * lia.
      * lia.
      * by rewrite failed_state_size.
      * exists r, st'. split; [exact Hloop|]. eapply runs_failed; eauto.
Qed.

Lemma Legacy_generate_fallback net messages max_tokens (st : State Legacy.Config) :
  well_formed st →
  ∃ r st' new,
    Legacy.generate net messages max_tokens st = Some (Ok r, st')
    ∧ fallback Legacy.outcome net messages max_tokens 0 st r st' new.
Proof.
  intros Hwf. unfold Legacy.generate. fold (registry_size st).
  destruct (Legacy_generate_loop_runs net messages max_tokens (registry_size st)
              _ 0 st eq_refl) as (r & st' & Hloop & Hruns); [lia | done | done |].
  destruct (runs_fallback _ _ _ _ _ _ _ _ _ Hruns) as [new Hfb]; [lia | done | done |].
  eauto.
Qed.

(** ** Health checks *)

Section Probe.
Context {Config : Type}.
Implicit Types st : State Config.

(** The body of [health_check] once the provider is chosen, which the two
    source files share. *)
Lemma probe_exec net l p st :
  heap st !! l = Some p →
  try_except
    (p ← getattr l id;
     '(resp, elapsed) ← session_post net l (health_request p);
     setattr l (set_latency_ms elapsed);;
     setattr l (set_healthy (status resp =? 200));;
     h ← getattr l healthy;
     (if negb h
      then setattr l (set_last_error (Some ("HTTP " +:+ pretty (status resp))))
      else mret tt);;
     getattr l healthy)
    (λ e,
       setattr l (set_healthy false);;
       setattr l (set_last_error (Some (exc_str e)));;
       getattr l name;;
       mret false) st
  = Some (Ok (healthy (probed_provider p (net (length (sent st)) (health_request p)))),
          probed_state net l p st).
Proof.
  intros Hp. unfold try_except, probed_state, probed_provider.
  mstep. cbn [id].
  destruct (net _ _) as [e | r t] eqn:Hnet.
  - erewrite bind_raise by (by apply session_post_refused).
    cbn beta. mstep. mstep. rewrite with_object_twice. mstep. reflexivity.
  - erewrite bind_ok by (by apply session_post_answered).
    cbn beta iota. mstep. mstep. rewrite with_object_twice. mstep.
    cbn [healthy set_healthy].
    destruct (status r =? 200) eqn:Hs; cbn [negb].
    + mstep. erewrite getattr_live by live. reflexivity.
    + mstep. rewrite with_object_twice. erewrite getattr_live by live. reflexivity.
Qed.

Lemma probed_state_contract net l p st :
  heap st !! l = Some p →
  probe_contract net l st
    (Some (Ok (healthy (probed_provider p (net (length (sent st)) (health_request p)))),
           probed_state net l p st)).
Proof.
  intros Hp.
  exists (healthy (probed_provider p (net (length (sent st)) (health_request p)))),
    p, (probed_provider p (net (length (sent st)) (health_request p))),
    (probed_state net l p st).
  split_and!; try done.
  - unfold probed_state. live.
  - intros r t ->. cbn [probed_provider].
    destruct (Z.eqb_spec (status r) 200) as [Hs|Hs].
    + rewrite bool_decide_eq_true_2 by done. done.
    + rewrite bool_decide_eq_false_2 by done. done.
  - by intros e ->.
Qed.
End Probe.

Lemma Bot_health_check_exec net provider (st : State Bot.Config) l p :
  (provider = Some l ∨ provider = None ∧ well_formed st ∧ current_ref st = Some l) →
  heap st !! l = Some p →
  Bot.health_check net provider st
  = Some (Ok (healthy (probed_provider p (net (length (sent st)) (health_request p)))),
          probed_state net l p st).
Proof.
  intros Hprov Hp. unfold Bot.health_check.
  destruct Hprov as [-> | (-> & Hwf & Hl)].
  - erewrite bind_ok by reflexivity. by apply probe_exec.
  - erewrite bind_ok by (apply Bot_current_provider_exec; [apply Hwf | exact Hl]).
    by apply probe_exec.
Qed.

Lemma Bot_health_check_empty net (st : State Bot.Config) :
  providers (self st) = [] →
  Bot.health_check net None st = Some (Ok false, st).
Proof.
  intros Hnil. unfold Bot.health_check.
  erewrite (bind_ok _ _ _ None st); [reflexivity|].
  unfold Bot.current_provider.
  erewrite bind_ok by reflexivity. by rewrite Hnil.
Qed.

Lemma Legacy_health_check_exec net provider (st : State Legacy.Config) l p :
  (provider = Some l ∨ provider = None ∧ well_formed st ∧ current_ref st = Some l) →
  heap st !! l = Some p →
  Legacy.health_check net provider st
  = Some (Ok (healthy (probed_provider p (net (length (sent st)) (health_request p)))),
          probed_state net l p st).
Proof.
  intros Hprov Hp. unfold Legacy.health_check.
  destruct Hprov as [-> | (-> & Hwf & Hl)].
  - erewrite bind_ok by reflexivity. by apply probe_exec.
  - erewrite bind_ok by (apply Legacy_current_provider_exec; [apply Hwf | exact Hl]).
    by apply probe_exec.
Qed.

(** ** The claims on [generate] *)

Section Contracts.
Context {Config : Type}.
Implicit Types st : State Config.

Lemma NoDup_take_rotate {A} (l : list A) i k :
  NoDup l → NoDup (take k (rotate i l)).
Proof.
  intros Hl. eapply sublist_NoDup; [|apply sublist_take].
  unfold rotate. apply NoDup_app. rewrite <- (take_drop (i `mod` length l) l) in Hl.
  apply NoDup_app in Hl as (Ht & Hdisj & Hd). split_and!; [done | | done].
  intros x Hx Hx'. by apply (Hdisj x).
Qed.

Lemma contacted_app st st' new :
  sent st' = sent st ++ new → contacted st st' = new.*1.
Proof. intros H. unfold contacted. by rewrite H, drop_app_length. Qed.

Lemma fallback_well_formed outcome net messages max_tokens st r st' new :
  well_formed st →
  fallback outcome net messages max_tokens 0 st r st' new →
  well_formed st'.
Proof.
  intros [Hidx Hlive] Hfb. split.
  - unfold index_valid, registry_size. rewrite (fb_index _ _ _ _ _ _ _ _ _ Hfb).
    rewrite (fb_registry _ _ _ _ _ _ _ _ _ Hfb).
    apply Z.mod_pos_bound. unfold index_valid, registry_size in Hidx. lia.
  - unfold refs_live. rewrite (fb_registry _ _ _ _ _ _ _ _ _ Hfb).
    assert (length (heap st') = length (heap st)) as ->; [|done].
    rewrite <- (length_fmap backend (heap st')), <- (length_fmap backend (heap st)).
    by rewrite (fb_heap _ _ _ _ _ _ _ _ _ Hfb).
Qed.

Lemma fallback_rotated_order outcome net messages max_tokens st r st' new :
  well_formed st →
  fallback outcome net messages max_tokens 0 st r st' new →
  tries_in_rotated_order outcome net messages max_tokens st (Some (Ok r, st')).
Proof.
  intros [Hidx Hlive] Hfb.
  destruct Hfb as [Hlog Hmost Hleast Horder Hreq Hserved Hsucc Hfail Hindex
                     Hreg Hcfg Hheap].
  unfold index_valid, registry_size in *.
  assert (new ≠ []) as Hne by (apply Hleast; lia).
  exists r, st', new. split_and!; try done.
  - destruct new; [done | cbn; lia].
  - lia.
  - intros Hnd. rewrite Horder. by apply NoDup_take_rotate.
  - intros Hr. destruct (Hfail Hr) as [_ Hall]. lia.
  - intros l req H0 Hs. specialize (Hserved _ _ _ H0).
    rewrite Nat.add_0_r, Hs in Hserved. symmetry in Hserved.
    apply andb_true_iff in Hserved as [_ H1%bool_decide_eq_true].
    split.
    + destruct new as [|x [|y new]]; [done | | done]. cbn in H0. congruence.
    + rewrite Hindex, <- H1. cbn. rewrite Z.add_0_r. by apply Z.mod_small.
Qed.
End Contracts.

(** C1.  In either source file, for a manager whose registry is not empty
    and whose index is valid, [generate] returns a result, having sent
    between one and [len(providers)] requests.  The providers contacted are
    the first ones of the registry rotated to the index at entry, in that
    order, so each is contacted at most once; and a provider is contacted
    by the request built from it: its endpoint, model, key and timeout,
    with the messages and the token limit of the call.  A request is served exactly
    when it is the last one of a call that succeeds: the call stops at the
    first success and gives up only after every provider was tried.  When
    the provider at the index of entry serves its request, it is the only
    one contacted and the index does not move. *)
Theorem generate_tries_in_rotated_order net messages max_tokens
    (st : State Bot.Config) (old : State Legacy.Config) :
  well_formed st → well_formed old →
  tries_in_rotated_order Bot.outcome net messages max_tokens st
    (Bot.generate net messages max_tokens st)
  ∧ tries_in_rotated_order Legacy.outcome net messages max_tokens old
      (Legacy.generate net messages max_tokens old).
Proof.
  intros Hst Hold. split.
  - destruct (Bot_generate_fallback net messages max_tokens st Hst)
      as (r & st' & new & -> & Hfb).
    by eapply fallback_rotated_order.
  - destruct (Legacy_generate_fallback net messages max_tokens old Hold)
      as (r & st' & new & -> & Hfb).
    by eapply fallback_rotated_order.
Qed.

Section Sticky.
Context {Config : Type}.
Implicit Types st : State Config.
Variable outcome : Reply → Outcome.
Variable generate_op : Network → list Message → Z → M Config Result.
Hypothesis generate_fallback :
  ∀ net messages max_tokens st,
    well_formed st →
    ∃ r st' new,
      generate_op net messages max_tokens st = Some (Ok r, st')
      ∧ fallback outcome net messages max_tokens 0 st r st' new.

Lemma next_call_starts_here_wf st :
  well_formed st → next_call_starts_here generate_op st.
Proof.
  intros Hwf net messages max_tokens.
  destruct (generate_fallback net messages max_tokens st Hwf)
    as (r & st' & new & Hgen & Hfb).
  exists r, st'. split; [done|].
  rewrite (contacted_app st st' new) by apply Hfb.
  rewrite (fb_order _ _ _ _ _ _ _ _ _ Hfb).
  destruct (well_formed_current st Hwf) as (l & p & Hl & Hp). rewrite Hl.
  assert (new ≠ []) as Hne.
  { apply (fb_at_least _ _ _ _ _ _ _ _ _ Hfb). destruct Hwf as [[? ?] _]. lia. }
  destruct new as [|x new]; [done|]. cbn [length].
  erewrite take_rotate_S; [done | exact Hl |]. apply lookup_lt_Some in Hl.
  pose proof (fb_at_most _ _ _ _ _ _ _ _ _ Hfb) as Hmost.
  unfold registry_size in Hmost. cbn [length] in Hmost. lia.
Qed.

Lemma sticky_index (i n : Z) :
  0 ≤ i < n → 2 ≤ n → (i + (n - 1)) `mod` n ≠ i.
Proof.
  intros Hi Hn. destruct (decide (i = 0)) as [->|Hpos].
  - rewrite Z.add_0_l, Z.mod_small by lia. lia.
  - replace (i + (n - 1)) with ((i - 1) + 1 * n) by lia.
    rewrite Z_mod_plus_full, Z.mod_small by lia. lia.
Qed.

Lemma all_fail_sticky net messages max_tokens st :
  well_formed st → all_fail outcome net messages max_tokens st →
  sticky_failure generate_op net messages max_tokens st.
Proof.
  intros Hwf Hall.
  destruct (generate_fallback net messages max_tokens st Hwf)
    as (r & st' & new & Hgen & Hfb).
  pose proof (fallback_well_formed _ _ _ _ _ _ _ _ Hwf Hfb) as Hwf'.
  destruct Hfb as [Hlog Hmost Hleast Horder Hreq Hserved Hsucc Hfail Hindex
                     Hreg Hcfg Hheap].
  assert (success r = false) as Hr.
  { destruct r as [pn pm c t|]; [|done]. exfalso.
    destruct (Hsucc _ _ _ _ eq_refl)
      as (l & req & p & p' & Hlast & Hp & _ & _ & Hout & _).
    rewrite last_lookup in Hlast.
    replace (pred (length new)) with (length new - 1)%nat in Hlast by lia.
    destruct (Hreq _ _ _ Hlast) as (p0 & Hp0 & ->).
    assert (new.*1 !! (length new - 1)%nat = Some l) as Hl
      by (by rewrite list_lookup_fmap, Hlast).
    rewrite Horder in Hl. apply lookup_take_Some in Hl as [Hl _].
    specialize (Hall _ _ _ Hl Hp0). by rewrite Hout in Hall. }
  destruct (Hfail Hr) as [-> Hlen].
  pose proof Hwf as [[H0 Hn] _].
  exists "All providers failed", st'. split_and!; try done.
  - rewrite (contacted_app st st' new) by done. rewrite length_fmap.
    unfold registry_size in *. lia.
  - rewrite Hindex. f_equal. lia.
  - intros H2. rewrite Hindex.
    replace (Z.of_nat (length new - 1)) with (registry_size st - 1) by lia.
    by apply sticky_index.
  - by apply next_call_starts_here_wf.
Qed.
End Sticky.

(** C2.  In either source file, when every provider of a well-formed
    manager fails in one call, [generate] returns a failure whose provider
    is ["NONE"] and whose error is not empty, after one request per
    provider.  The index is left on the provider tried last,
    [(index + len - 1) mod len], which is not the index at entry as soon as
    there are two providers, and the next call starts from it. *)
Theorem total_failure_is_sticky net messages max_tokens
    (st : State Bot.Config) (old : State Legacy.Config) :
  well_formed st → all_fail Bot.outcome net messages max_tokens st →
  well_formed old → all_fail Legacy.outcome net messages max_tokens old →
  sticky_failure Bot.generate net messages max_tokens st
  ∧ sticky_failure Legacy.generate net messages max_tokens old.
Proof.
  intros Hst Hfail Hold Hfail'. split.
  - eapply all_fail_sticky; eauto using Bot_generate_fallback.
  - eapply all_fail_sticky; eauto using Legacy_generate_fallback.
Qed.

(** C4.  With an empty registry [generate] returns a failure with
    provider ["NONE"] and a message, in the state it was called in: no
    request is logged and nothing is written.  [src/bot.py] tests for the
    empty registry; in [src/clawdbot/bot.py] the loop runs zero times. *)
Theorem empty_registry_fails_at_once net messages max_tokens
    (st : State Bot.Config) (old : State Legacy.Config) :
  providers (self st) = [] → providers (self old) = [] →
  Bot.generate net messages max_tokens st
    = Some (Ok (Failure "No LLM providers configured" "NONE"), st)
  ∧ Legacy.generate net messages max_tokens old
    = Some (Ok (Failure "All providers failed" "NONE"), old).
Proof.
  intros Hst Hold. split.
  - unfold Bot.generate. by rewrite Hst.
  - unfold Legacy.generate. rewrite Hold. cbn [length].
    rewrite Legacy_generate_loop_unfold. by rewrite decide_False by lia.
Qed.

Lemma current_ref_empty {Config} (st : State Config) :
  providers (self st) = [] → current_ref st = None.
Proof. intros H. unfold current_ref. by rewrite H. Qed.

(** C3.  [health_check] never raises: called with an object, or with
    [None] on a manager that has a current provider, it returns a boolean
    whatever the backend does; and when an answer arrived, with status 200
    or any other, the object probed holds the measured latency and
    [healthy] tells whether the status was 200, with [last_error] set to
    the status otherwise.  With [None] and no provider, [src/bot.py]
    returns [False] and touches nothing. *)
Theorem health_check_never_raises net provider
    (st : State Bot.Config) (old : State Legacy.Config) :
  probe_ready provider st ∨ provider = None ∧ providers (self st) = [] →
  probe_ready provider old →
  probe_outcome net provider st (Bot.health_check net provider st)
  ∧ probe_outcome net provider old (Legacy.health_check net provider old).
Proof.
  intros Hst Hold. split.
  - unfold probe_outcome. destruct Hst as [Hready | [-> Hnil]].
    + destruct provider as [l|]; cbn [probe_ready probe_target] in *.
      * destruct Hready as [p Hp].
        erewrite Bot_health_check_exec by eauto. by apply probed_state_contract.
      * destruct (well_formed_current st Hready) as (l & p & Hl & Hp).
        rewrite Hl. erewrite Bot_health_check_exec by eauto.
        by apply probed_state_contract.
    + cbn [probe_target]. rewrite current_ref_empty by done.
      by apply Bot_health_check_empty.
  - unfold probe_outcome.
    destruct provider as [l|]; cbn [probe_ready probe_target] in *.
    + destruct Hold as [p Hp].
      erewrite Legacy_health_check_exec by eauto. by apply probed_state_contract.
    + destruct (well_formed_current old Hold) as (l & p & Hl & Hp).
      rewrite Hl. erewrite Legacy_health_check_exec by eauto.
      by apply probed_state_contract.
Qed.

Lemma Bot_switch_small (st : State Bot.Config) :
  registry_size st < 2 → Bot.switch_to_next_provider st = Some (Ok tt, st).
Proof.
  intros Hn. unfold Bot.switch_to_next_provider.
  erewrite bind_ok by reflexivity. fold (registry_size st).
  destruct (Z.leb_spec (registry_size st) 1); [done | lia].
Qed.

Lemma with_index_same {Config} (st : State Config) :
  with_index (current_provider_index (self st)) st = st.
Proof. by destruct st as [[cfg ps i] h s]. Qed.

Lemma next_index_single {Config} (st : State Config) :
  index_valid st → registry_size st < 2 →
  next_index st = current_provider_index (self st).
Proof.
  intros [H0 Hn] H2. unfold next_index.
  assert (registry_size st = 1) as -> by lia.
  rewrite Z.mod_1_r. lia.
Qed.

Lemma Bot_rotates_after_failure net messages max_tokens attempts
    (st : State Bot.Config) :
  well_formed st → 0 ≤ attempts < registry_size st - 1 →
  current_fails Bot.outcome net messages max_tokens st →
  rotates_after_failure (Bot.attempt net messages max_tokens)
    (Bot.generate_loop net messages max_tokens) attempts st.
Proof.
  intros Hwf Ha Hfails.
  destruct (well_formed_current st Hwf) as (l & p & Hl & Hp).
  specialize (Hfails l p Hl Hp).
  pose proof (Bot_attempt_exec net messages max_tokens attempts (registry_size st)
                st l p) as Hexec.
  destruct (Bot.outcome _) as [c t | e measured]; [done|].
  eexists. split_and!.
  - apply Hexec; (done || lia).
  - unfold failed_state. destruct (Z.ltb_spec attempts (registry_size st - 1)); [done | lia].
  - rewrite Bot_generate_loop_unfold. rewrite decide_True by lia.
    rewrite Hexec by (done || lia). done.
Qed.

Lemma Legacy_rotates_after_failure net messages max_tokens attempts
    (st : State Legacy.Config) :
  well_formed st → 0 ≤ attempts < registry_size st - 1 →
  current_fails Legacy.outcome net messages max_tokens st →
  rotates_after_failure (Legacy.attempt net messages max_tokens)
    (Legacy.generate_loop net messages max_tokens) attempts st.
Proof.
  intros Hwf Ha Hfails.
  destruct (well_formed_current st Hwf) as (l & p & Hl & Hp).
  specialize (Hfails l p Hl Hp).
  pose proof (Legacy_attempt_exec net messages max_tokens attempts (registry_size st)
                st l p) as Hexec.
  destruct (Legacy.outcome _) as [c t | e measured]; [done|].
  eexists. split_and!.
  - apply Hexec; (done || lia).
  - unfold failed_state. destruct (Z.ltb_spec attempts (registry_size st - 1)); [done | lia].
  - rewrite Legacy_generate_loop_unfold. rewrite decide_True by lia.
    rewrite Hexec by (done || lia). done.
Qed.

(** C5.  [switch_to_next_provider] moves the index to
    [(index + 1) mod len(providers)] and leaves the state as it is when
    there are fewer than two providers; and in [generate], when the current
    provider fails on an attempt that is not the last one, the index is one
    further, modulo the size, before the next pass through the loop. *)
Theorem rotation_advances_modulo net messages max_tokens attempts
    (st : State Bot.Config) (old : State Legacy.Config) :
  providers (self st) = [] ∨ well_formed st → well_formed old →
  Bot.switch_to_next_provider st
    = Some (Ok tt, if registry_size st <? 2 then st
                   else with_index (next_index st) st)
  ∧ (∃ names,
       Legacy.switch_to_next_provider old
         = Some (Ok names, if registry_size old <? 2 then old
                           else with_index (next_index old) old))
  ∧ (0 ≤ attempts < registry_size st - 1 →
     current_fails Bot.outcome net messages max_tokens st →
     rotates_after_failure (Bot.attempt net messages max_tokens)
       (Bot.generate_loop net messages max_tokens) attempts st)
  ∧ (0 ≤ attempts < registry_size old - 1 →
     current_fails Legacy.outcome net messages max_tokens old →
     rotates_after_failure (Legacy.attempt net messages max_tokens)
       (Legacy.generate_loop net messages max_tokens) attempts old).
Proof.
  intros Hst Hold. split_and!.
  - destruct (Z.ltb_spec (registry_size st) 2) as [Hn|Hn].
    + by apply Bot_switch_small.
    + destruct Hst as [Hnil | Hwf].
      { unfold registry_size in Hn. rewrite Hnil in Hn. cbn in Hn. lia. }
      rewrite Bot_switch_exec by done.
      destruct (Z.leb_spec (registry_size st) 1); [lia | done].
  - destruct (Legacy_switch_exec old Hold) as [names Hsw]. exists names.
    rewrite Hsw. destruct (Z.ltb_spec (registry_size old) 2) as [Hn|Hn]; [|done].
    rewrite next_index_single by (done || apply Hold).
    by rewrite with_index_same.
  - intros Ha Hfails. destruct Hst as [Hnil | Hwf].
    { unfold registry_size in Ha. rewrite Hnil in Ha. cbn in Ha. lia. }
    by apply Bot_rotates_after_failure.
  - intros Ha Hfails. by apply Legacy_rotates_after_failure.
Qed.

Lemma Bot_outcome_served reply content t :
  Bot.outcome reply = Served content t →
  ∃ resp body,
    reply = Answered resp t ∧ status resp = 200
    ∧ resp_json resp = Ok body ∧ completion_content body = Ok content.
Proof.
  unfold Bot.outcome. destruct reply as [e | resp t']; [done|].
  destruct (Z.eqb_spec (status resp) 200) as [Hs|Hs].
  - destruct (resp_json resp) as [body|e] eqn:Hj; [|done].
    destruct (completion_content body) as [c|e] eqn:Hc; [|done].
    intros [= <- <-]. by exists resp, body.
  - by destruct (resp_text resp).
Qed.

Lemma Legacy_outcome_served reply content t :
  Legacy.outcome reply = Served content t →
  ∃ resp body,
    reply = Answered resp t ∧ status resp = 200
    ∧ resp_json resp = Ok body ∧ completion_content body = Ok content.
Proof.
  unfold Legacy.outcome. destruct reply as [e | resp t']; [done|].
  destruct (Z.eqb_spec (status resp) 200) as [Hs|Hs]; [|done].
  destruct (resp_json resp) as [body|e] eqn:Hj; [|done].
  destruct (completion_content body) as [c|e] eqn:Hc; [|done].
  intros [= <- <-]. eauto 10.
Qed.

Section Carries.
Context {Config : Type}.
Implicit Types st : State Config.
Variable outcome : Reply → Outcome.
Hypothesis outcome_served :
  ∀ reply content t,
    outcome reply = Served content t →
    ∃ resp body,
      reply = Answered resp t ∧ status resp = 200
      ∧ resp_json resp = Ok body ∧ completion_content body = Ok content.

Lemma fallback_result_carries net messages max_tokens st r st' new :
  fallback outcome net messages max_tokens 0 st r st' new →
  result_carries net st r st'.
Proof.
  intros [Hlog Hmost Hleast Horder Hreq Hserved Hsucc Hfail Hindex
            Hreg Hcfg Hheap].
  destruct r as [pn pm c t | error pname].
  - destruct (Hsucc _ _ _ _ eq_refl)
      as (l & req & p & p' & Hlast & Hp & -> & -> & Hout & Hp' & Hlat & _).
    destruct (outcome_served _ _ _ Hout) as (resp & body & Hnet & Hs & Hj & Hc).
    exists l, req, p, p', resp, body. split_and!; try done.
    + by rewrite Hlog, drop_app_length.
    + rewrite <- Hnet. f_equal. rewrite Hlog, length_app.
      destruct new; [done | cbn [length]; lia].
  - destruct (Hfail eq_refl) as [[= -> ->] _]. done.
Qed.
End Carries.

(** C6, as amended.  [generate] returns, and a success carries the name
    and model of the provider contacted last, the latency measured for its
    answer, also stored in the provider, and as content the value of
    [choices[0].message.content] in the body of that answer, whatever it
    is; a failure carries a non-empty error and the provider ["NONE"]. *)
Theorem result_carries_what_was_served net messages max_tokens
    (st : State Bot.Config) (old : State Legacy.Config) :
  providers (self st) = [] ∨ well_formed st → well_formed old →
  (∃ r st',
     Bot.generate net messages max_tokens st = Some (Ok r, st')
     ∧ result_carries net st r st')
  ∧ (∃ r st',
       Legacy.generate net messages max_tokens old = Some (Ok r, st')
       ∧ result_carries net old r st').
Proof.
  intros Hst Hold. split.
  - destruct Hst as [Hnil | Hwf].
    + eexists _, _. split; [unfold Bot.generate; by rewrite Hnil | done].
    + destruct (Bot_generate_fallback net messages max_tokens st Hwf)
        as (r & st' & new & Hgen & Hfb).
      exists r, st'. split; [done|].
      eapply fallback_result_carries; [apply Bot_outcome_served | exact Hfb].
  - destruct (Legacy_generate_fallback net messages max_tokens old Hold)
      as (r & st' & new & Hgen & Hfb).
    exists r, st'. split; [done|].
    eapply fallback_result_carries; [apply Legacy_outcome_served | exact Hfb].
Qed.

(** C6 as stated fails: a backend that answers 200 with an empty
    completion makes [generate] return a success whose content is the
    empty string. *)
Lemma success_with_empty_content :
  ∃ st',
    Bot.generate net_empty_content sample_messages 1024 sample_local_state
      = Some (Ok (Success "LOCAL" "llama3" (JStr "") 7%float), st')
    ∧ nonempty_text (JStr "") = false.
Proof. eexists. split; [vm_compute; reflexivity | reflexivity]. Qed.

Section Effects.
Context {Config : Type}.
Implicit Types st : State Config.

Lemma heap_served_state l p req t st :
  heap st !! l = Some p →
  heap (served_state l p req t st) !! l
    = Some (set_healthy true (set_latency_ms t p)).
Proof. intros Hp. unfold served_state. live. Qed.

Lemma heap_failed_state l p req e measured attempts max_attempts st :
  heap st !! l = Some p →
  heap (failed_state l p req e measured attempts max_attempts st) !! l
    = Some (failed_provider p e measured).
Proof. intros Hp. unfold failed_state. destruct (_ <? _); live. Qed.

Lemma heap_probed_state net l p st :
  heap st !! l = Some p →
  heap (probed_state net l p st) !! l
    = Some (probed_provider p (net (length (sent st)) (health_request p))).
Proof. intros Hp. unfold probed_state. live. Qed.
End Effects.

Lemma Bot_outcome_latency reply e measured :
  Bot.outcome reply = Failed e measured →
  match reply with
  | Answered r t => measured = if status r =? 200 then Some t else None
  | Refused _ => measured = None
  end.
Proof.
  unfold Bot.outcome. destruct reply as [e' | r t]; [by intros [= _ <-]|].
  destruct (status r =? 200).
  - destruct (resp_json r) as [body|e']; [|by intros [= _ <-]].
    destruct (completion_content body); [done | by intros [= _ <-]].
  - destruct (resp_text r); by intros [= _ <-].
Qed.

Lemma Legacy_outcome_latency reply e measured :
  Legacy.outcome reply = Failed e measured →
  match reply with
  | Answered r t => measured = if status r =? 200 then Some t else None
  | Refused _ => measured = None
  end.
Proof.
  unfold Legacy.outcome. destruct reply as [e' | r t]; [by intros [= _ <-]|].
  destruct (status r =? 200).
  - destruct (resp_json r) as [body|e']; [|by intros [= _ <-]].
    destruct (completion_content body); [done | by intros [= _ <-]].
  - by intros [= _ <-].
Qed.

Lemma failed_provider_latency reply p e measured :
  match reply with
  | Answered r t => measured = if status r =? 200 then Some t else None
  | Refused _ => measured = None
  end →
  latency_written reply p (failed_provider p e measured).
Proof.
  unfold latency_written. destruct reply as [e' | r t].
  - by intros ->.
  - destruct (status r =? 200); by intros ->.
Qed.

(** C10, as amended.  A pass through the loop of [generate] writes
    [latency_ms] of the provider it tried exactly when an answer with
    status 200 arrived, also when its body then fails to parse; a refused
    request or another status leaves it as it was.  A pass that fails
    leaves the provider unhealthy with an error recorded.  [health_check]
    writes the latency for an answer of any status. *)
Theorem latency_written_on_status_200 net messages max_tokens attempts
    (st : State Bot.Config) (old : State Legacy.Config) l p l' q :
  0 ≤ attempts →
  well_formed st → current_ref st = Some l → heap st !! l = Some p →
  well_formed old → current_ref old = Some l' → heap old !! l' = Some q →
  (∃ out st' p',
     Bot.attempt net messages max_tokens attempts (registry_size st) st
       = Some (Ok out, st')
     ∧ heap st' !! l = Some p'
     ∧ latency_written
         (net (length (sent st)) (generate_request messages max_tokens p)) p p'
     ∧ (out = None → healthy p' = false ∧ is_Some (last_error p')))
  ∧ (∃ out st' q',
       Legacy.attempt net messages max_tokens attempts (registry_size old) old
         = Some (Ok out, st')
       ∧ heap st' !! l' = Some q'
       ∧ latency_written
           (net (length (sent old)) (generate_request messages max_tokens q)) q q'
       ∧ (out = None → healthy q' = false ∧ is_Some (last_error q')))
  ∧ (∀ r t,
       net (length (sent st)) (health_request p) = Answered r t →
       ∃ b st' p',
         Bot.health_check net (Some l) st = Some (Ok b, st')
         ∧ heap st' !! l = Some p' ∧ latency_ms p' = t)
  ∧ (∀ r t,
       net (length (sent old)) (health_request q) = Answered r t →
       ∃ b st' q',
         Legacy.health_check net (Some l') old = Some (Ok b, st')
         ∧ heap st' !! l' = Some q' ∧ latency_ms q' = t).
Proof.
  intros Ha Hst Hl Hp Hold Hl' Hq. split_and!.
  - rewrite (Bot_attempt_exec _ _ _ _ _ _ l p) by done.
    destruct (Bot.outcome _) as [c t | e measured] eqn:Hout.
    + destruct (Bot_outcome_served _ _ _ Hout) as (resp & body & Hnet & Hs & _).
      eexists _, _, _. split_and!; [done | by apply heap_served_state | | done].
      rewrite Hnet. cbn. by rewrite Hs.
    + eexists _, _, _. split_and!; [done | by apply heap_failed_state | | ].
      * eapply failed_provider_latency, Bot_outcome_latency. exact Hout.
      * intros _. split; [done | by eexists].
  - rewrite (Legacy_attempt_exec _ _ _ _ _ _ l' q) by done.
    destruct (Legacy.outcome _) as [c t | e measured] eqn:Hout.
    + destruct (Legacy_outcome_served _ _ _ Hout) as (resp & body & Hnet & Hs & _).
      eexists _, _, _. split_and!; [done | by apply heap_served_state | | done].
      rewrite Hnet. cbn. by rewrite Hs.
    + eexists _, _, _. split_and!; [done | by apply heap_failed_state | | ].
      * eapply failed_provider_latency, Legacy_outcome_latency. exact Hout.
      * intros _. split; [done | by eexists].
  - intros r t Hnet. eexists _, _, _. split_and!.
    + apply Bot_health_check_exec; [by left | exact Hp].
    + by apply heap_probed_state.
    + rewrite Hnet. cbn. by destruct (status r =? 200).
  - intros r t Hnet. eexists _, _, _. split_and!.
    + apply Legacy_health_check_exec; [by left | exact Hq].
    + by apply heap_probed_state.
    + rewrite Hnet. cbn. by destruct (status r =? 200).
Qed.

(** C10 as stated fails for a malformed body: on a 200 answer whose body
    is not JSON every attempt fails, and yet the latency of the provider
    has changed from 0 to the 5 ms measured. *)
Lemma unreadable_200_writes_latency :
  ∃ st' p p',
    Bot.generate net_bad_body sample_messages 1024 sample_local_state
      = Some (Ok (Failure "All providers failed" "NONE"), st')
    ∧ heap sample_local_state !! 0%nat = Some p
    ∧ heap st' !! 0%nat = Some p'
    ∧ latency_ms p = 0%float
    ∧ latency_ms p' = 5%float
    ∧ PrimFloat.eqb (latency_ms p') (latency_ms p) = false.
Proof. eexists _, _, _. vm_compute. split_and!; reflexivity. Qed.

Lemma probed_keeps_last_error net p :
  healthy (probed_provider p net) = true →
  last_error (probed_provider p net) = last_error p.
Proof.
  unfold probed_provider. destruct net as [e | r t]; [done|]. cbn.
  by destruct (status r =? 200).
Qed.

(** C8, as amended.  A successful attempt of [generate] and a successful
    [health_check] set [healthy] and leave [last_error] of the provider as
    it was: no call clears it.  For [generate] the provider is the current
    one, [l]; for [health_check] it is any provider [k] the caller names,
    as [health_command] does for each of the registry, or the current one
    when it names none. *)
Theorem success_keeps_last_error net messages max_tokens attempts
    (st : State Bot.Config) (old : State Legacy.Config) l p l' q k pk k' qk :
  0 ≤ attempts →
  well_formed st → current_ref st = Some l → heap st !! l = Some p →
  heap st !! k = Some pk →
  well_formed old → current_ref old = Some l' → heap old !! l' = Some q →
  heap old !! k' = Some qk →
  (∀ r st',
     Bot.attempt net messages max_tokens attempts (registry_size st) st
       = Some (Ok (Some r), st') →
     ∃ p', heap st' !! l = Some p'
           ∧ healthy p' = true ∧ last_error p' = last_error p)
  ∧ (∀ st',
       Bot.health_check net (Some k) st = Some (Ok true, st') →
       ∃ p', heap st' !! k = Some p'
             ∧ healthy p' = true ∧ last_error p' = last_error pk)
  ∧ (∀ st',
       Bot.health_check net None st = Some (Ok true, st') →
       ∃ p', heap st' !! l = Some p'
             ∧ healthy p' = true ∧ last_error p' = last_error p)
  ∧ (∀ r st',
       Legacy.attempt net messages max_tokens attempts (registry_size old) old
         = Some (Ok (Some r), st') →
       ∃ q', heap st' !! l' = Some q'
             ∧ healthy q' = true ∧ last_error q' = last_error q)
  ∧ (∀ st',
       Legacy.health_check net (Some k') old = Some (Ok true, st') →
       ∃ q', heap st' !! k' = Some q'
             ∧ healthy q' = true ∧ last_error q' = last_error qk)
  ∧ (∀ st',
       Legacy.health_check net None old = Some (Ok true, st') →
       ∃ q', heap st' !! l' = Some q'
             ∧ healthy q' = true ∧ last_error q' = last_error q).
Proof.
  intros Ha Hst Hl Hp Hk Hold Hl' Hq Hk'. split_and!.
  - intros r st'. rewrite (Bot_attempt_exec _ _ _ _ _ _ l p) by done.
    destruct (Bot.outcome _) as [c t | e measured]; [|done].
    intros [= _ <-]. eexists. split; [by apply heap_served_state | done].
  - intros st'. erewrite (Bot_health_check_exec _ _ _ k pk) by eauto.
    intros [= Hb <-]. eexists. split; [by apply heap_probed_state|].
    split; [done | by apply probed_keeps_last_error].
  - intros st'. erewrite (Bot_health_check_exec _ _ _ l p) by eauto.
    intros [= Hb <-]. eexists. split; [by apply heap_probed_state|].
    split; [done | by apply probed_keeps_last_error].
  - intros r st'. rewrite (Legacy_attempt_exec _ _ _ _ _ _ l' q) by done.
    destruct (Legacy.outcome _) as [c t | e measured]; [|done].
    intros [= _ <-]. eexists. split; [by apply heap_served_state | done].
  - intros st'. erewrite (Legacy_health_check_exec _ _ _ k' qk) by eauto.
    intros [= Hb <-]. eexists. split; [by apply heap_probed_state|].
    split; [done | by apply probed_keeps_last_error].
  - intros st'. erewrite (Legacy_health_check_exec _ _ _ l' q) by eauto.
    intros [= Hb <-]. eexists. split; [by apply heap_probed_state|].
    split; [done | by apply probed_keeps_last_error].
Qed.

(** C8 as stated fails: after a refused request, a generation and a
    health check that both succeed leave the provider healthy with the
    error of the refused request still recorded. *)
Lemma last_error_survives_success :
  ∃ st1 st2 st3 p,
    Bot.generate net_recovers sample_messages 1024 sample_local_state
      = Some (Ok (Failure "All providers failed" "NONE"), st1)
    ∧ Bot.generate net_recovers sample_messages 1024 st1
      = Some (Ok (Success "LOCAL" "llama3" (JStr "hello") 12%float), st2)
    ∧ Bot.health_check net_recovers (Some 0%nat) st2 = Some (Ok true, st3)
    ∧ heap st2 !! 0%nat = Some p
    ∧ heap st3 !! 0%nat = Some p
    ∧ healthy p = true
    ∧ last_error p = Some "Cannot connect to host".
Proof. eexists _, _, _, _. vm_compute. split_and!; reflexivity. Qed.

(** ** Construction and the states reached from it *)

Lemma Bot_init_exec (cfg : Bot.Config) :
  Bot.__init__ cfg
    = Some (Ok tt,
            registered cfg (Bot.local_provider cfg
                              ++ openai_fallback (Bot.OPENAI_API_KEY cfg))).
Proof.
  unfold Bot.__init__, Bot._setup_providers, Bot.local_provider, openai_fallback.
  erewrite bind_ok by reflexivity. cbn [self config].
  destruct (truthy (Bot.LOCAL_LLM_API_BASE cfg));
    destruct (truthy_opt (Bot.OPENAI_API_KEY cfg)); reflexivity.
Qed.

Lemma Legacy_init_exec (cfg : Legacy.Config) :
  Legacy.__init__ cfg
    = Some (Ok tt,
            registered cfg (Legacy.local_provider cfg
                              ++ openai_fallback (Legacy.OPENAI_API_KEY cfg))).
Proof.
  unfold Legacy.__init__, Legacy._setup_providers, Legacy.local_provider,
    openai_fallback.
  erewrite bind_ok by reflexivity. cbn [self config].
  destruct (truthy_opt (Legacy.OPENAI_API_KEY cfg)); reflexivity.
Qed.

(** C7, as amended.  Construction never fails and creates the providers
    in priority order: the local one, then, when a key is present, the
    fallback at [https://api.openai.com/v1] with model [gpt-4o-mini] and a
    timeout of 30 seconds.  [src/bot.py] creates the local provider only
    when the endpoint is configured; [src/clawdbot/bot.py] always creates
    it. *)
Theorem providers_built_in_priority_order (cfg : Bot.Config) (old : Legacy.Config) :
  Bot.__init__ cfg
    = Some (Ok tt,
            registered cfg (Bot.local_provider cfg
                              ++ openai_fallback (Bot.OPENAI_API_KEY cfg)))
  ∧ Legacy.__init__ old
    = Some (Ok tt,
            registered old (Legacy.local_provider old
                              ++ openai_fallback (Legacy.OPENAI_API_KEY old))).
Proof. split; [apply Bot_init_exec | apply Legacy_init_exec]. Qed.

(** C7 as stated fails on [src/clawdbot/bot.py]: without a local
    endpoint the registry still holds a [LOCAL] provider, whose endpoint is
    empty. *)
Lemma legacy_registers_local_without_endpoint :
  ∃ st p,
    Legacy.__init__ legacy_config_without_endpoint = Some (Ok tt, st)
    ∧ truthy (Legacy.LOCAL_LLM_API_BASE legacy_config_without_endpoint) = false
    ∧ providers (self st) = [0%nat]
    ∧ heap st !! 0%nat = Some p
    ∧ name p = "LOCAL" ∧ api_base p = "".
Proof. eexists _, _. vm_compute. split_and!; reflexivity. Qed.

Section Invariant.
Context {Config : Type}.
Implicit Types st : State Config.

Lemma built_from_registered (cfg : Config) ps : built_from ps (registered cfg ps).
Proof.
  split_and!; [done | done |]. intros Hne. unfold index_valid, registry_size.
  cbn in *. rewrite length_seq. destruct ps; [done | cbn; lia].
Qed.

Lemma built_from_live ps st : built_from ps st → refs_live st.
Proof.
  intros (Hreg & Hheap & _). unfold refs_live. rewrite Hreg.
  assert (length (heap st) = length ps) as ->.
  { by rewrite <- (length_fmap backend (heap st)), Hheap, length_fmap. }
  apply Forall_forall. intros l Hl. apply elem_of_seq in Hl. lia.
Qed.

Lemma built_from_cases ps st :
  built_from ps st → providers (self st) = [] ∨ well_formed st.
Proof.
  intros Hinv. destruct (providers (self st)) as [|l ls] eqn:Hps; [by left|].
  right. split; [|by eapply built_from_live].
  apply Hinv. by rewrite Hps.
Qed.

Lemma built_from_with_index ps i st :
  built_from ps st → index_valid (with_index i st) →
  built_from ps (with_index i st).
Proof. intros (Hreg & Hheap & Hidx) Hi. by split_and!. Qed.

Lemma backend_probed p reply : backend (probed_provider p reply) = backend p.
Proof.
  unfold probed_provider. destruct reply as [e | r t]; [done|].
  by destruct (status r =? 200).
Qed.

Lemma built_from_probed ps net l p st :
  built_from ps st → heap st !! l = Some p →
  built_from ps (probed_state net l p st).
Proof.
  intros (Hreg & Hheap & Hidx) Hp. split_and!; [done | | done].
  cbn. rewrite <- Hheap. eapply backend_insert; [exact Hp|]. apply backend_probed.
Qed.

Lemma built_from_fallback ps outcome net messages max_tokens st r st' new :
  built_from ps st → well_formed st →
  fallback outcome net messages max_tokens 0 st r st' new →
  built_from ps st'.
Proof.
  intros (Hreg & Hheap & Hidx) Hwf Hfb. split_and!.
  - by rewrite (fb_registry _ _ _ _ _ _ _ _ _ Hfb).
  - by rewrite (fb_heap _ _ _ _ _ _ _ _ _ Hfb).
  - intros _. by eapply fallback_well_formed.
Qed.
End Invariant.

Lemma Bot_step_built_from ps (st st' : State Bot.Config) :
  built_from ps st →
  step Bot.switch_to_next_provider Bot.generate Bot.health_check st st' →
  built_from ps st'.
Proof.
  intros Hinv Hstep.
  destruct Hstep as [st out st' Hop | net messages max_tokens st out st' Hop
                    | net provider st out st' Hlive Hop].
  - destruct (built_from_cases ps st Hinv) as [Hnil | Hwf].
    + rewrite Bot_switch_small in Hop
        by (unfold registry_size; rewrite Hnil; cbn; lia).
      by injection Hop as _ <-.
    + rewrite Bot_switch_exec in Hop by done. injection Hop as _ <-.
      destruct (registry_size st <=? 1) eqn:Hn; [done|].
      apply built_from_with_index; [done|].
      apply (next_index_bounds st). destruct Hwf as [[? ?] _]. lia.
  - destruct (built_from_cases ps st Hinv) as [Hnil | Hwf].
    + unfold Bot.generate in Hop. rewrite Hnil in Hop. by injection Hop as _ <-.
    + destruct (Bot_generate_fallback net messages max_tokens st Hwf)
        as (r & st'' & new & Hgen & Hfb).
      rewrite Hgen in Hop. injection Hop as _ <-.
      by eapply built_from_fallback.
  - destruct provider as [l|].
    + destruct (Hlive l eq_refl) as [p Hp].
      erewrite Bot_health_check_exec in Hop by eauto. injection Hop as _ <-.
      by apply built_from_probed.
    + destruct (built_from_cases ps st Hinv) as [Hnil | Hwf].
      * rewrite Bot_health_check_empty in Hop by done. by injection Hop as _ <-.
      * destruct (well_formed_current st Hwf) as (l & p & Hl & Hp).
        erewrite Bot_health_check_exec in Hop by eauto. injection Hop as _ <-.
        by apply built_from_probed.
Qed.

Lemma Legacy_step_built_from ps (st st' : State Legacy.Config) :
  ps ≠ [] → built_from ps st →
  step Legacy.switch_to_next_provider Legacy.generate Legacy.health_check st st' →
  built_from ps st'.
Proof.
  intros Hps Hinv Hstep.
  assert (well_formed st) as Hwf.
  { destruct (built_from_cases ps st Hinv) as [Hnil | Hwf]; [|done].
    destruct Hinv as (Hreg & _). rewrite Hnil in Hreg.
    destruct ps; [done | discriminate]. }
  destruct Hstep as [st out st' Hop | net messages max_tokens st out st' Hop
                    | net provider st out st' Hlive Hop].
  - destruct (Legacy_switch_exec st Hwf) as [names Hsw].
    rewrite Hsw in Hop. injection Hop as _ <-.
    apply built_from_with_index; [done|].
    apply (next_index_bounds st). destruct Hwf as [[? ?] _]. lia.
  - destruct (Legacy_generate_fallback net messages max_tokens st Hwf)
      as (r & st'' & new & Hgen & Hfb).
    rewrite Hgen in Hop. injection Hop as _ <-.
    by eapply built_from_fallback.
  - destruct provider as [l|].
    + destruct (Hlive l eq_refl) as [p Hp].
      erewrite Legacy_health_check_exec in Hop by eauto. injection Hop as _ <-.
      by apply built_from_probed.
    + destruct (well_formed_current st Hwf) as (l & p & Hl & Hp).
      erewrite Legacy_health_check_exec in Hop by eauto. injection Hop as _ <-.
      by apply built_from_probed.
Qed.

Lemma built_from_invariant {Config} init (cfg : Config) ps st :
  init cfg = Some (Ok tt, registered cfg ps) →
  built_from ps st → registry_invariant init cfg st.
Proof.
  intros Hinit Hinv. pose proof (built_from_live ps st Hinv) as Hlive.
  destruct Hinv as (Hreg & Hheap & Hidx).
  exists (registered cfg ps). by split_and!.
Qed.

(** C9.  Through any sequence of rotations, generations and health
    checks after construction, the registry stays the one that was
    constructed, every object keeps its identity, and the index is within
    the registry whenever there is one; the registry of
    [src/clawdbot/bot.py] is never empty, so its index is always valid. *)
Theorem index_stays_within_registry (cfg : Bot.Config) (old : Legacy.Config)
    (st : State Bot.Config) (st_old : State Legacy.Config) :
  reachable Bot.__init__ Bot.switch_to_next_provider Bot.generate
    Bot.health_check cfg st →
  reachable Legacy.__init__ Legacy.switch_to_next_provider Legacy.generate
    Legacy.health_check old st_old →
  registry_invariant Bot.__init__ cfg st
  ∧ registry_invariant Legacy.__init__ old st_old
  ∧ index_valid st_old.
Proof.
  intros Hst Hold. split_and!.
  - eapply built_from_invariant; [apply Bot_init_exec|].
    induction Hst as [st Hinit | st st' _ IH Hstep].
    + rewrite Bot_init_exec in Hinit. injection Hinit as <-.
      apply built_from_registered.
    + by eapply Bot_step_built_from.
  - eapply built_from_invariant; [apply Legacy_init_exec|].
    induction Hold as [st' Hinit | st' st'' _ IH Hstep].
    + rewrite Legacy_init_exec in Hinit. injection Hinit as <-.
      apply built_from_registered.
    + by eapply Legacy_step_built_from.
  - assert (built_from (Legacy.local_provider old
                          ++ openai_fallback (Legacy.OPENAI_API_KEY old)) st_old)
      as (Hreg & _ & Hidx).
    { induction Hold as [st' Hinit | st' st'' _ IH Hstep].
      + rewrite Legacy_init_exec in Hinit. injection Hinit as <-.
        apply built_from_registered.
      + by eapply Legacy_step_built_from. }
    apply Hidx. by rewrite Hreg.
Qed.

(** ** The claims on the sample managers *)

(** The sample managers are well formed. *)
Ltac sample_well_formed :=
  split;
  [ unfold index_valid, registry_size; cbn; lia
  | unfold refs_live; cbn; repeat constructor ].

(** C1 on the sample managers, the local backend being down. *)
Lemma generate_tries_in_rotated_order_witness :
  tries_in_rotated_order Bot.outcome net_local_down sample_messages 1024
    sample_state
    (Bot.generate net_local_down sample_messages 1024 sample_state)
  ∧ tries_in_rotated_order Legacy.outcome net_local_down sample_messages 1024
      sample_legacy_state
      (Legacy.generate net_local_down sample_messages 1024 sample_legacy_state).
Proof.
  apply generate_tries_in_rotated_order; sample_well_formed.
Defined.

(** C2 on the sample managers, no backend being reachable. *)
Lemma total_failure_is_sticky_witness :
  sticky_failure Bot.generate net_down sample_messages 1024 sample_state
  ∧ sticky_failure Legacy.generate net_down sample_messages 1024
      sample_legacy_state.
Proof.
  apply total_failure_is_sticky;
    first [ sample_well_formed | intros j l p _ _; reflexivity ].
Defined.

(** C3 on the sample managers, the backend answering 503. *)
Lemma health_check_never_raises_witness :
  probe_outcome net_unavailable None sample_state
    (Bot.health_check net_unavailable None sample_state)
  ∧ probe_outcome net_unavailable None sample_legacy_state
      (Legacy.health_check net_unavailable None sample_legacy_state).
Proof.
  apply health_check_never_raises; [left|]; cbn [probe_ready];
    sample_well_formed.
Defined.

(** C4 on managers without providers. *)
Lemma empty_registry_fails_at_once_witness :
  Bot.generate net_up sample_messages 1024 sample_empty_state
    = Some (Ok (Failure "No LLM providers configured" "NONE"), sample_empty_state)
  ∧ Legacy.generate net_up sample_messages 1024 legacy_unbuilt_state
    = Some (Ok (Failure "All providers failed" "NONE"), legacy_unbuilt_state).
Proof. apply empty_registry_fails_at_once; reflexivity. Defined.

(** C5 on the sample managers: two providers rotate, one does not. *)
Lemma rotation_advances_modulo_witness :
  Bot.switch_to_next_provider sample_state
    = Some (Ok tt, with_index 1 sample_state)
  ∧ Bot.switch_to_next_provider sample_local_state
    = Some (Ok tt, sample_local_state)
  ∧ rotates_after_failure (Bot.attempt net_down sample_messages 1024)
      (Bot.generate_loop net_down sample_messages 1024) 0 sample_state
  ∧ rotates_after_failure (Legacy.attempt net_down sample_messages 1024)
      (Legacy.generate_loop net_down sample_messages 1024) 0
      sample_legacy_state.
Proof.
  assert (well_formed sample_state) as Hst by sample_well_formed.
  assert (well_formed sample_local_state) as Hlocal by sample_well_formed.
  assert (well_formed sample_legacy_state) as Hold by sample_well_formed.
  split_and!.
  - exact (proj1 (rotation_advances_modulo net_down sample_messages 1024 0
                    sample_state sample_legacy_state (or_intror Hst) Hold)).
  - exact (proj1 (rotation_advances_modulo net_down sample_messages 1024 0
                    sample_local_state sample_legacy_state (or_intror Hlocal)
                    Hold)).
  - apply (rotation_advances_modulo net_down sample_messages 1024 0
             sample_state sample_legacy_state (or_intror Hst) Hold).
    + unfold registry_size. cbn. lia.
    + intros l p _ _. reflexivity.
  - apply (rotation_advances_modulo net_down sample_messages 1024 0
             sample_state sample_legacy_state (or_intror Hst) Hold).
    + unfold registry_size. cbn. lia.
    + intros l p _ _. reflexivity.
Defined.

(** C6 on the sample managers, the local backend being down. *)
Lemma result_carries_what_was_served_witness :
  (∃ r st',
     Bot.generate net_local_down sample_messages 1024 sample_state
       = Some (Ok r, st')
     ∧ result_carries net_local_down sample_state r st')
  ∧ (∃ r st',
       Legacy.generate net_local_down sample_messages 1024 sample_legacy_state
         = Some (Ok r, st')
       ∧ result_carries net_local_down sample_legacy_state r st').
Proof.
  apply result_carries_what_was_served; [right|]; sample_well_formed.
Defined.

(** C8 on the sample managers after an outage, every backend answering
    again: the current provider, [OPENAI], serves a request, and the local
    one, which is not the current one, passes a health check; both keep
    the error of the outage. *)
Lemma success_keeps_last_error_witness :
  (∃ r st' p',
     Bot.attempt net_up sample_messages 1024 0
       (registry_size sample_outage_state) sample_outage_state
       = Some (Ok (Some r), st')
     ∧ heap st' !! 1%nat = Some p'
     ∧ healthy p' = true ∧ last_error p' = Some "Cannot connect to host")
  ∧ (∃ st' p',
       Bot.health_check net_up (Some 0%nat) sample_outage_state
         = Some (Ok true, st')
       ∧ heap st' !! 0%nat = Some p'
       ∧ healthy p' = true ∧ last_error p' = Some "Cannot connect to host")
  ∧ (∃ r st' q',
       Legacy.attempt net_up sample_messages 1024 0
         (registry_size sample_legacy_outage_state) sample_legacy_outage_state
         = Some (Ok (Some r), st')
       ∧ heap st' !! 1%nat = Some q'
       ∧ healthy q' = true ∧ last_error q' = Some "Cannot connect to host")
  ∧ (∃ st' q',
       Legacy.health_check net_up (Some 0%nat) sample_legacy_outage_state
         = Some (Ok true, st')
       ∧ heap st' !! 0%nat = Some q'
       ∧ healthy q' = true ∧ last_error q' = Some "Cannot connect to host").
Proof.
  assert (well_formed sample_outage_state) as Hst by sample_well_formed.
  assert (well_formed sample_legacy_outage_state) as Hold by sample_well_formed.
  destruct (success_keeps_last_error net_up sample_messages 1024 0
              sample_outage_state sample_legacy_outage_state
              1%nat _ 1%nat _ 0%nat _ 0%nat _
              ltac:(lia) Hst eq_refl eq_refl eq_refl Hold eq_refl eq_refl eq_refl)
    as (Hgen & Hcheck & _ & Hgen' & Hcheck' & _).
  split_and!.
  - eassert (Bot.attempt net_up sample_messages 1024 0
               (registry_size sample_outage_state) sample_outage_state
             = Some (Ok (Some _), _)) as Hrun by (vm_compute; reflexivity).
    destruct (Hgen _ _ Hrun) as (p' & Hp' & Hh & He).
    eexists _, _, p'. split_and!; [exact Hrun | exact Hp' | exact Hh | exact He].
  - eassert (Bot.health_check net_up (Some 0%nat) sample_outage_state
             = Some (Ok true, _)) as Hrun by (vm_compute; reflexivity).
    destruct (Hcheck _ Hrun) as (p' & Hp' & Hh & He).
    eexists _, p'. split_and!; [exact Hrun | exact Hp' | exact Hh | exact He].
  - eassert (Legacy.attempt net_up sample_messages 1024 0
               (registry_size sample_legacy_outage_state)
               sample_legacy_outage_state
             = Some (Ok (Some _), _)) as Hrun by (vm_compute; reflexivity).
    destruct (Hgen' _ _ Hrun) as (q' & Hq' & Hh & He).
    eexists _, _, q'. split_and!; [exact Hrun | exact Hq' | exact Hh | exact He].
  - eassert (Legacy.health_check net_up (Some 0%nat) sample_legacy_outage_state
             = Some (Ok true, _)) as Hrun by (vm_compute; reflexivity).
    destruct (Hcheck' _ Hrun) as (q' & Hq' & Hh & He).
    eexists _, q'. split_and!; [exact Hrun | exact Hq' | exact Hh | exact He].
Defined.

(** C9 on the sample managers after one operation of each kind: a
    message answered by the fallback, the local backend being down, then a
    rotation, then a health check of the local provider. *)
Lemma index_stays_within_registry_witness :
  registry_invariant Bot.__init__ sample_config sample_probed
  ∧ registry_invariant Legacy.__init__ sample_legacy_config sample_legacy_probed
  ∧ index_valid sample_legacy_probed.
Proof.
  apply index_stays_within_registry.
  - apply reachable_step with sample_rotated;
      [apply reachable_step with sample_served;
         [apply reachable_step with sample_state; [by apply reachable_init|]|]|].
    + eapply (step_generate _ _ _ net_local_down (user_messages "hi") 1024).
      vm_compute. reflexivity.
    + eapply step_rotate. vm_compute. reflexivity.
    + eapply (step_health_check _ _ _ net_up (Some 0%nat)).
      * intros l [= <-]. by eexists.
      * vm_compute. reflexivity.
  - apply reachable_step with sample_legacy_rotated;
      [apply reachable_step with sample_legacy_served;
         [apply reachable_step with sample_legacy_state;
            [by apply reachable_init|]|]|].
    + eapply (step_generate _ _ _ net_local_down (user_messages "hi") 1024).
      vm_compute. reflexivity.
    + eapply step_rotate. vm_compute. reflexivity.
    + eapply (step_health_check _ _ _ net_up (Some 0%nat)).
      * intros l [= <-]. by eexists.
      * vm_compute. reflexivity.
Defined.

(** C10 on the sample managers, the backend answering 503. *)
Lemma latency_written_on_status_200_witness :
  (∃ out st' p',
     Bot.attempt net_unavailable sample_messages 1024 0
       (registry_size sample_local_state) sample_local_state
       = Some (Ok out, st')
     ∧ heap st' !! 0%nat = Some p'
     ∧ latency_written
         (net_unavailable (length (sent sample_local_state))
            (generate_request sample_messages 1024 sample_local))
         sample_local p'
     ∧ (out = None → healthy p' = false ∧ is_Some (last_error p')))
  ∧ (∃ out st' q',
       Legacy.attempt net_unavailable sample_messages 1024 0
         (registry_size sample_legacy_state) sample_legacy_state
         = Some (Ok out, st')
       ∧ heap st' !! 0%nat = Some q'
       ∧ latency_written
           (net_unavailable (length (sent sample_legacy_state))
              (generate_request sample_messages 1024 sample_local))
           sample_local q'
       ∧ (out = None → healthy q' = false ∧ is_Some (last_error q')))
  ∧ (∀ r t,
       net_unavailable (length (sent sample_local_state))
         (health_request sample_local) = Answered r t →
       ∃ b st' p',
         Bot.health_check net_unavailable (Some 0%nat) sample_local_state
           = Some (Ok b, st')
         ∧ heap st' !! 0%nat = Some p' ∧ latency_ms p' = t)
  ∧ (∀ r t,
       net_unavailable (length (sent sample_legacy_state))
         (health_request sample_local) = Answered r t →
       ∃ b st' q',
         Legacy.health_check net_unavailable (Some 0%nat) sample_legacy_state
           = Some (Ok b, st')
         ∧ heap st' !! 0%nat = Some q' ∧ latency_ms q' = t).
Proof.
  apply (latency_written_on_status_200 net_unavailable sample_messages 1024 0
           sample_local_state sample_legacy_state 0%nat sample_local
           0%nat sample_local);
    first [ lia | reflexivity | sample_well_formed ].
Defined.

(** ** The scenarios of the specification *)

(** [LOCAL] unreachable, [OPENAI] reachable: one failed and one successful
    attempt, and the index ends at 1. *)
Example scenario_fallback :
  ∃ st' p,
    Bot.generate net_local_down sample_messages 1024 sample_state
      = Some (Ok (Success "OPENAI" "gpt-4o-mini" (JStr "hello") 12%float), st')
    ∧ contacted sample_state st' = [0%nat; 1%nat]
    ∧ current_provider_index (self st') = 1
    ∧ heap st' !! 0%nat = Some p
    ∧ healthy p = false
    ∧ last_error p = Some "Cannot connect to host".
Proof. eexists _, _. vm_compute. split_and!; reflexivity. Qed.

(** A single reachable provider: one attempt, and the index stays 0. *)
Example scenario_single_provider :
  ∃ st',
    Bot.generate net_up sample_messages 1024 sample_local_state
      = Some (Ok (Success "LOCAL" "llama3" (JStr "hello") 12%float), st')
    ∧ contacted sample_local_state st' = [0%nat]
    ∧ current_provider_index (self st') = 0.
Proof. eexists. vm_compute. split_and!; reflexivity. Qed.

(** Two unreachable providers: two failed attempts, and the index ends at
    1, the provider tried last. *)
Example scenario_outage :
  ∃ st',
    Bot.generate net_down sample_messages 1024 sample_state
      = Some (Ok (Failure "All providers failed" "NONE"), st')
    ∧ contacted sample_state st' = [0%nat; 1%nat]
    ∧ current_provider_index (self st') = 1.
Proof. eexists. vm_compute. split_and!; reflexivity. Qed.

(** The same calls on the older manager. *)
Example scenario_legacy :
  ∃ st' st'',
    Legacy.generate net_local_down sample_messages 1024 sample_legacy_state
      = Some (Ok (Success "OPENAI" "gpt-4o-mini" (JStr "hello") 12%float), st')
    ∧ current_provider_index (self st') = 1
    ∧ Legacy.generate net_down sample_messages 1024 sample_legacy_state
      = Some (Ok (Failure "All providers failed" "NONE"), st'')
    ∧ current_provider_index (self st'') = 1.
Proof. eexists _, _. vm_compute. split_and!; reflexivity. Qed.

(** * More properties of the manager *)

(** ** Text *)

Lemma all_chars_app P (a b : string) :
  all_chars P (a +:+ b) = all_chars P a && all_chars P b.
Proof.
  induction a as [|c a IH]; [done|].
  change (String c a +:+ b) with (String c (a +:+ b)). cbn [all_chars].
  by rewrite IH, andb_assoc.
Qed.

Lemma all_chars_impl (P Q : ascii → bool) s :
  (∀ c, P c = true → Q c = true) → all_chars P s = true → all_chars Q s = true.
Proof.
  intros HPQ. induction s as [|c s IH]; [done|]. cbn [all_chars].
  intros [Hc Hs]%andb_true_iff. by rewrite (HPQ c Hc), IH.
Qed.

Lemma str_chars_nil s : str_chars s = [] → s = "".
Proof.
  destruct s as [|c s]; [done|]. cbn [str_chars].
  destruct (str_chars s); [done|]. by destruct (starts_continuation s).
Qed.

Lemma str_chars_cons c s :
  str_chars (String c s)
  = if starts_continuation s
    then match str_chars s with
         | ch :: rest => String c ch :: rest
         | [] => [String c ""]
         end
    else String c "" :: str_chars s.
Proof.
  cbn [str_chars]. destruct (str_chars s) as [|ch rest] eqn:Hs.
  - apply str_chars_nil in Hs as ->. done.
  - done.
Qed.

Lemma str_app_assoc (a b c : string) : (a +:+ b) +:+ c = a +:+ b +:+ c.
Proof.
  induction a as [|x a IH]; [done|].
  change (String x a +:+ ?y) with (String x (a +:+ y)).
  change (String x (a +:+ b) +:+ c) with (String x ((a +:+ b) +:+ c)).
  by rewrite IH.
Qed.

Lemma str_of_chars_cons ch l : str_of_chars (ch :: l) = ch +:+ str_of_chars l.
Proof. done. Qed.

Lemma str_of_chars_app l k :
  str_of_chars (l ++ k) = str_of_chars l +:+ str_of_chars k.
Proof.
  induction l as [|ch l IH]; [done|]. cbn [app]. rewrite !str_of_chars_cons, IH.
  by rewrite str_app_assoc.
Qed.

(** The characters of a text, put together again, are the text. *)
Lemma str_of_chars_str_chars s : str_of_chars (str_chars s) = s.
Proof.
  induction s as [|c s IH]; [done|]. rewrite str_chars_cons.
  destruct (starts_continuation s).
  - destruct (str_chars s) as [|ch rest] eqn:Hs.
    + apply str_chars_nil in Hs as ->. done.
    + rewrite str_of_chars_cons in *.
      change (String c ch +:+ ?b) with (String c (ch +:+ b)). by rewrite IH.
  - rewrite str_of_chars_cons. cbn. by rewrite IH.
Qed.

Lemma str_chars_ok s : chars_ok (str_chars s).
Proof.
  induction s as [|c s [IH1 IH2]]; [by split|]. rewrite str_chars_cons.
  destruct (starts_continuation s) eqn:Hs.
  - destruct (str_chars s) as [|ch rest] eqn:Hchars.
    + split; [|done]. constructor; [|done]. by exists c, "".
    + apply Forall_cons in IH1 as [(d & r & -> & Hr) IH1].
      split; [|done]. constructor; [|done]. exists c, (String d r).
      split; [done|]. cbn [all_chars]. rewrite Hr, andb_true_r.
      pose proof (str_of_chars_str_chars s) as Hback. rewrite Hchars in Hback.
      rewrite <- Hback in Hs. done.
  - split.
    + constructor; [by exists c, ""|done].
    + cbn [tail]. destruct (str_chars s) as [|ch rest] eqn:Hchars; [done|].
      constructor; [|done].
      pose proof (str_of_chars_str_chars s) as Hback. rewrite Hchars in Hback.
      rewrite <- Hback in Hs. apply Forall_cons in IH1 as [(d & r & -> & _) _].
      done.
Qed.

Lemma str_chars_char c rest s :
  all_chars is_continuation rest = true → starts_continuation s = false →
  str_chars (String c rest +:+ s) = String c rest :: str_chars s.
Proof.
  intros Hrest Hs. revert c. induction rest as [|d rest IH]; intros c.
  - change (String c "" +:+ s) with (String c s).
    by rewrite str_chars_cons, Hs.
  - cbn [all_chars] in Hrest. apply andb_true_iff in Hrest as [Hd Hrest].
    change (String c (String d rest) +:+ s) with (String c (String d rest +:+ s)).
    rewrite str_chars_cons.
    change (starts_continuation (String d rest +:+ s)) with (is_continuation d).
    rewrite Hd. by rewrite (IH Hrest d).
Qed.

(** Characters put together and taken apart again are the same
    characters. *)
Lemma str_chars_str_of_chars l : chars_ok l → str_chars (str_of_chars l) = l.
Proof.
  induction l as [|ch l IH]; [done|]. intros [Hall Htail].
  apply Forall_cons in Hall as [(c & rest & -> & Hrest) Hall].
  cbn [tail] in Htail. rewrite str_of_chars_cons.
  rewrite str_chars_char; [| done |].
  - f_equal. apply IH. split; [done|]. destruct l; [done|].
    by apply Forall_cons in Htail as [_ ?].
  - destruct l as [|ch' l']; [done|].
    apply Forall_cons in Htail as [Hch' _].
    apply Forall_cons in Hall as [(c' & rest' & -> & _) _]. done.
Qed.

Lemma chars_ok_prefix l k : chars_ok (l ++ k) → chars_ok l.
Proof.
  intros [Hall Htail]. apply Forall_app in Hall as [Hall _]. split; [done|].
  destruct l as [|ch l]; [done|]. cbn [app tail] in *.
  by apply Forall_app in Htail as [? _].
Qed.

Lemma chars_ok_suffix l k : chars_ok (l ++ k) → chars_ok k.
Proof.
  intros [Hall Htail]. apply Forall_app in Hall as [_ Hall]. split; [done|].
  destruct l as [|ch l]; [done|]. cbn [app tail] in *.
  apply Forall_app in Htail as [_ Htail]. destruct k; [done|].
  by apply Forall_cons in Htail as [_ ?].
Qed.

Lemma drop_spaces_suffix l : ∃ k, l = k ++ drop_spaces l.
Proof.
  induction l as [|ch l [k IH]]; [by exists []|]. cbn [drop_spaces].
  destruct (isspace (code_point ch)); [|by exists []].
  exists (ch :: k). cbn. by rewrite <- IH.
Qed.

Lemma drop_spaces_idemp l : drop_spaces (drop_spaces l) = drop_spaces l.
Proof.
  induction l as [|ch l IH]; [done|]. cbn [drop_spaces].
  destruct (isspace (code_point ch)) eqn:Hch; [done|]. cbn [drop_spaces].
  by rewrite Hch.
Qed.

Lemma stripped_sublist l : ∃ k1 k2, l = k1 ++ stripped l ++ k2.
Proof.
  unfold stripped. destruct (drop_spaces_suffix l) as [k1 H1].
  destruct (drop_spaces_suffix (rev (drop_spaces l))) as [k2 H2].
  exists k1, (rev k2). rewrite <- rev_app_distr, <- H2, rev_involutive. done.
Qed.

Lemma stripped_ok l : chars_ok l → chars_ok (stripped l).
Proof.
  intros Hok. destruct (stripped_sublist l) as (k1 & k2 & Hl).
  rewrite Hl in Hok. by apply chars_ok_suffix, chars_ok_prefix in Hok.
Qed.

Lemma drop_spaces_head l :
  match l with
  | [] => True
  | ch :: _ => isspace (code_point ch) = false
  end → drop_spaces l = l.
Proof. destruct l as [|ch l]; [done|]. cbn [drop_spaces]. by intros ->. Qed.

Lemma drop_spaces_head_ok l :
  match drop_spaces l with
  | [] => True
  | ch :: _ => isspace (code_point ch) = false
  end.
Proof.
  induction l as [|ch l IH]; [done|]. cbn [drop_spaces].
  by destruct (isspace (code_point ch)) eqn:Hch.
Qed.

Lemma stripped_idemp l : stripped (stripped l) = stripped l.
Proof.
  unfold stripped.
  set (m := drop_spaces l).
  assert (drop_spaces (rev (drop_spaces (rev m))) = rev (drop_spaces (rev m)))
    as ->.
  { apply drop_spaces_head.
    destruct (drop_spaces_suffix (rev m)) as [k Hk].
    pose proof (drop_spaces_head_ok l) as Hhead. fold m in Hhead.
    assert (m = rev (drop_spaces (rev m)) ++ rev k) as Hm.
    { rewrite <- rev_app_distr, <- Hk. by rewrite rev_involutive. }
    destruct (rev (drop_spaces (rev m))) as [|ch r]; [done|].
    rewrite Hm in Hhead. done. }
  by rewrite rev_involutive, drop_spaces_idemp.
Qed.

Lemma strip_chars s : str_chars (strip s) = stripped (str_chars s).
Proof.
  unfold strip. apply str_chars_str_of_chars, stripped_ok, str_chars_ok.
Qed.

Lemma strip_idemp s : strip (strip s) = strip s.
Proof.
  unfold strip at 1. rewrite strip_chars, stripped_idemp. done.
Qed.

Lemma all_chars_str_of_chars P l :
  all_chars P (str_of_chars l) = true ↔ Forall (λ ch, all_chars P ch = true) l.
Proof.
  induction l as [|ch l IH]; [done|].
  rewrite str_of_chars_cons, all_chars_app, andb_true_iff, IH, Forall_cons.
  done.
Qed.

Lemma Forall_drop_spaces (P : string → Prop) l :
  Forall P l → Forall P (drop_spaces l).
Proof.
  intros Hl. destruct (drop_spaces_suffix l) as [k Hk]. rewrite Hk in Hl.
  by apply Forall_app in Hl as [_ ?].
Qed.

Lemma Forall_stripped (P : string → Prop) l : Forall P l → Forall P (stripped l).
Proof.
  intros Hl. destruct (stripped_sublist l) as (k1 & k2 & Hk). rewrite Hk in Hl.
  apply Forall_app in Hl as [_ Hl]. by apply Forall_app in Hl as [? _].
Qed.

Lemma all_chars_strip P s : all_chars P s = true → all_chars P (strip s) = true.
Proof.
  intros Hs. unfold strip.
  apply all_chars_str_of_chars, Forall_stripped, all_chars_str_of_chars.
  by rewrite str_of_chars_str_chars.
Qed.

(** A text without white space at either end is its own [strip]. *)
Lemma stripped_no_space l :
  Forall (λ ch, isspace (code_point ch) = false) l → stripped l = l.
Proof.
  intros Hl. unfold stripped.
  rewrite (drop_spaces_head l) by (destruct l; [done | by apply Forall_cons in Hl as [? _]]).
  rewrite (drop_spaces_head (rev l)); [apply rev_involutive|].
  apply Forall_rev in Hl. destruct (rev l); [done|].
  by apply Forall_cons in Hl as [? _].
Qed.

(** The characters of a text made of signs and digits are its bytes. *)
Lemma str_chars_digits s :
  all_chars is_sign_or_digit s = true →
  Forall (λ ch, ∃ c, ch = String c "" ∧ is_sign_or_digit c = true) (str_chars s).
Proof.
  induction s as [|c s IH]; [done|]. cbn [all_chars].
  intros [Hc Hs]%andb_true_iff. specialize (IH Hs). rewrite str_chars_cons.
  assert (starts_continuation s = false) as ->.
  { destruct s as [|d s]; [done|]. cbn [all_chars] in Hs.
    apply andb_true_iff in Hs as [Hd _]. cbn [starts_continuation].
    unfold is_sign_or_digit, is_continuation, byte in *. lia. }
  constructor; [by exists c | done].
Qed.

Lemma digit_not_space c :
  is_sign_or_digit c = true → isspace (code_point (String c "")) = false.
Proof.
  unfold is_sign_or_digit, isspace, code_point, continuation_bits, byte.
  intros Hc. destruct (Z.ltb_spec (Z.of_nat (nat_of_ascii c)) 128); lia.
Qed.

Lemma str_len_cons c s :
  str_len (String c s)
  = (str_len s + if starts_continuation s then 0 else 1)%nat.
Proof.
  unfold str_len. rewrite str_chars_cons.
  destruct (starts_continuation s) eqn:Hs; [|cbn; lia].
  destruct (str_chars s) as [|ch rest] eqn:Hchars; [|cbn; lia].
  apply str_chars_nil in Hchars as ->. done.
Qed.

(** A text has at most as many characters as its parts. *)
Lemma str_len_app (a b : string) :
  (str_len (a +:+ b) ≤ str_len a + str_len b)%nat.
Proof.
  induction a as [|c a IH]; [done|].
  change (String c a +:+ b) with (String c (a +:+ b)). rewrite !str_len_cons.
  destruct a as [|d a].
  - change ("" +:+ b) with b. cbn [starts_continuation].
    destruct (starts_continuation b); unfold str_len; cbn; lia.
  - change (starts_continuation (String d a +:+ b))
      with (starts_continuation (String d a)). lia.
Qed.

(** [s[:n]] has at most [n] characters. *)
Lemma str_len_slice_to n s : (str_len (str_slice_to n s) ≤ n)%nat.
Proof.
  unfold str_len, str_slice_to. rewrite str_chars_str_of_chars.
  - rewrite length_take. lia.
  - pose proof (str_chars_ok s) as Hok.
    rewrite <- (take_drop n (str_chars s)) in Hok.
    by apply chars_ok_prefix in Hok.
Qed.

(** ** Diagnostics *)

Lemma completion_content_shape body content :
  completion_content body = Ok content ↔ completion_shaped body content.
Proof.
  unfold completion_content, completion_shaped. split.
  - destruct body as [| | | | |items|fields]; try done. cbn [getitem_str].
    destruct (dict_get fields "choices") as [choices|] eqn:Hch; [|done].
    destruct choices as [| | | |s|items|cf]; try done.
    + cbn [getitem_int]. destruct (str_index s 0); done.
    + cbn [getitem_int]. destruct items as [|first rest]; [done|].
      change (py_index (first :: rest) 0) with (Some first).
      destruct first as [| | | | | |cfields]; try done. cbn [getitem_str].
      destruct (dict_get cfields "message") as [message|] eqn:Hm; [|done].
      destruct message as [| | | | | |mfields]; try done. cbn [getitem_str].
      destruct (dict_get mfields "content") as [c|] eqn:Hc; [|done].
      intros [= <-]. by exists fields, (JDict cfields), rest, cfields, mfields.
  - intros (fields & first & rest & cfields & mfields & -> & Hch & -> & Hm & Hc).
    cbn [getitem_str]. rewrite Hch. cbn [getitem_int].
    change (py_index (JDict cfields :: rest) 0) with (Some (JDict cfields)).
    cbn [getitem_str]. rewrite Hm. cbn [getitem_str]. by rewrite Hc.
Qed.

Lemma Bot_outcome_served_iff reply content t :
  Bot.outcome reply = Served content t ↔
  ∃ resp body,
    reply = Answered resp t ∧ status resp = 200
    ∧ resp_json resp = Ok body ∧ completion_shaped body content.
Proof.
  split.
  - intros (resp & body & ? & ? & ? & ?)%Bot_outcome_served.
    exists resp, body. by rewrite <- completion_content_shape.
  - intros (resp & body & -> & Hs & Hj & Hc%completion_content_shape).
    unfold Bot.outcome. by rewrite Hs, Hj, Hc.
Qed.

Lemma Legacy_outcome_served_iff reply content t :
  Legacy.outcome reply = Served content t ↔
  ∃ resp body,
    reply = Answered resp t ∧ status resp = 200
    ∧ resp_json resp = Ok body ∧ completion_shaped body content.
Proof.
  split.
  - intros (resp & body & ? & ? & ? & ?)%Legacy_outcome_served.
    exists resp, body. by rewrite <- completion_content_shape.
  - intros (resp & body & -> & Hs & Hj & Hc%completion_content_shape).
    unfold Legacy.outcome. by rewrite Hs, Hj, Hc.
Qed.

(** X1.  A pass through the loop of [generate] returns a success exactly
    when the current provider answers with status 200 and a JSON body in
    which [choices] is a non-empty list whose first element is an object
    with a [message] object holding [content]; the success then carries
    that content and the elapsed time of the answer. *)
Theorem served_iff_completion_shaped net messages max_tokens attempts
    (st : State Bot.Config) (old : State Legacy.Config) l p l' q content t :
  0 ≤ attempts →
  well_formed st → current_ref st = Some l → heap st !! l = Some p →
  well_formed old → current_ref old = Some l' → heap old !! l' = Some q →
  ((∃ st',
      Bot.attempt net messages max_tokens attempts (registry_size st) st
        = Some (Ok (Some (Success (name p) (model p) content t)), st'))
   ↔ ∃ resp body,
       net (length (sent st)) (generate_request messages max_tokens p)
         = Answered resp t
       ∧ status resp = 200 ∧ resp_json resp = Ok body
       ∧ completion_shaped body content)
  ∧ ((∃ st',
        Legacy.attempt net messages max_tokens attempts (registry_size old) old
          = Some (Ok (Some (Success (name q) (model q) content t)), st'))
     ↔ ∃ resp body,
         net (length (sent old)) (generate_request messages max_tokens q)
           = Answered resp t
         ∧ status resp = 200 ∧ resp_json resp = Ok body
         ∧ completion_shaped body content).
Proof.
  intros Ha Hst Hl Hp Hold Hl' Hq. split.
  - rewrite <- Bot_outcome_served_iff.
    rewrite (Bot_attempt_exec _ _ _ _ _ _ l p) by done.
    destruct (Bot.outcome _) as [c t' | e measured]; split.
    + intros [st' [= -> ->]]. done.
    + intros [= -> ->]. by eexists.
    + by intros [st' ?].
    + done.
  - rewrite <- Legacy_outcome_served_iff.
    rewrite (Legacy_attempt_exec _ _ _ _ _ _ l' q) by done.
    destruct (Legacy.outcome _) as [c t' | e measured]; split.
    + intros [st' [= -> ->]]. done.
    + intros [= -> ->]. by eexists.
    + by intros [st' ?].
    + done.
Qed.

(** X2.  What [last_error] holds after an answer with another status
    than 200.  In [src/bot.py] it is ["HTTP <status>: "] followed by the
    first 200 characters of the body, whatever bytes they take, so at
    most 207 characters longer than the status, or, when reading the body
    raised, the text of that exception; in [src/clawdbot/bot.py] it is
    ["HTTP <status>"] alone. *)
Theorem refused_status_diagnostic net messages max_tokens attempts
    (st : State Bot.Config) (old : State Legacy.Config) l p l' q r t r' t' :
  0 ≤ attempts →
  well_formed st → current_ref st = Some l → heap st !! l = Some p →
  net (length (sent st)) (generate_request messages max_tokens p) = Answered r t →
  status r ≠ 200 →
  well_formed old → current_ref old = Some l' → heap old !! l' = Some q →
  net (length (sent old)) (generate_request messages max_tokens q)
    = Answered r' t' →
  status r' ≠ 200 →
  (∃ st' p' diagnostic,
     Bot.attempt net messages max_tokens attempts (registry_size st) st
       = Some (Ok None, st')
     ∧ heap st' !! l = Some p'
     ∧ last_error p' = Some diagnostic
     ∧ (∀ body,
          resp_text r = Ok body →
          diagnostic
            = "HTTP " +:+ pretty (status r) +:+ ": " +:+ str_slice_to 200 body
          ∧ (str_len diagnostic ≤ str_len (pretty (status r)) + 207)%nat)
     ∧ (∀ e, resp_text r = Raise e → diagnostic = exc_str e))
  ∧ (∃ st' q',
       Legacy.attempt net messages max_tokens attempts (registry_size old) old
         = Some (Ok None, st')
       ∧ heap st' !! l' = Some q'
       ∧ last_error q' = Some ("HTTP " +:+ pretty (status r'))).
Proof.
  intros Ha Hst Hl Hp Hnet Hs Hold Hl' Hq Hnet' Hs'. split.
  - rewrite (Bot_attempt_exec _ _ _ _ _ _ l p) by done. rewrite Hnet.
    unfold Bot.outcome. destruct (Z.eqb_spec (status r) 200) as [|_]; [done|].
    destruct (resp_text r) as [body|e].
    + eexists _, _,
        ("HTTP " +:+ pretty (status r) +:+ ": " +:+ str_slice_to 200 body).
      split_and!; [done | by apply heap_failed_state | done | | done].
      intros ? [= <-]. split; [done|].
      pose proof (str_len_app "HTTP "
                    (pretty (status r) +:+ ": " +:+ str_slice_to 200 body)).
      pose proof (str_len_app (pretty (status r)) (": " +:+ str_slice_to 200 body)).
      pose proof (str_len_app ": " (str_slice_to 200 body)).
      pose proof (str_len_slice_to 200 body).
      change (str_len "HTTP ") with 5%nat in *.
      change (str_len ": ") with 2%nat in *. lia.
    + eexists _, _, (exc_str e).
      split_and!; [done | by apply heap_failed_state | done | done |].
      by intros ? [= <-].
  - rewrite (Legacy_attempt_exec _ _ _ _ _ _ l' q) by done. rewrite Hnet'.
    unfold Legacy.outcome. destruct (Z.eqb_spec (status r') 200) as [|_]; [done|].
    eexists _, _. split_and!; [done | by apply heap_failed_state | done].
Qed.

Lemma outcome_unreadable r t body e :
  status r = 200 → resp_json r = Ok body → completion_content body = Raise e →
  Bot.outcome (Answered r t) = Failed e (Some t)
  ∧ Legacy.outcome (Answered r t) = Failed e (Some t).
Proof.
  intros Hs Hj Hc. unfold Bot.outcome, Legacy.outcome. by rewrite Hs, Hj, Hc.
Qed.

(** X3.  An answer with status 200 whose body holds no completion makes
    the attempt fail like any other: the provider is marked unhealthy with
    the text of the exception the lookup raised, its latency being already
    written.  That text is ['choices'] when the key is missing, [list
    index out of range] when the list is empty, and ['NoneType' object is
    not subscriptable] when the body is [null]. *)
Theorem unreadable_answer_diagnostic net messages max_tokens attempts
    (st : State Bot.Config) (old : State Legacy.Config) l p l' q r t body e :
  0 ≤ attempts →
  well_formed st → current_ref st = Some l → heap st !! l = Some p →
  net (length (sent st)) (generate_request messages max_tokens p) = Answered r t →
  well_formed old → current_ref old = Some l' → heap old !! l' = Some q →
  net (length (sent old)) (generate_request messages max_tokens q) = Answered r t →
  status r = 200 → resp_json r = Ok body → completion_content body = Raise e →
  (∃ st' p',
     Bot.attempt net messages max_tokens attempts (registry_size st) st
       = Some (Ok None, st')
     ∧ heap st' !! l = Some p'
     ∧ healthy p' = false ∧ last_error p' = Some (exc_str e)
     ∧ latency_ms p' = t)
  ∧ (∃ st' q',
       Legacy.attempt net messages max_tokens attempts (registry_size old) old
         = Some (Ok None, st')
       ∧ heap st' !! l' = Some q'
       ∧ healthy q' = false ∧ last_error q' = Some (exc_str e)
       ∧ latency_ms q' = t)
  ∧ (∀ fields,
       body = JDict fields → dict_get fields "choices" = None →
       exc_str e = "'choices'")
  ∧ (∀ fields,
       body = JDict fields → dict_get fields "choices" = Some (JList []) →
       exc_str e = "list index out of range")
  ∧ (body = JNull → exc_str e = "'NoneType' object is not subscriptable").
Proof.
  intros Ha Hst Hl Hp Hnet Hold Hl' Hq Hnet' Hs Hj Hc.
  destruct (outcome_unreadable r t body e Hs Hj Hc) as [Hbot Hleg].
  split_and!.
  - rewrite (Bot_attempt_exec _ _ _ _ _ _ l p) by done. rewrite Hnet, Hbot.
    eexists _, _. split_and!; [done | by apply heap_failed_state | done..].
  - rewrite (Legacy_attempt_exec _ _ _ _ _ _ l' q) by done. rewrite Hnet', Hleg.
    eexists _, _. split_and!; [done | by apply heap_failed_state | done..].
  - intros fields -> Hch. unfold completion_content in Hc. cbn in Hc.
    rewrite Hch in Hc. by injection Hc as <-.
  - intros fields -> Hch. unfold completion_content in Hc. cbn in Hc.
    rewrite Hch in Hc. cbn in Hc. by injection Hc as <-.
  - intros ->. by injection Hc as <-.
Qed.

Lemma times_S {Config R} (k : nat) (op : M Config R) (st st' : State Config) a :
  op st = Some (Ok a, st') → times (S k) op st = times k op st'.
Proof. intros H. cbn [times]. by erewrite bind_ok. Qed.

Section Cycle.
Context {Config R : Type}.
Implicit Types st : State Config.
Variable switch_op : M Config R.
Hypothesis switch_exec :
  ∀ st, well_formed st → 2 ≤ registry_size st →
    ∃ a, switch_op st = Some (Ok a, with_index (next_index st) st).

Lemma with_index_twice i j st : with_index j (with_index i st) = with_index j st.
Proof. done. Qed.

Lemma times_switch k st :
  well_formed st → 2 ≤ registry_size st →
  times k switch_op st
    = Some (Ok tt,
            with_index ((current_provider_index (self st) + Z.of_nat k)
                          `mod` registry_size st) st).
Proof.
  revert st. induction k as [|k IH]; intros st Hwf Hn.
  - cbn [times]. rewrite Z.add_0_r, Z.mod_small by apply Hwf.
    by rewrite with_index_same.
  - destruct (switch_exec st Hwf Hn) as [a Hsw].
    rewrite (times_S k switch_op st _ a Hsw).
    rewrite IH.
    + rewrite with_index_twice. do 3 f_equal.
      change (registry_size (with_index (next_index st) st)) with (registry_size st).
      cbn [with_index self current_provider_index]. unfold next_index.
      rewrite Zplus_mod_idemp_l. f_equal. lia.
    + apply with_index_well_formed; [apply Hwf|].
      apply (next_index_bounds st). lia.
    + done.
Qed.
End Cycle.

(** X4.  With two providers or more, [k] rotations in a row move the
    index by [k] modulo the size and touch nothing else; so
    [len(providers)] rotations bring the manager back to the state it was
    in. *)
Theorem rotation_cycles (k : nat) (st : State Bot.Config) (old : State Legacy.Config) :
  well_formed st → 2 ≤ registry_size st →
  well_formed old → 2 ≤ registry_size old →
  times k Bot.switch_to_next_provider st
    = Some (Ok tt,
            with_index ((current_provider_index (self st) + Z.of_nat k)
                          `mod` registry_size st) st)
  ∧ times k Legacy.switch_to_next_provider old
    = Some (Ok tt,
            with_index ((current_provider_index (self old) + Z.of_nat k)
                          `mod` registry_size old) old)
  ∧ times (length (providers (self st))) Bot.switch_to_next_provider st
    = Some (Ok tt, st)
  ∧ times (length (providers (self old))) Legacy.switch_to_next_provider old
    = Some (Ok tt, old).
Proof.
  intros Hst Hn Hold Hn'.
  assert (Hbot : ∀ st : State Bot.Config, well_formed st → 2 ≤ registry_size st →
            ∃ a, Bot.switch_to_next_provider st
                 = Some (Ok a, with_index (next_index st) st)).
  { intros st0 Hwf H2. exists tt. rewrite Bot_switch_exec by done.
    destruct (Z.leb_spec (registry_size st0) 1); [lia | done]. }
  assert (Hleg : ∀ st : State Legacy.Config, well_formed st → 2 ≤ registry_size st →
            ∃ a, Legacy.switch_to_next_provider st
                 = Some (Ok a, with_index (next_index st) st)).
  { intros st0 Hwf _. by apply Legacy_switch_exec. }
  assert (Hback : ∀ {C} (s : State C), well_formed s →
            with_index ((current_provider_index (self s)
                           + Z.of_nat (length (providers (self s))))
                          `mod` registry_size s) s = s).
  { intros C s [[H0 H1] _]. fold (registry_size s).
    rewrite <- (Z.mul_1_l (registry_size s)) at 1.
    rewrite Z_mod_plus_full, Z.mod_small by done. apply with_index_same. }
  split_and!.
  - by apply times_switch.
  - by apply times_switch.
  - rewrite (times_switch _ Hbot) by done. by rewrite Hback.
  - rewrite (times_switch _ Hleg) by done. by rewrite Hback.
Qed.

Section Marks.
Context {Config : Type}.
Implicit Types st : State Config.
Variable outcome : Reply → Outcome.
Variable net : Network.
Variable messages : list Message.
Variable max_tokens : Z.

Lemma contacted_failed_step l p req e measured attempts max_attempts st st' new :
  sent st' = sent (failed_state l p req e measured attempts max_attempts st) ++ new →
  contacted st st' = l :: new.*1.
Proof.
  intros Hlog. unfold contacted. rewrite Hlog.
  assert (sent (failed_state l p req e measured attempts max_attempts st)
          = sent st ++ [(l, req)]) as ->
    by (unfold failed_state; by destruct (_ <? _)).
  rewrite <- app_assoc, drop_app_length. done.
Qed.

Lemma heap_failed_state_ne l l' p req e measured attempts max_attempts st :
  l ≠ l' →
  heap (failed_state l p req e measured attempts max_attempts st) !! l'
    = heap st !! l'.
Proof.
  intros Hne. unfold failed_state.
  destruct (_ <? _); cbn; by rewrite list_lookup_insert_ne.
Qed.

(** Objects a run did not contact are as they were. *)
Lemma runs_frame max_attempts attempts st r st' :
  runs outcome net messages max_tokens max_attempts attempts st r st' →
  0 ≤ attempts → max_attempts = registry_size st → well_formed st →
  ∀ l, l ∉ contacted st st' → heap st' !! l = heap st !! l.
Proof.
  induction 1 as [a st Hge | a st l0 p content t Hlt Hl Hp Hout
                 | a st l0 p e measured r st' Hlt Hl Hp Hout Hruns IH];
    intros Ha Hn Hwf l Hnot.
  - done.
  - unfold contacted, served_state in Hnot. cbn in Hnot.
    rewrite drop_app_length in Hnot. cbn in Hnot.
    unfold served_state. cbn. rewrite list_lookup_insert_ne; [done|].
    intros ->. apply Hnot. by left.
  - set (st1 := failed_state l0 p (generate_request messages max_tokens p) e
                  measured a max_attempts st) in *.
    assert (well_formed st1) as Hwf1 by (by apply failed_state_well_formed).
    assert (max_attempts = registry_size st1) as Hn1
      by (unfold st1; by rewrite failed_state_size).
    destruct (runs_fallback _ _ _ _ _ _ _ _ _ Hruns ltac:(lia) Hn1 Hwf1)
      as [new Hfb].
    pose proof (fb_log _ _ _ _ _ _ _ _ _ Hfb) as Hlog.
    rewrite (contacted_failed_step _ _ _ _ _ _ _ _ _ _ Hlog) in Hnot.
    rewrite IH; [| lia | done | done |].
    + apply heap_failed_state_ne. intros ->. apply Hnot. by left.
    + rewrite (contacted_app st1 st' new Hlog). intros Hin. apply Hnot.
      by right.
Qed.

(** A run that ends in failure leaves marked whatever it contacted and
    whatever was marked before. *)
Lemma runs_marks max_attempts attempts st r st' :
  runs outcome net messages max_tokens max_attempts attempts st r st' →
  0 ≤ attempts → max_attempts = registry_size st → well_formed st →
  success r = false →
  ∀ l,
    l ∈ contacted st st'
    ∨ (∃ p, heap st !! l = Some p ∧ marked_unhealthy p) →
    ∃ p', heap st' !! l = Some p' ∧ marked_unhealthy p'.
Proof.
  induction 1 as [a st Hge | a st l0 p content t Hlt Hl Hp Hout
                 | a st l0 p e measured r st' Hlt Hl Hp Hout Hruns IH];
    intros Ha Hn Hwf Hr l Hl0.
  - destruct Hl0 as [Hin | Hm]; [|done].
    unfold contacted in Hin. rewrite drop_all in Hin. by apply elem_of_nil in Hin.
  - done.
  - set (st1 := failed_state l0 p (generate_request messages max_tokens p) e
                  measured a max_attempts st) in *.
    assert (well_formed st1) as Hwf1 by (by apply failed_state_well_formed).
    assert (max_attempts = registry_size st1) as Hn1
      by (unfold st1; by rewrite failed_state_size).
    destruct (runs_fallback _ _ _ _ _ _ _ _ _ Hruns ltac:(lia) Hn1 Hwf1)
      as [new Hfb].
    pose proof (fb_log _ _ _ _ _ _ _ _ _ Hfb) as Hlog.
    apply IH; [lia | done | done | done |].
    assert (∃ p1, heap st1 !! l0 = Some p1 ∧ marked_unhealthy p1) as Hl0marked.
    { eexists. split; [by apply heap_failed_state|]. split; [done | by eexists]. }
    destruct Hl0 as [Hin | (p0 & Hp0 & Hm)].
    + rewrite (contacted_failed_step _ _ _ _ _ _ _ _ _ _ Hlog) in Hin.
      apply elem_of_cons in Hin as [-> | Hin]; [by right|].
      left. by rewrite (contacted_app st1 st' new Hlog).
    + right. destruct (decide (l0 = l)) as [<- | Hne]; [done|].
      exists p0. split; [|done]. unfold st1.
      by rewrite heap_failed_state_ne.
Qed.
End Marks.

Lemma Bot_generate_runs net messages max_tokens (st : State Bot.Config) :
  well_formed st →
  ∃ r st',
    Bot.generate net messages max_tokens st = Some (Ok r, st')
    ∧ runs Bot.outcome net messages max_tokens (registry_size st) 0 st r st'.
Proof.
  intros Hwf. unfold Bot.generate.
  destruct (providers (self st)) as [|l0 ps] eqn:Hps.
  { destruct Hwf as [[H0 Hn] _]. unfold registry_size in Hn. rewrite Hps in Hn.
    cbn in Hn. lia. }
  rewrite <- Hps. fold (registry_size st).
  apply (Bot_generate_loop_runs net messages max_tokens (registry_size st)
           _ 0 st eq_refl); (lia || done).
Qed.

Lemma Legacy_generate_runs net messages max_tokens (st : State Legacy.Config) :
  well_formed st →
  ∃ r st',
    Legacy.generate net messages max_tokens st = Some (Ok r, st')
    ∧ runs Legacy.outcome net messages max_tokens (registry_size st) 0 st r st'.
Proof.
  intros Hwf. unfold Legacy.generate. fold (registry_size st).
  apply (Legacy_generate_loop_runs net messages max_tokens (registry_size st)
           _ 0 st eq_refl); (lia || done).
Qed.

Section Outage.
Context {Config : Type}.
Implicit Types st : State Config.
Variable outcome : Reply → Outcome.
Variable generate_op : Network → list Message → Z → M Config Result.
Hypothesis generate_runs :
  ∀ net messages max_tokens st,
    well_formed st →
    ∃ r st',
      generate_op net messages max_tokens st = Some (Ok r, st')
      ∧ runs outcome net messages max_tokens (registry_size st) 0 st r st'.

Lemma generate_fallback_of_runs net messages max_tokens st :
  well_formed st →
  ∃ r st' new,
    generate_op net messages max_tokens st = Some (Ok r, st')
    ∧ fallback outcome net messages max_tokens 0 st r st' new.
Proof.
  intros Hwf.
  destruct (generate_runs net messages max_tokens st Hwf) as (r & st' & Hgen & Hruns).
  destruct (runs_fallback _ _ _ _ _ _ _ _ _ Hruns) as [new Hfb]; [lia | done | done |].
  eauto.
Qed.

Lemma all_fail_marks net messages max_tokens st :
  well_formed st → all_fail outcome net messages max_tokens st →
  ∃ st',
    generate_op net messages max_tokens st
      = Some (Ok (Failure "All providers failed" "NONE"), st')
    ∧ ∀ l, l ∈ providers (self st) →
        ∃ p', heap st' !! l = Some p' ∧ marked_unhealthy p'.
Proof.
  intros Hwf Hall.
  destruct (generate_runs net messages max_tokens st Hwf) as (r & st' & Hgen & Hruns).
  destruct (runs_fallback _ _ _ _ _ _ _ _ _ Hruns) as [new Hfb]; [lia | done | done |].
  destruct (all_fail_sticky outcome generate_op generate_fallback_of_runs
              net messages max_tokens st Hwf Hall)
    as (error & st'' & Hgen' & _).
  rewrite Hgen in Hgen'. injection Hgen' as -> <-.
  destruct (fb_failure _ _ _ _ _ _ _ _ _ Hfb eq_refl) as [[= ->] Hlen].
  exists st'. split; [done|]. intros l Hl.
  eapply runs_marks; [exact Hruns | lia | done | done | done |].
  left. rewrite (contacted_app st st' new) by apply Hfb.
  rewrite (fb_order _ _ _ _ _ _ _ _ _ Hfb).
  rewrite take_ge; [by apply elem_of_rotate|].
  rewrite length_rotate. unfold registry_size in Hlen. lia.
Qed.

Lemma uncontacted_unchanged net messages max_tokens st :
  well_formed st →
  ∃ r st',
    generate_op net messages max_tokens st = Some (Ok r, st')
    ∧ ∀ l, l ∉ contacted st st' → heap st' !! l = heap st !! l.
Proof.
  intros Hwf.
  destruct (generate_runs net messages max_tokens st Hwf) as (r & st' & Hgen & Hruns).
  exists r, st'. split; [done|].
  eapply runs_frame; [exact Hruns | lia | done | done].
Qed.
End Outage.

(** X5.  When every provider fails, [generate] leaves every provider of
    the registry marked: unhealthy, with a diagnostic. *)
Theorem outage_marks_every_provider net messages max_tokens
    (st : State Bot.Config) (old : State Legacy.Config) :
  well_formed st → all_fail Bot.outcome net messages max_tokens st →
  well_formed old → all_fail Legacy.outcome net messages max_tokens old →
  (∃ st',
     Bot.generate net messages max_tokens st
       = Some (Ok (Failure "All providers failed" "NONE"), st')
     ∧ ∀ l, l ∈ providers (self st) →
         ∃ p', heap st' !! l = Some p' ∧ marked_unhealthy p')
  ∧ (∃ st',
       Legacy.generate net messages max_tokens old
         = Some (Ok (Failure "All providers failed" "NONE"), st')
       ∧ ∀ l, l ∈ providers (self old) →
           ∃ q', heap st' !! l = Some q' ∧ marked_unhealthy q').
Proof.
  intros Hst Hall Hold Hall'. split.
  - eapply all_fail_marks; eauto using Bot_generate_runs.
  - eapply all_fail_marks; eauto using Legacy_generate_runs.
Qed.

(** X6.  [generate] writes only to the providers it contacted: every
    other object of the store is left exactly as it was. *)
Theorem generate_touches_only_contacted net messages max_tokens
    (st : State Bot.Config) (old : State Legacy.Config) :
  well_formed st → well_formed old →
  (∃ r st',
     Bot.generate net messages max_tokens st = Some (Ok r, st')
     ∧ ∀ l, l ∉ contacted st st' → heap st' !! l = heap st !! l)
  ∧ (∃ r st',
       Legacy.generate net messages max_tokens old = Some (Ok r, st')
       ∧ ∀ l, l ∉ contacted old st' → heap st' !! l = heap old !! l).
Proof.
  intros Hst Hold. split.
  - eapply uncontacted_unchanged; eauto using Bot_generate_runs.
  - eapply uncontacted_unchanged; eauto using Legacy_generate_runs.
Qed.

(** ** Where the requests go *)

Lemma request_of_backend p q req :
  backend p = backend q → request_of p req → request_of q req.
Proof.
  unfold backend, request_of. intros [= Hn Hb Hm Hk Ht].
  by rewrite Hb, Hm, Hk, Ht.
Qed.

Lemma request_of_generate messages max_tokens p :
  request_of p (generate_request messages max_tokens p).
Proof. done. Qed.

Lemma request_of_health p : request_of p (health_request p).
Proof. done. Qed.

Section Requests.
Context {Config : Type}.
Implicit Types st : State Config.

Lemma requests_from_new ps st st' new :
  backend <$> heap st = backend <$> ps →
  requests_from ps st →
  sent st' = sent st ++ new →
  (∀ l req, (l, req) ∈ new → ∃ p, heap st !! l = Some p ∧ request_of p req) →
  requests_from ps st'.
Proof.
  intros Hheap Hold Hlog Hnew l req Hin. rewrite Hlog in Hin.
  apply elem_of_app in Hin as [Hin | Hin]; [by apply Hold|].
  destruct (Hnew l req Hin) as (p & Hp & Hreq).
  destruct (backend_lookup _ _ _ _ Hheap Hp) as (p0 & Hp0 & Hb).
  exists p0. split; [done|]. by eapply request_of_backend.
Qed.

Lemma requests_from_with_index ps i st :
  requests_from ps st → requests_from ps (with_index i st).
Proof. done. Qed.

Lemma requests_from_probed ps net l p st :
  built_from ps st → requests_from ps st → heap st !! l = Some p →
  requests_from ps (probed_state net l p st).
Proof.
  intros (_ & Hheap & _) Hold Hp.
  eapply (requests_from_new ps st _ [(l, health_request p)]); [done | done | done |].
  intros l' req Hin. apply list_elem_of_singleton in Hin as [= -> ->].
  exists p. split; [done | apply request_of_health].
Qed.

Lemma requests_from_fallback ps outcome net messages max_tokens st r st' new :
  built_from ps st → requests_from ps st →
  fallback outcome net messages max_tokens 0 st r st' new →
  requests_from ps st'.
Proof.
  intros (_ & Hheap & _) Hold Hfb.
  eapply (requests_from_new ps st _ new); [done | done | apply Hfb |].
  intros l req Hin. apply list_elem_of_lookup in Hin as [j Hj].
  destruct (fb_requests _ _ _ _ _ _ _ _ _ Hfb _ _ _ Hj) as (p & Hp & ->).
  exists p. split; [done | apply request_of_generate].
Qed.
End Requests.

Lemma Bot_step_requests_from ps (st st' : State Bot.Config) :
  built_from ps st → requests_from ps st →
  step Bot.switch_to_next_provider Bot.generate Bot.health_check st st' →
  requests_from ps st'.
Proof.
  intros Hinv Hreq Hstep.
  destruct Hstep as [st out st' Hop | net messages max_tokens st out st' Hop
                    | net provider st out st' Hlive Hop].
  - destruct (built_from_cases ps st Hinv) as [Hnil | Hwf].
    + rewrite Bot_switch_small in Hop
        by (unfold registry_size; rewrite Hnil; cbn; lia).
      by injection Hop as _ <-.
    + rewrite Bot_switch_exec in Hop by done. injection Hop as _ <-.
      by destruct (registry_size st <=? 1).
  - destruct (built_from_cases ps st Hinv) as [Hnil | Hwf].
    + unfold Bot.generate in Hop. rewrite Hnil in Hop. by injection Hop as _ <-.
    + destruct (Bot_generate_fallback net messages max_tokens st Hwf)
        as (r & st'' & new & Hgen & Hfb).
      rewrite Hgen in Hop. injection Hop as _ <-.
      by eapply requests_from_fallback.
  - destruct provider as [l|].
    + destruct (Hlive l eq_refl) as [p Hp].
      erewrite Bot_health_check_exec in Hop by eauto. injection Hop as _ <-.
      by apply requests_from_probed.
    + destruct (built_from_cases ps st Hinv) as [Hnil | Hwf].
      * rewrite Bot_health_check_empty in Hop by done. by injection Hop as _ <-.
      * destruct (well_formed_current st Hwf) as (l & p & Hl & Hp).
        erewrite Bot_health_check_exec in Hop by eauto. injection Hop as _ <-.
        by apply requests_from_probed.
Qed.

Lemma Legacy_step_requests_from ps (st st' : State Legacy.Config) :
  ps ≠ [] → built_from ps st → requests_from ps st →
  step Legacy.switch_to_next_provider Legacy.generate Legacy.health_check st st' →
  requests_from ps st'.
Proof.
  intros Hps Hinv Hreq Hstep.
  assert (well_formed st) as Hwf.
  { destruct (built_from_cases ps st Hinv) as [Hnil | Hwf]; [|done].
    destruct Hinv as (Hreg & _). rewrite Hnil in Hreg.
    destruct ps; [done | discriminate]. }
  destruct Hstep as [st out st' Hop | net messages max_tokens st out st' Hop
                    | net provider st out st' Hlive Hop].
  - destruct (Legacy_switch_exec st Hwf) as [names Hsw].
    rewrite Hsw in Hop. by injection Hop as _ <-.
  - destruct (Legacy_generate_fallback net messages max_tokens st Hwf)
      as (r & st'' & new & Hgen & Hfb).
    rewrite Hgen in Hop. injection Hop as _ <-.
    by eapply requests_from_fallback.
  - destruct provider as [l|].
    + destruct (Hlive l eq_refl) as [p Hp].
      erewrite Legacy_health_check_exec in Hop by eauto. injection Hop as _ <-.
      by apply requests_from_probed.
    + destruct (well_formed_current st Hwf) as (l & p & Hl & Hp).
      erewrite Legacy_health_check_exec in Hop by eauto. injection Hop as _ <-.
      by apply requests_from_probed.
Qed.

Lemma Bot_reachable_requests (cfg : Bot.Config) (st : State Bot.Config) :
  reachable Bot.__init__ Bot.switch_to_next_provider Bot.generate
    Bot.health_check cfg st →
  built_from (Bot.local_provider cfg ++ openai_fallback (Bot.OPENAI_API_KEY cfg)) st
  ∧ requests_from
      (Bot.local_provider cfg ++ openai_fallback (Bot.OPENAI_API_KEY cfg)) st.
Proof.
  induction 1 as [st Hinit | st st' _ [IH1 IH2] Hstep].
  - rewrite Bot_init_exec in Hinit. injection Hinit as <-.
    split; [apply built_from_registered|]. intros l req Hin. cbn in Hin.
    by apply elem_of_nil in Hin.
  - split; [by eapply Bot_step_built_from | by eapply Bot_step_requests_from].
Qed.

Lemma Legacy_reachable_requests (cfg : Legacy.Config) (st : State Legacy.Config) :
  reachable Legacy.__init__ Legacy.switch_to_next_provider Legacy.generate
    Legacy.health_check cfg st →
  built_from
    (Legacy.local_provider cfg ++ openai_fallback (Legacy.OPENAI_API_KEY cfg)) st
  ∧ requests_from
      (Legacy.local_provider cfg ++ openai_fallback (Legacy.OPENAI_API_KEY cfg)) st.
Proof.
  induction 1 as [st Hinit | st st' _ [IH1 IH2] Hstep].
  - rewrite Legacy_init_exec in Hinit. injection Hinit as <-.
    split; [apply built_from_registered|]. intros l req Hin. cbn in Hin.
    by apply elem_of_nil in Hin.
  - split; [by eapply Legacy_step_built_from | by eapply Legacy_step_requests_from].
Qed.

Lemma providers_key_confined key (local : list LLMProvider) p req :
  (∀ q, q ∈ local → api_key q = None) →
  p ∈ local ++ openai_fallback key → request_of p req → key_confined key req.
Proof.
  intros Hlocal Hin (Hurl & Hmodel & Hheaders & _) v Hv.
  rewrite Hheaders in Hv. apply elem_of_app in Hin as [Hin | Hin].
  - rewrite (Hlocal p Hin) in Hv. cbn in Hv.
    by apply list_elem_of_singleton in Hv.
  - unfold openai_fallback in Hin. destruct key as [k|]; cbn in Hin;
      [|by apply elem_of_nil in Hin].
    destruct (truthy k) eqn:Hk; [|by apply elem_of_nil in Hin].
    apply list_elem_of_singleton in Hin as ->.
    unfold build_headers in Hv. cbn [api_key new_LLMProvider truthy_opt] in Hv.
    rewrite Hk in Hv. cbn in Hv.
    apply elem_of_cons in Hv as [[=] | Hv].
    apply list_elem_of_singleton in Hv as [= ->].
    exists k. split_and!; try done.
    intros ->. done.
Qed.

(** X7.  The OpenAI key goes to OpenAI only.  Through any sequence of
    rotations, generations and health checks after construction, a request
    that carries an [Authorization] header was sent to
    [https://api.openai.com/v1/chat/completions], for the model
    [gpt-4o-mini], and the header is [Bearer] followed by the configured,
    non-empty key; a request to the local endpoint carries no key. *)
Theorem key_goes_to_openai_only (cfg : Bot.Config) (old : Legacy.Config)
    (st : State Bot.Config) (st_old : State Legacy.Config) :
  reachable Bot.__init__ Bot.switch_to_next_provider Bot.generate
    Bot.health_check cfg st →
  reachable Legacy.__init__ Legacy.switch_to_next_provider Legacy.generate
    Legacy.health_check old st_old →
  (∀ l req, (l, req) ∈ sent st → key_confined (Bot.OPENAI_API_KEY cfg) req)
  ∧ (∀ l req, (l, req) ∈ sent st_old →
       key_confined (Legacy.OPENAI_API_KEY old) req).
Proof.
  intros Hst Hold. split.
  - destruct (Bot_reachable_requests cfg st Hst) as [_ Hreq].
    intros l req Hin. destruct (Hreq l req Hin) as (p & Hp & Hof).
    eapply (providers_key_confined _ (Bot.local_provider cfg) p); [| |done].
    + intros q Hq. unfold Bot.local_provider in Hq.
      destruct (truthy _); [|by apply elem_of_nil in Hq].
      by apply list_elem_of_singleton in Hq as ->.
    + by eapply list_elem_of_lookup_2.
  - destruct (Legacy_reachable_requests old st_old Hold) as [_ Hreq].
    intros l req Hin. destruct (Hreq l req Hin) as (p & Hp & Hof).
    eapply (providers_key_confined _ (Legacy.local_provider old) p); [| |done].
    + intros q Hq. by apply list_elem_of_singleton in Hq as ->.
    + by eapply list_elem_of_lookup_2.
Qed.

(** ** Start-up *)

Lemma registered_well_formed {Config} (cfg : Config) p ps :
  well_formed (registered cfg (p :: ps)).
Proof.
  pose proof (built_from_registered cfg (p :: ps)) as Hb.
  destruct (built_from_cases _ _ Hb) as [Hnil | Hwf]; [discriminate | done].
Qed.

Lemma probed_registered_well_formed {Config} net (cfg : Config) p ps :
  well_formed (probed_state net 0%nat p (registered cfg (p :: ps))).
Proof.
  pose proof (built_from_probed (p :: ps) net 0%nat p (registered cfg (p :: ps))
                (built_from_registered cfg (p :: ps)) eq_refl) as Hb.
  destruct (built_from_cases _ _ Hb) as [Hnil | Hwf]; [discriminate | done].
Qed.

Lemma Bot_initial_health_check_exec net (cfg : Bot.Config) :
  Bot.initial_health_check net cfg
  = Some (Ok tt,
          started net cfg
            (Bot.local_provider cfg ++ openai_fallback (Bot.OPENAI_API_KEY cfg))).
Proof.
  unfold Bot.initial_health_check. rewrite Bot_init_exec.
  destruct (Bot.local_provider cfg ++ openai_fallback (Bot.OPENAI_API_KEY cfg))
    as [|p ps]; [reflexivity|].
  erewrite bind_ok by reflexivity.
  cbn [registered self providers length seq].
  erewrite bind_ok
    by (eapply (Bot_health_check_exec net None _ 0%nat p);
        [right; split_and!; [done | apply registered_well_formed | done] | done]).
  unfold started.
  pose proof (probed_registered_well_formed net cfg p ps) as Hwf.
  set (st := probed_state net 0%nat p (registered cfg (p :: ps))) in *.
  destruct (healthy _) eqn:Hh.
  - erewrite bind_ok by (by apply (Bot_current_provider_exec st 0%nat)).
    erewrite bind_ok by reflexivity.
    erewrite bind_ok by (eapply getattr_live; reflexivity).
    erewrite bind_ok by (by apply (Bot_current_provider_exec st 0%nat)).
    erewrite bind_ok by reflexivity.
    erewrite bind_ok by (eapply getattr_live; reflexivity).
    reflexivity.
  - erewrite bind_ok by reflexivity.
    assert (registry_size st = Z.of_nat (length (p :: ps))) as Hsize
      by (unfold registry_size; cbn; by rewrite length_seq).
    change (Z.of_nat (length (providers (self st)))) with (registry_size st).
    destruct (Z.ltb_spec 1 (registry_size st)) as [Hn|Hn].
    + rewrite Bot_switch_exec by done.
      destruct (Z.leb_spec (registry_size st) 1); [lia|].
      unfold next_index. by rewrite Hsize.
    + replace (Z.of_nat (length (p :: ps))) with 1 by (cbn [length] in *; lia).
      by rewrite Z.mod_1_r.
Qed.

Lemma Legacy_post_init_exec net (cfg : Legacy.Config) :
  Legacy.post_init net cfg
  = Some (Ok tt,
          started net cfg
            (Legacy.local_provider cfg
               ++ openai_fallback (Legacy.OPENAI_API_KEY cfg))).
Proof.
  unfold Legacy.post_init. rewrite Legacy_init_exec.
  unfold Legacy.local_provider. cbn [app].
  set (p := new_LLMProvider _ _ _ _ _).
  set (ps := openai_fallback _).
  erewrite bind_ok
    by (eapply (Legacy_health_check_exec net None _ 0%nat p);
        [right; split_and!; [done | apply registered_well_formed | done] | done]).
  unfold started.
  pose proof (probed_registered_well_formed net cfg p ps) as Hwf.
  set (st := probed_state net 0%nat p (registered cfg (p :: ps))) in *.
  destruct (healthy _) eqn:Hh.
  - erewrite bind_ok by (by apply (Legacy_current_provider_exec st 0%nat)).
    erewrite bind_ok by (eapply getattr_live; reflexivity).
    reflexivity.
  - destruct (Legacy_switch_exec st Hwf) as [[old new] Hsw].
    erewrite bind_ok by exact Hsw.
    assert (registry_size st = Z.of_nat (length (p :: ps))) as Hsize
      by (unfold registry_size; cbn; by rewrite length_seq).
    unfold next_index. by rewrite Hsize.
Qed.

Lemma started_index_valid {Config} net (cfg : Config) p ps :
  index_valid
    (with_index (1 `mod` Z.of_nat (length (p :: ps)))
       (probed_state net 0%nat p (registered cfg (p :: ps)))).
Proof.
  unfold index_valid, registry_size.
  cbn [with_index probed_state with_object with_request registered self
       providers current_provider_index].
  rewrite length_seq. apply Z.mod_pos_bound. cbn [length]. lia.
Qed.

Lemma started_contract {Config} net (cfg : Config) ps :
  startup_contract net ps (started net cfg ps).
Proof.
  destruct ps as [|p ps]; [split; [apply built_from_registered | done]|].
  pose proof (built_from_probed (p :: ps) net 0%nat p (registered cfg (p :: ps))
                (built_from_registered cfg (p :: ps)) eq_refl) as Hb.
  unfold started, startup_contract.
  destruct (net 0%nat (health_request p)) as [e | r t] eqn:Hnet.
  - cbn [probed_provider healthy set_last_error set_healthy].
    split.
    + apply built_from_with_index; [done | apply started_index_valid].
    + unfold probed_state. cbn. rewrite Hnet. done.
  - cbn [probed_provider]. destruct (status r =? 200) eqn:Hs.
    + cbn [healthy set_healthy]. split; [done|].
      unfold probed_state. cbn. rewrite Hnet. cbn. by rewrite Hs.
    + cbn [healthy set_healthy set_last_error]. split.
      * apply built_from_with_index; [done | apply started_index_valid].
      * unfold probed_state. cbn. rewrite Hnet. cbn. by rewrite Hs.
Qed.

(** X8.  Start-up.  [run] in [src/bot.py] exits with status 1, nothing
    built and nothing sent, when [validate] rejects the configuration.
    Otherwise it does not raise, and neither does [post_init] in
    [src/clawdbot/bot.py]: the manager is built, assigned to
    [bot_state.llm_manager] by [run], and sent one health request, to the
    first provider; without providers [run] sends nothing.  The index stays
    0 when that provider answers with status 200 and becomes
    [1 mod len(providers)] when it does not, so it stays 0 as well when
    there is no other provider. *)
Theorem startup_probes_first_provider net (cfg : Bot.Config) (old : Legacy.Config)
    (w : World Bot.Config) :
  (if Bot.validate cfg then
     ∃ st,
       Bot.run net cfg w
         = Some (Ok tt,
                 mkWorld
                   (mkBotState (message_count (bot_state w))
                      (error_count (bot_state w)) (Some st))
                   (telegram_calls w))
       ∧ startup_contract net
           (Bot.local_provider cfg ++ openai_fallback (Bot.OPENAI_API_KEY cfg)) st
   else Bot.run net cfg w = Some (Raise (SystemExit 1), w))
  ∧ (∃ st,
       Legacy.post_init net old = Some (Ok tt, st)
       ∧ startup_contract net
           (Legacy.local_provider old
              ++ openai_fallback (Legacy.OPENAI_API_KEY old)) st).
Proof.
  split.
  - unfold Bot.run. destruct (Bot.validate cfg); cbn [negb]; [|done].
    rewrite Bot_initial_health_check_exec. eexists.
    split; [reflexivity | apply started_contract].
  - eexists. split; [apply Legacy_post_init_exec | apply started_contract].
Qed.

Section FirstRequest.
Context {Config : Type}.
Implicit Types st : State Config.
Variable outcome : Reply → Outcome.
Variable generate_op : Network → list Message → Z → M Config Result.
Hypothesis generate_fallback :
  ∀ net messages max_tokens st,
    well_formed st →
    ∃ r st' new,
      generate_op net messages max_tokens st = Some (Ok r, st')
      ∧ fallback outcome net messages max_tokens 0 st r st' new.

Lemma first_goes_to_current net messages max_tokens st l q :
  well_formed st → current_ref st = Some l → heap st !! l = Some q →
  first_goes_to generate_op outcome net messages max_tokens l q st.
Proof.
  intros Hwf Hl Hq.
  destruct (generate_fallback net messages max_tokens st Hwf)
    as (r & st' & new & Hgen & Hfb).
  destruct Hfb as [Hlog Hmost Hleast Horder Hreq Hserved Hsucc Hfail Hindex
                     Hreg Hcfg Hheap].
  pose proof Hwf as [[H0 Hn] _].
  destruct new as [|[l0 req0] rest]; [by destruct Hleast; [lia|]|].
  assert (l0 = l) as ->.
  { cbn [length fmap list_fmap] in Horder.
    erewrite take_rotate_S in Horder; [by injection Horder as -> _ | exact Hl |].
    apply lookup_lt_Some in Hl. unfold registry_size in Hmost.
    cbn [length] in Hmost. lia. }
  destruct (Hreq 0%nat l req0 eq_refl) as (p & Hp & ->).
  assert (p = q) as -> by congruence.
  exists r, st', rest. split_and!; [done | done |].
  intros Hs. specialize (Hserved 0%nat l _ eq_refl).
  rewrite Nat.add_0_r, Hs in Hserved. symmetry in Hserved.
  apply andb_true_iff in Hserved as [Hr Hone].
  apply bool_decide_eq_true in Hone. cbn [length] in Hone.
  destruct rest; [|discriminate]. split; [done|].
  destruct r as [pn pm content t|]; [|done].
  destruct (Hsucc _ _ _ _ eq_refl)
    as (l' & req' & p' & _ & Hlast & Hp' & -> & -> & _).
  injection Hlast as <- <-. exists content, t. congruence.
Qed.
End FirstRequest.

Lemma started_after_failed_probe {Config} net (cfg : Config) p q ps l :
  probe_fails net p →
  (p :: ps) !! l = Some q → l = Z.to_nat (1 `mod` Z.of_nat (length (p :: ps))) →
  ∃ q',
    well_formed (started net cfg (p :: ps))
    ∧ current_ref (started net cfg (p :: ps)) = Some l
    ∧ heap (started net cfg (p :: ps)) !! l = Some q'
    ∧ backend q' = backend q.
Proof.
  intros Hfails Hq Hl.
  assert (healthy (probed_provider p (net 0%nat (health_request p))) = false) as Hh.
  { destruct (net 0%nat (health_request p)) as [e | r t] eqn:Hnet; [done|].
    cbn [probed_provider]. specialize (Hfails r t Hnet).
    by destruct (Z.eqb_spec (status r) 200). }
  pose proof (started_contract net cfg (p :: ps)) as [Hb _].
  destruct (built_from_cases _ _ Hb) as [Hnil | Hwf].
  { destruct Hb as [Hreg _]. rewrite Hnil in Hreg. discriminate. }
  unfold started in *. rewrite Hh in *.
  assert (current_ref
            (with_index (1 `mod` Z.of_nat (length (p :: ps)))
               (probed_state net 0%nat p (registered cfg (p :: ps)))) = Some l)
    as Hcur.
  { unfold current_ref. cbn [with_index self providers current_provider_index
                             probed_state with_object with_request registered].
    rewrite <- Hl. apply lookup_seq. split; [done|]. by eapply lookup_lt_Some. }
  destruct (current_ref_live _ _ (proj2 Hwf) Hcur) as [q' Hq'].
  exists q'. split_and!; [done | done | done |].
  destruct Hb as (_ & Hheap & _).
  destruct (backend_lookup _ _ _ _ Hheap Hq') as (q0 & Hq0 & Hbq).
  congruence.
Qed.

(** When [run] returns, the manager in [bot_state] is the one its initial
    health check left. *)
Lemma Bot_run_started net cfg (w w' : World Bot.Config) :
  Bot.run net cfg w = Some (Ok tt, w') →
  Bot.validate cfg = true
  ∧ ∃ st, Bot.initial_health_check net cfg = Some (Ok tt, st)
          ∧ llm_manager (bot_state w') = Some st.
Proof.
  unfold Bot.run. destruct (Bot.validate cfg); cbn [negb]; [|done].
  destruct (Bot.initial_health_check net cfg) as [[r st]|]; [|done].
  intros [= -> <-]. split; [done|]. by exists st.
Qed.

(** X9.  When both providers are configured and the local one fails the
    probe of start-up (the initial health check of [run], whether or not
    the configuration was validated before, and [post_init]), the first
    message goes to [OPENAI] first; when OpenAI serves it, the local
    endpoint is not contacted and the result names [OPENAI]. *)
Theorem failed_probe_sends_first_message_to_fallback net net' messages max_tokens
    (cfg : Bot.Config) (old : Legacy.Config) p q p_old q_old
    (st : State Bot.Config) (st_old : State Legacy.Config) :
  Bot.local_provider cfg = [p] →
  openai_fallback (Bot.OPENAI_API_KEY cfg) = [q] →
  probe_fails net p →
  Bot.initial_health_check net cfg = Some (Ok tt, st) →
  Legacy.local_provider old = [p_old] →
  openai_fallback (Legacy.OPENAI_API_KEY old) = [q_old] →
  probe_fails net p_old →
  Legacy.post_init net old = Some (Ok tt, st_old) →
  name q = "OPENAI" ∧ name q_old = "OPENAI"
  ∧ first_goes_to Bot.generate Bot.outcome net' messages max_tokens 1%nat q st
  ∧ first_goes_to Legacy.generate Legacy.outcome net' messages max_tokens
      1%nat q_old st_old.
Proof.
  intros Hp Hq Hfails Hrun Hp' Hq' Hfails' Hinit.
  assert (∀ key x, openai_fallback key = [x] → name x = "OPENAI") as Hname.
  { intros key x. unfold openai_fallback. destruct (truthy_opt key); [|done].
    by intros [= <-]. }
  split_and!; [by eapply Hname | by eapply Hname | |].
  - rewrite Bot_initial_health_check_exec, Hp, Hq in Hrun. injection Hrun as <-.
    destruct (started_after_failed_probe net cfg p q [q] 1%nat Hfails eq_refl eq_refl)
      as (q1 & Hwf & Hcur & Hq1 & Hb).
    pose proof (first_goes_to_current Bot.outcome Bot.generate
                  Bot_generate_fallback net' messages max_tokens _ 1%nat q1
                  Hwf Hcur Hq1) as Hfirst.
    unfold first_goes_to in *.
    rewrite (generate_request_backend messages max_tokens q1 q Hb) in Hfirst.
    assert (name q1 = name q ∧ model q1 = model q) as [Hn Hm]
      by (unfold backend in Hb; by injection Hb).
    by rewrite Hn, Hm in Hfirst.
  - rewrite Legacy_post_init_exec, Hp', Hq' in Hinit. injection Hinit as <-.
    destruct (started_after_failed_probe net old p_old q_old [q_old] 1%nat
                Hfails' eq_refl eq_refl)
      as (q1 & Hwf & Hcur & Hq1 & Hb).
    pose proof (first_goes_to_current Legacy.outcome Legacy.generate
                  Legacy_generate_fallback net' messages max_tokens _ 1%nat q1
                  Hwf Hcur Hq1) as Hfirst.
    unfold first_goes_to in *.
    rewrite (generate_request_backend messages max_tokens q1 q_old Hb) in Hfirst.
    assert (name q1 = name q_old ∧ model q1 = model q_old) as [Hn Hm]
      by (unfold backend in Hb; by injection Hb).
    by rewrite Hn, Hm in Hfirst.
Qed.

(** ** Identifiers and authorisation *)

Lemma pretty_N_char_digit x : is_sign_or_digit (pretty_N_char x) = true.
Proof. unfold pretty_N_char. by repeat case_match. Qed.

Lemma pretty_N_go_chars x s :
  all_chars is_sign_or_digit s = true →
  all_chars is_sign_or_digit (pretty_N_go x s) = true.
Proof.
  revert s. induction (N.lt_wf_0 x) as [x _ IH]; intros s Hs.
  assert (x = 0 ∨ 0 < x)%N as [->|Hx] by lia; [by rewrite pretty_N_go_0|].
  rewrite pretty_N_go_step by done. apply IH; [by apply N.div_lt|].
  cbn [all_chars]. by rewrite pretty_N_char_digit, Hs.
Qed.

Lemma pretty_N_go_length x s :
  (String.length s ≤ String.length (pretty_N_go x s))%nat.
Proof.
  revert s. induction (N.lt_wf_0 x) as [x _ IH]; intros s.
  assert (x = 0 ∨ 0 < x)%N as [->|Hx] by lia; [by rewrite pretty_N_go_0|].
  rewrite pretty_N_go_step by done.
  etrans; [|apply IH; by apply N.div_lt]. cbn. lia.
Qed.

Lemma pretty_N_chars (x : N) : all_chars is_sign_or_digit (pretty x) = true.
Proof.
  unfold pretty, pretty_N. case_decide; [done|]. by apply pretty_N_go_chars.
Qed.

Lemma pretty_N_nonempty (x : N) : pretty x ≠ "".
Proof.
  unfold pretty, pretty_N. case_decide; [done|].
  rewrite pretty_N_go_step by lia. intros Hempty.
  pose proof (pretty_N_go_length (x `div` 10)
                (String (pretty_N_char (x `mod` 10)) "")) as Hlen.
  rewrite Hempty in Hlen. cbn in Hlen. lia.
Qed.

Lemma pretty_Z_chars (z : Z) : all_chars is_sign_or_digit (pretty z) = true.
Proof.
  destruct z as [|x|x]; [done | apply pretty_N_chars |].
  change (pretty (Z.neg x)) with ("-" +:+ pretty (N.pos x)).
  rewrite all_chars_app, pretty_N_chars. done.
Qed.

Lemma pretty_Z_nonempty (z : Z) : pretty z ≠ "".
Proof. destruct z as [|x|x]; [done | apply pretty_N_nonempty | done]. Qed.

Lemma strip_pretty (z : Z) : strip (pretty z) = pretty z.
Proof.
  unfold strip. rewrite stripped_no_space; [apply str_of_chars_str_chars|].
  eapply Forall_impl; [apply str_chars_digits, pretty_Z_chars|].
  intros ch (c & -> & Hc). by apply digit_not_space.
Qed.

Lemma split_nonempty sep s : split sep s ≠ [].
Proof.
  destruct s as [|c s]; [done|]. cbn [split].
  destruct (Ascii.eqb c sep); [done|]. by destruct (split sep s).
Qed.

Lemma join_cons sep piece pieces :
  pieces ≠ [] → join sep (piece :: pieces) = piece +:+ sep +:+ join sep pieces.
Proof. by destruct pieces. Qed.

Lemma join_split (sep : ascii) s :
  join (String sep "") (split sep s) = s.
Proof.
  induction s as [|c s IH]; [done|]. cbn [split].
  destruct (Ascii.eqb_spec c sep) as [->|Hc].
  - rewrite join_cons by apply split_nonempty. by rewrite IH.
  - pose proof (split_nonempty sep s) as Hne.
    destruct (split sep s) as [|piece pieces]; [done|].
    destruct pieces as [|piece' pieces]; [cbn in *; by rewrite IH|].
    rewrite join_cons by done. rewrite join_cons in IH by done.
    change (String c piece +:+ ?b) with (String c (piece +:+ b)).
    by rewrite IH.
Qed.

Lemma split_pieces sep s piece :
  piece ∈ split sep s → all_chars (λ c, negb (Ascii.eqb c sep)) piece = true.
Proof.
  revert piece. induction s as [|c s IH]; intros piece Hin.
  - by apply list_elem_of_singleton in Hin as ->.
  - cbn [split] in Hin. destruct (Ascii.eqb c sep) eqn:Hc.
    + apply elem_of_cons in Hin as [-> | Hin]; [done | by apply IH].
    + pose proof (split_nonempty sep s) as Hne.
      destruct (split sep s) as [|x xs]; [done|].
      apply elem_of_cons in Hin as [-> | Hin].
      * cbn [all_chars]. rewrite Hc. cbn. apply IH. by left.
      * apply IH. by right.
Qed.

Lemma Bot_factory_elem env x :
  x ∈ Bot.TELEGRAM_ALLOWED_IDS_factory env
  ↔ x ≠ "" ∧ ∃ piece, piece ∈ split "," (default "" env) ∧ strip piece = x.
Proof.
  unfold Bot.TELEGRAM_ALLOWED_IDS_factory. rewrite list_elem_of_fmap. split.
  - intros (piece & -> & Hin). apply list_elem_of_filter in Hin as [Ht Hin].
    split; [|by exists piece]. unfold truthy in Ht.
    apply negb_true_iff in Ht. by apply String.eqb_neq in Ht.
  - intros (Hx & piece & Hin & <-). exists piece. split; [done|].
    apply list_elem_of_filter. split; [|done].
    unfold truthy. apply negb_true_iff. by apply String.eqb_neq.
Qed.

Lemma split_single sep s : split sep s = [""] ↔ s = "".
Proof.
  split; [|by intros ->]. intros Hs.
  rewrite <- (join_split sep s). by rewrite Hs.
Qed.

Lemma Bot_is_authorized_pieces env user_id (cfg : Bot.Config) :
  Bot.TELEGRAM_ALLOWED_IDS cfg = Bot.TELEGRAM_ALLOWED_IDS_factory env →
  Bot.is_authorized user_id cfg = true
  ↔ ∃ piece, piece ∈ split "," (default "" env) ∧ strip piece = pretty user_id.
Proof.
  intros Hids. unfold Bot.is_authorized. rewrite bool_decide_eq_true, Hids.
  rewrite Bot_factory_elem. split; [by intros [_ ?]|].
  intros Hpiece. split; [apply pretty_Z_nonempty | done].
Qed.

(** X10.  Authorisation compares the decimal text of the user id with
    the entries of [TELEGRAM_ALLOWED_IDS].  With the list [Config()] reads
    from the environment, [src/bot.py] authorises the ids that equal a
    piece between commas once it is stripped, [src/clawdbot/bot.py] those
    that equal a piece as it is; so whoever the older file authorises the
    newer one authorises too, and a variable made of commas and blanks
    authorises nobody. *)
Theorem authorization_by_decimal_text env user_id
    (cfg : Bot.Config) (old : Legacy.Config) :
  Bot.TELEGRAM_ALLOWED_IDS cfg = Bot.TELEGRAM_ALLOWED_IDS_factory env →
  Legacy.TELEGRAM_ALLOWED_IDS old = Legacy.TELEGRAM_ALLOWED_IDS_factory env →
  (Bot.is_authorized user_id cfg = true
   ↔ ∃ piece, piece ∈ split "," (default "" env) ∧ strip piece = pretty user_id)
  ∧ (Legacy.is_authorized user_id old = true
     ↔ pretty user_id ∈ split "," (default "" env))
  ∧ (Legacy.is_authorized user_id old = true →
     Bot.is_authorized user_id cfg = true)
  ∧ ((∀ piece, piece ∈ split "," (default "" env) → strip piece = "") →
     Bot.is_authorized user_id cfg = false
     ∧ Legacy.is_authorized user_id old = false).
Proof.
  intros Hids Hids'.
  assert (Legacy.is_authorized user_id old = true
          ↔ pretty user_id ∈ split "," (default "" env)) as Hold.
  { unfold Legacy.is_authorized. by rewrite bool_decide_eq_true, Hids'. }
  split_and!.
  - by apply Bot_is_authorized_pieces.
  - done.
  - intros Hin%Hold. apply (Bot_is_authorized_pieces env); [done|].
    exists (pretty user_id). split; [done | apply strip_pretty].
  - intros Hblank. split; apply not_true_is_false.
    + intros (piece & Hin & Hp)%(Bot_is_authorized_pieces env); [|done].
      rewrite (Hblank piece Hin) in Hp. by eapply pretty_Z_nonempty.
    + intros Hin%Hold. specialize (Hblank _ Hin).
      rewrite strip_pretty in Hblank. by eapply pretty_Z_nonempty.
Qed.

Lemma Bot_factory_nil env :
  Bot.TELEGRAM_ALLOWED_IDS_factory env = []
  ↔ ∀ piece, piece ∈ split "," (default "" env) → strip piece = "".
Proof.
  split.
  - intros Hnil piece Hin.
    destruct (decide (strip piece = "")) as [|Hne]; [done|].
    assert (strip piece ∈ Bot.TELEGRAM_ALLOWED_IDS_factory env) as Hx
      by (apply Bot_factory_elem; eauto).
    rewrite Hnil in Hx. by apply elem_of_nil in Hx.
  - intros Hblank. apply elem_of_nil_inv.
    intros x (Hx & piece & Hin & <-)%Bot_factory_elem.
    by rewrite (Hblank piece Hin) in Hx.
Qed.

(** X11.  The list [Config()] reads from [TELEGRAM_ALLOWED_IDS].  In
    [src/bot.py] every entry is non-empty, stripped and without comma, and
    the list is empty exactly when every piece is blank.  In
    [src/clawdbot/bot.py] the list is never empty, its entries hold no
    comma, and joined with commas they give back the variable. *)
Theorem allowed_ids_pieces env :
  (∀ x, x ∈ Bot.TELEGRAM_ALLOWED_IDS_factory env →
     x ≠ "" ∧ strip x = x
     ∧ all_chars (λ c, negb (Ascii.eqb c ",")) x = true)
  ∧ (Bot.TELEGRAM_ALLOWED_IDS_factory env = []
     ↔ ∀ piece, piece ∈ split "," (default "" env) → strip piece = "")
  ∧ Legacy.TELEGRAM_ALLOWED_IDS_factory env ≠ []
  ∧ join "," (Legacy.TELEGRAM_ALLOWED_IDS_factory env) = default "" env
  ∧ (∀ x, x ∈ Legacy.TELEGRAM_ALLOWED_IDS_factory env →
       all_chars (λ c, negb (Ascii.eqb c ",")) x = true).
Proof.
  split_and!.
  - intros x (Hx & piece & Hin & <-)%Bot_factory_elem.
    split_and!; [done | apply strip_idemp |].
    apply all_chars_strip. by eapply split_pieces.
  - apply Bot_factory_nil.
  - apply split_nonempty.
  - apply join_split.
  - intros x Hin. by eapply split_pieces.
Qed.

(** X12.  What [validate] requires of [TELEGRAM_ALLOWED_IDS].
    [src/bot.py] accepts the configuration when the token is set and some
    piece of the variable is not blank; [src/clawdbot/bot.py] when the
    token and the local endpoint are set and the variable is not empty:
    its test for an empty list never holds. *)
Theorem validation_of_allowed_ids env (cfg : Bot.Config) (old : Legacy.Config) :
  Bot.TELEGRAM_ALLOWED_IDS cfg = Bot.TELEGRAM_ALLOWED_IDS_factory env →
  Legacy.TELEGRAM_ALLOWED_IDS old = Legacy.TELEGRAM_ALLOWED_IDS_factory env →
  (Bot.validate cfg = true
   ↔ Bot.TELEGRAM_BOT_TOKEN cfg ≠ ""
     ∧ ∃ piece, piece ∈ split "," (default "" env) ∧ strip piece ≠ "")
  ∧ (Legacy.validate old = true
     ↔ Legacy.TELEGRAM_BOT_TOKEN old ≠ ""
       ∧ default "" env ≠ ""
       ∧ Legacy.LOCAL_LLM_API_BASE old ≠ "").
Proof.
  intros Hids Hids'.
  assert (∀ s, truthy s = true ↔ s ≠ "") as Htruthy.
  { intros s. unfold truthy. rewrite negb_true_iff. apply String.eqb_neq. }
  split.
  - unfold Bot.validate. rewrite Hids.
    destruct (truthy (Bot.TELEGRAM_BOT_TOKEN cfg)) eqn:Htok; cbn [negb].
    + apply Htruthy in Htok. case_bool_decide as Hnil.
      * split; [done|]. intros (_ & piece & Hin & Hne).
        exfalso. apply Hne. by apply (Bot_factory_nil env).
      * split; [|done]. intros _. split; [done|].
        destruct (Bot.TELEGRAM_ALLOWED_IDS_factory env) as [|x xs] eqn:Hf; [done|].
        assert (x ∈ Bot.TELEGRAM_ALLOWED_IDS_factory env) as Hx
          by (rewrite Hf; by left).
        apply Bot_factory_elem in Hx as (Hx & piece & Hin & <-). eauto.
    + assert (Bot.TELEGRAM_BOT_TOKEN cfg = "") as Htok'.
      { destruct (decide (Bot.TELEGRAM_BOT_TOKEN cfg = "")) as [|Hne]; [done|].
        apply Htruthy in Hne. congruence. }
      case_bool_decide; (split; [done | by intros [? _]]).
  - unfold Legacy.validate. rewrite Hids'. unfold Legacy.TELEGRAM_ALLOWED_IDS_factory.
    rewrite (bool_decide_eq_false_2 (split "," (default "" env) = []))
      by apply split_nonempty.
    cbn [orb].
    destruct (truthy (Legacy.TELEGRAM_BOT_TOKEN old)) eqn:Htok; cbn [negb].
    + apply Htruthy in Htok. case_bool_decide as Hempty.
      * apply split_single in Hempty. split; [done | by intros (_ & ? & _)].
      * rewrite split_single in Hempty.
        destruct (truthy (Legacy.LOCAL_LLM_API_BASE old)) eqn:Hbase; cbn [negb].
        -- apply Htruthy in Hbase. done.
        -- split; [done|]. intros (_ & _ & Hne). apply Htruthy in Hne. congruence.
    + split; [done|]. intros (Hne & _). apply Htruthy in Hne. congruence.
Qed.

(** ** Uptime *)

Lemma app_sep_inj (c : ascii) (a1 a2 b1 b2 : string) :
  all_chars (λ x, negb (Ascii.eqb x c)) a1 = true →
  all_chars (λ x, negb (Ascii.eqb x c)) a2 = true →
  a1 +:+ String c b1 = a2 +:+ String c b2 → a1 = a2 ∧ b1 = b2.
Proof.
  revert a2. induction a1 as [|x a1 IH]; intros [|y a2] H1 H2 Heq.
  - by injection Heq as <-.
  - injection Heq as <- _. cbn [all_chars] in H2.
    by rewrite Ascii.eqb_refl in H2.
  - injection Heq as -> _. cbn [all_chars] in H1.
    by rewrite Ascii.eqb_refl in H1.
  - injection Heq as <- Heq. cbn [all_chars] in H1, H2.
    apply andb_true_iff in H1 as [_ H1]. apply andb_true_iff in H2 as [_ H2].
    destruct (IH a2 H1 H2 Heq) as [-> ->]. done.
Qed.

Lemma pretty_Z_without (c : ascii) (z : Z) :
  is_sign_or_digit c = false →
  all_chars (λ x, negb (Ascii.eqb x c)) (pretty z) = true.
Proof.
  intros Hc. eapply all_chars_impl; [|apply pretty_Z_chars].
  intros x Hx. apply negb_true_iff. apply Ascii.eqb_neq. intros ->. congruence.
Qed.

Lemma uptime_parts_sum total :
  let '(hours, minutes, seconds) := uptime_parts total in
  hours * 3600 + minutes * 60 + seconds = total
  ∧ 0 ≤ minutes < 60 ∧ 0 ≤ seconds < 60.
Proof.
  unfold uptime_parts.
  pose proof (Z.div_mod total 3600 ltac:(lia)) as H1.
  pose proof (Z.mod_pos_bound total 3600 ltac:(lia)) as H2.
  pose proof (Z.div_mod (total `mod` 3600) 60 ltac:(lia)) as H3.
  pose proof (Z.mod_pos_bound (total `mod` 3600) 60 ltac:(lia)) as H4.
  assert (0 ≤ (total `mod` 3600) `div` 60 < 60).
  { split; [apply Z.div_pos; lia | apply Z.div_lt_upper_bound; lia]. }
  lia.
Qed.

Lemma uptime_inj total total' : uptime total = uptime total' → total = total'.
Proof.
  pose proof (uptime_parts_sum total) as Hsum.
  pose proof (uptime_parts_sum total') as Hsum'.
  unfold uptime.
  destruct (uptime_parts total) as [[h m] s].
  destruct (uptime_parts total') as [[h' m'] s'].
  intros Heq.
  change ("h " +:+ ?x) with (String "h" (" " +:+ x)) in Heq.
  apply app_sep_inj in Heq as [Hh Heq]; [|by apply pretty_Z_without..].
  injection Heq as Heq.
  change ("m " +:+ ?x) with (String "m" (" " +:+ x)) in Heq.
  apply app_sep_inj in Heq as [Hm Heq]; [|by apply pretty_Z_without..].
  injection Heq as Heq.
  apply app_sep_inj in Heq as [Hs _]; [|by apply pretty_Z_without..].
  apply (inj pretty) in Hh, Hm, Hs. lia.
Qed.

(** X13.  [uptime] reads the number of seconds exactly: the hours,
    minutes and seconds add up to it, minutes and seconds are between 0
    and 59 also when the clock went backwards, the hours are negative
    only then, and two different numbers of seconds give two different
    texts. *)
Theorem uptime_reads_exactly total :
  (let '(hours, minutes, seconds) := uptime_parts total in
   hours * 3600 + minutes * 60 + seconds = total
   ∧ 0 ≤ minutes < 60 ∧ 0 ≤ seconds < 60
   ∧ (0 ≤ hours ↔ 0 ≤ total))
  ∧ ∀ total', uptime total' = uptime total → total' = total.
Proof.
  split; [|intros total'; apply uptime_inj].
  pose proof (uptime_parts_sum total) as Hsum.
  destruct (uptime_parts total) as [[h m] s]. split_and!; try lia.
Qed.

(** ** The message handler *)

Section HandlerSteps.
Context {Config : Type}.

Lemma bind_H_ok {A B} (m : H Config A) (k : A → H Config B) w a w' :
  m w = Some (Ok a, w') → (m ≫= k) w = k a w'.
Proof. intros Hm. unfold mbind, H_bind. by rewrite Hm. Qed.

Lemma bind_H_raise {A B} (m : H Config A) (k : A → H Config B) w e w' :
  m w = Some (Raise e, w') → (m ≫= k) w = Some (Raise e, w').
Proof. intros Hm. unfold mbind, H_bind. by rewrite Hm. Qed.

Lemma telegram_exec tg call (w : World Config) :
  telegram tg call w
  = Some (match tg (length (telegram_calls w)) call with
          | Some e => Raise e
          | None => Ok tt
          end,
          mkWorld (bot_state w) (telegram_calls w ++ [call])).
Proof. unfold telegram. by destruct (tg _ _). Qed.

Lemma swallowed_exec tg call (w : World Config) :
  try_except_H (telegram tg call) (λ _, mret tt) w
  = Some (Ok tt, mkWorld (bot_state w) (telegram_calls w ++ [call])).
Proof. unfold try_except_H. rewrite telegram_exec. by destruct (tg _ _). Qed.

Lemma on_manager_exec {A} what (op : M Config A) (w : World Config) st r st' :
  llm_manager (bot_state w) = Some st → op st = Some (r, st') →
  on_manager what op w
  = Some (r, mkWorld (mkBotState (message_count (bot_state w))
                        (error_count (bot_state w)) (Some st'))
               (telegram_calls w)).
Proof. intros Hm Hop. unfold on_manager. by rewrite Hm, Hop. Qed.
End HandlerSteps.

Lemma Bot_unauthorized_exec tg net update (cfg : Bot.Config) w :
  Bot.is_authorized (effective_user_id update) cfg = false →
  Bot.message_handler tg net update cfg w
  = telegram tg (reply_text (JStr "Unauthorized.") None) w.
Proof. intros Hauth. unfold Bot.message_handler. by rewrite Hauth. Qed.

Lemma Legacy_unauthorized_exec tg net update (cfg : Legacy.Config) w :
  Legacy.is_authorized (effective_user_id update) cfg = false →
  Legacy.message_handler tg net update cfg w
  = telegram tg (reply_text (JStr "⛔ Unauthorized access.") None) w.
Proof. intros Hauth. unfold Legacy.message_handler. by rewrite Hauth. Qed.

(** X14.  A message of a user who is not authorised reaches no provider:
    [message_handler] sends the refusal and nothing else, and leaves the
    counters and the manager as they were. *)
Theorem unauthorized_message_reaches_no_provider tg net update
    (cfg : Bot.Config) (old : Legacy.Config)
    (w : World Bot.Config) (w_old : World Legacy.Config) :
  Bot.is_authorized (effective_user_id update) cfg = false →
  Legacy.is_authorized (effective_user_id update) old = false →
  (∃ out w',
     Bot.message_handler tg net update cfg w = Some (out, w')
     ∧ bot_state w' = bot_state w
     ∧ telegram_calls w'
         = telegram_calls w ++ [reply_text (JStr "Unauthorized.") None])
  ∧ (∃ out w',
       Legacy.message_handler tg net update old w_old = Some (out, w')
       ∧ bot_state w' = bot_state w_old
       ∧ telegram_calls w'
           = telegram_calls w_old
               ++ [reply_text (JStr "⛔ Unauthorized access.") None]).
Proof.
  intros Hauth Hauth'. split.
  - rewrite Bot_unauthorized_exec, telegram_exec by done. by eexists _, _.
  - rewrite Legacy_unauthorized_exec, telegram_exec by done. by eexists _, _.
Qed.

Lemma Bot_message_handler_exec tg net update (cfg : Bot.Config) w st r st' :
  Bot.is_authorized (effective_user_id update) cfg = true →
  truthy (message_text update) = true →
  llm_manager (bot_state w) = Some st → providers (self st) ≠ [] →
  Bot.generate net (user_messages (message_text update)) 1024 st
    = Some (Ok r, st') →
  Bot.message_handler tg net update cfg w
  = let calls :=
      telegram_calls w ++ [send_chat_action (effective_chat_id update) "typing"] in
    let b := bot_state w in
    match r with
    | Failure _ _ =>
        telegram tg
          (reply_text
             (JStr ("Failed to generate response. All LLM providers unavailable."
                      +:+ LF +:+ "Use /health to check provider status."))
             None)
          (mkWorld (mkBotState (message_count b + 1) (error_count b + 1) (Some st'))
             calls)
    | Success pname _ content _ =>
        let w2 := mkWorld (mkBotState (message_count b + 1) (error_count b) (Some st'))
                    calls in
        match (if String.eqb pname "LOCAL" then Ok content
               else iadd_str content (LF +:+ LF +:+ "(via " +:+ pname +:+ ")")) with
        | Ok response =>
            try_except_H
              (telegram tg (reply_text response (Some "Markdown")))
              (λ _, telegram tg (reply_text response None)) w2
        | Raise e => Some (Raise e, w2)
        end
    end.
Proof.
  intros Hauth Htext Hmgr Hps Hgen. unfold Bot.message_handler.
  rewrite Hauth, Htext. cbn [negb].
  erewrite bind_H_ok by reflexivity.
  erewrite bind_H_ok by reflexivity.
  cbn [bot_state llm_manager]. rewrite Hmgr.
  rewrite bool_decide_eq_false_2 by done.
  erewrite bind_H_ok by apply swallowed_exec.
  erewrite bind_H_ok by (eapply on_manager_exec; [cbn; first [exact Hmgr | reflexivity] | exact Hgen]).
  cbn [bot_state message_count error_count telegram_calls].
  destruct r as [pname pmodel content t | error pname]; cbn [success].
  - erewrite bind_H_ok by reflexivity. cbn [result_provider].
    destruct (String.eqb pname "LOCAL"); cbn [negb].
    + by erewrite bind_H_ok by reflexivity.
    + destruct (iadd_str content _) as [response | e] eqn:Hadd.
      * by erewrite bind_H_ok by reflexivity.
      * by erewrite bind_H_raise by reflexivity.
  - by erewrite bind_H_ok by reflexivity.
Qed.

Lemma Legacy_message_handler_exec tg net update (cfg : Legacy.Config) w st r st' :
  Legacy.is_authorized (effective_user_id update) cfg = true →
  llm_manager (bot_state w) = Some st →
  tg (length (telegram_calls w))
     (send_chat_action (effective_chat_id update) "typing") = None →
  Legacy.generate net (user_messages (message_text update)) 1024 st
    = Some (Ok r, st') →
  Legacy.message_handler tg net update cfg w
  = let calls :=
      telegram_calls w ++ [send_chat_action (effective_chat_id update) "typing"] in
    let b := bot_state w in
    match r with
    | Failure _ _ =>
        telegram tg
          (reply_text
             (JStr ("❌ Failed to generate response. All LLM providers unavailable."
                      +:+ LF +:+ "Check /health for details."))
             None)
          (mkWorld (mkBotState (message_count b + 1) (error_count b + 1) (Some st'))
             calls)
    | Success pname _ content _ =>
        let w2 := mkWorld (mkBotState (message_count b + 1) (error_count b) (Some st'))
                    calls in
        match (if String.eqb pname "LOCAL" then Ok content
               else iadd_str content (LF +:+ LF +:+ "_(via " +:+ pname +:+ ")_")) with
        | Ok response => telegram tg (reply_text response (Some "Markdown")) w2
        | Raise e => Some (Raise e, w2)
        end
    end.
Proof.
  intros Hauth Hmgr Htyping Hgen. unfold Legacy.message_handler.
  rewrite Hauth. cbn [negb].
  erewrite bind_H_ok by reflexivity.
  erewrite bind_H_ok by reflexivity.
  cbn [bot_state llm_manager]. rewrite Hmgr.
  erewrite bind_H_ok
    by (rewrite telegram_exec; cbn [telegram_calls]; rewrite Htyping; reflexivity).
  erewrite bind_H_ok by (eapply on_manager_exec; [cbn; first [exact Hmgr | reflexivity] | exact Hgen]).
  cbn [bot_state message_count error_count telegram_calls].
  destruct r as [pname pmodel content t | error pname]; cbn [success].
  - erewrite bind_H_ok by reflexivity. cbn [result_provider].
    destruct (String.eqb pname "LOCAL"); cbn [negb].
    + by erewrite bind_H_ok by reflexivity.
    + destruct (iadd_str content _) as [response | e] eqn:Hadd.
      * by erewrite bind_H_ok by reflexivity.
      * by erewrite bind_H_raise by reflexivity.
  - by erewrite bind_H_ok by reflexivity.
Qed.

Section Replies.
Context {Config : Type}.

Lemma retried_exec tg v (w : World Config) :
  try_except_H
    (telegram tg (reply_text v (Some "Markdown")))
    (λ _, telegram tg (reply_text v None)) w
  = match tg (length (telegram_calls w)) (reply_text v (Some "Markdown")) with
    | None =>
        Some (Ok tt,
              mkWorld (bot_state w)
                (telegram_calls w ++ [reply_text v (Some "Markdown")]))
    | Some _ =>
        Some (match tg (S (length (telegram_calls w))) (reply_text v None) with
              | Some e => Raise e
              | None => Ok tt
              end,
              mkWorld (bot_state w)
                (telegram_calls w
                   ++ [reply_text v (Some "Markdown"); reply_text v None]))
    end.
Proof.
  unfold try_except_H. rewrite telegram_exec.
  destruct (tg _ (reply_text v (Some "Markdown"))); [|done].
  rewrite telegram_exec. cbn [telegram_calls bot_state].
  rewrite length_app, <- app_assoc. cbn [length app].
  by rewrite Nat.add_1_r.
Qed.
End Replies.

Lemma iadd_str_other v s :
  (∀ a, v ≠ JStr a) → (∀ items, v ≠ JList items) →
  iadd_str v s
  = Raise (TypeError ("unsupported operand type(s) for +=: '" +:+ type_name v
                        +:+ "' and 'str'")).
Proof. intros Hstr Hlist. destruct v; try done; [by destruct (Hstr s0) | by destruct (Hlist items)]. Qed.

(** X15.  A message of an authorised user is counted once, [generate]
    runs once on the manager, and the error counter moves exactly when
    [generate] failed, whatever Telegram does with the replies.
    [src/bot.py] goes on when the typing action is refused;
    [src/clawdbot/bot.py] stops there with the exception, the message
    counted and no provider contacted. *)
Theorem authorized_message_is_counted tg net update
    (cfg : Bot.Config) (old : Legacy.Config)
    (w : World Bot.Config) (w_old : World Legacy.Config)
    (st : State Bot.Config) (st_old : State Legacy.Config) :
  Bot.is_authorized (effective_user_id update) cfg = true →
  Legacy.is_authorized (effective_user_id update) old = true →
  message_text update ≠ "" →
  llm_manager (bot_state w) = Some st → well_formed st →
  llm_manager (bot_state w_old) = Some st_old → well_formed st_old →
  let typing := send_chat_action (effective_chat_id update) "typing" in
  (∃ r st' out w',
     Bot.generate net (user_messages (message_text update)) 1024 st
       = Some (Ok r, st')
     ∧ Bot.message_handler tg net update cfg w = Some (out, w')
     ∧ message_accounted typing 2 w r st' w')
  ∧ match tg (length (telegram_calls w_old)) typing with
    | None =>
        ∃ r st' out w',
          Legacy.generate net (user_messages (message_text update)) 1024 st_old
            = Some (Ok r, st')
          ∧ Legacy.message_handler tg net update old w_old = Some (out, w')
          ∧ message_accounted typing 1 w_old r st' w'
    | Some e =>
        Legacy.message_handler tg net update old w_old
        = Some (Raise e,
                mkWorld
                  (mkBotState (message_count (bot_state w_old) + 1)
                     (error_count (bot_state w_old)) (Some st_old))
                  (telegram_calls w_old ++ [typing]))
    end.
Proof.
  intros Hauth Hauth' Htext Hmgr Hwf Hmgr' Hwf' typing.
  assert (truthy (message_text update) = true) as Htruthy
    by (unfold truthy; apply negb_true_iff; by apply String.eqb_neq).
  split.
  - destruct (Bot_generate_runs net (user_messages (message_text update)) 1024 st Hwf)
      as (r & st' & Hgen & _).
    assert (providers (self st) ≠ []) as Hps.
    { destruct Hwf as [[H0 Hn] _]. unfold registry_size in Hn.
      destruct (providers (self st)); [cbn in Hn; lia | done]. }
    pose proof (Bot_message_handler_exec tg net update cfg w st r st'
                  Hauth Htruthy Hmgr Hps Hgen) as Hexec.
    cbn zeta in Hexec. exists r, st'.
    destruct r as [pname pmodel content t | error pname]; cbn [success].
    + destruct (if String.eqb pname "LOCAL" then _ else _) as [v | e].
      * rewrite retried_exec in Hexec. cbn [telegram_calls bot_state] in Hexec.
        destruct (tg _ (reply_text v (Some "Markdown")));
          eexists _, _; (split; [done|]); (split; [exact Hexec|]);
          unfold message_accounted;
          cbn [bot_state message_count error_count llm_manager telegram_calls success];
          rewrite <- app_assoc; split_and!; try done; try lia;
          eexists; (split; [reflexivity | cbn; lia]).
      * eexists _, _. split; [done|]. split; [exact Hexec|].
        unfold message_accounted.
        cbn [bot_state message_count error_count llm_manager telegram_calls success].
        split_and!; try done; try lia.
        exists []. split; [reflexivity | cbn; lia].
    + rewrite telegram_exec in Hexec. eexists _, _. split; [done|].
      split; [exact Hexec|]. unfold message_accounted.
      cbn [bot_state message_count error_count llm_manager telegram_calls success].
      rewrite <- app_assoc. split_and!; try done; try lia.
      eexists. split; [reflexivity | cbn; lia].
  - destruct (tg (length (telegram_calls w_old)) typing) as [e|] eqn:Htyping.
    + unfold Legacy.message_handler. rewrite Hauth'. cbn [negb].
      erewrite bind_H_ok by reflexivity.
      erewrite bind_H_ok by reflexivity.
      cbn [bot_state llm_manager]. rewrite Hmgr'.
      erewrite bind_H_raise; [reflexivity|].
      rewrite telegram_exec. cbn [telegram_calls bot_state].
      fold typing. by rewrite Htyping.
    + destruct (Legacy_generate_runs net (user_messages (message_text update)) 1024
                  st_old Hwf') as (r & st' & Hgen & _).
      pose proof (Legacy_message_handler_exec tg net update old w_old st_old r st'
                    Hauth' Hmgr' Htyping Hgen) as Hexec.
      cbn zeta in Hexec. exists r, st'.
      destruct r as [pname pmodel content t | error pname]; cbn [success].
      * destruct (if String.eqb pname "LOCAL" then _ else _) as [v | e].
        -- rewrite telegram_exec in Hexec. eexists _, _. split; [done|].
           split; [exact Hexec|]. unfold message_accounted.
           cbn [bot_state message_count error_count llm_manager telegram_calls success].
           rewrite <- app_assoc. split_and!; try done; try lia.
           eexists. split; [reflexivity | cbn; lia].
        -- eexists _, _. split; [done|]. split; [exact Hexec|].
           unfold message_accounted.
           cbn [bot_state message_count error_count llm_manager telegram_calls success].
           split_and!; try done; try lia.
           exists []. split; [reflexivity | cbn; lia].
      * rewrite telegram_exec in Hexec. eexists _, _. split; [done|].
        split; [exact Hexec|]. unfold message_accounted.
        cbn [bot_state message_count error_count llm_manager telegram_calls success].
        rewrite <- app_assoc. split_and!; try done; try lia.
        eexists. split; [reflexivity | cbn; lia].
Qed.

Lemma annotated_iadd opening closing pname s :
  (if String.eqb pname "LOCAL" then Ok (JStr s)
   else iadd_str (JStr s) (LF +:+ LF +:+ opening +:+ pname +:+ closing))
  = Ok (JStr (annotated opening closing pname s)).
Proof. unfold annotated. by destruct (String.eqb pname "LOCAL"). Qed.

(** X16.  The reply to a message that was served.  A text served by
    [LOCAL] is sent as it is, a text served by another provider with the
    provider's name appended; it is sent as Markdown, and [src/bot.py]
    sends it again as plain text when Telegram refuses the Markdown.  A
    completion from another provider than [LOCAL] that is neither a text
    nor a list makes the handler raise [TypeError] before any reply. *)
Theorem reply_names_fallback_provider tg net update
    (cfg : Bot.Config) (old : Legacy.Config)
    (w : World Bot.Config) (w_old : World Legacy.Config)
    (st st' : State Bot.Config) (st_old st_old' : State Legacy.Config)
    pname pmodel content t pname_old pmodel_old content_old t_old :
  Bot.is_authorized (effective_user_id update) cfg = true →
  Legacy.is_authorized (effective_user_id update) old = true →
  message_text update ≠ "" →
  llm_manager (bot_state w) = Some st → providers (self st) ≠ [] →
  llm_manager (bot_state w_old) = Some st_old →
  let typing := send_chat_action (effective_chat_id update) "typing" in
  tg (length (telegram_calls w_old)) typing = None →
  Bot.generate net (user_messages (message_text update)) 1024 st
    = Some (Ok (Success pname pmodel content t), st') →
  Legacy.generate net (user_messages (message_text update)) 1024 st_old
    = Some (Ok (Success pname_old pmodel_old content_old t_old), st_old') →
  (∃ out w',
     Bot.message_handler tg net update cfg w = Some (out, w')
     ∧ replied tg true "(via " ")" pname content typing w out w')
  ∧ (∃ out w',
       Legacy.message_handler tg net update old w_old = Some (out, w')
       ∧ replied tg false "_(via " ")_" pname_old content_old typing w_old out w').
Proof.
  intros Hauth Hauth' Htext Hmgr Hps Hmgr' typing Htyping Hgen Hgen'.
  assert (truthy (message_text update) = true) as Htruthy
    by (unfold truthy; apply negb_true_iff; by apply String.eqb_neq).
  split.
  - pose proof (Bot_message_handler_exec tg net update cfg w st _ st'
                  Hauth Htruthy Hmgr Hps Hgen) as Hexec.
    cbn zeta iota in Hexec. fold typing in Hexec.
    destruct (if String.eqb pname "LOCAL" then _ else _) as [v | e] eqn:Hv.
    + rewrite retried_exec in Hexec. cbn [telegram_calls bot_state] in Hexec.
      rewrite length_app, Nat.add_1_r in Hexec. cbn [length] in Hexec.
      destruct (tg _ (reply_text v (Some "Markdown"))) as [e|] eqn:Hmd;
        eexists _, _; (split; [exact Hexec|]); split.
      * intros s ->. rewrite annotated_iadd in Hv. injection Hv as <-.
        cbn zeta. rewrite Hmd. cbn [telegram_calls].
        by rewrite <- app_assoc.
      * intros Hlocal Hstr Hlist. apply String.eqb_neq in Hlocal.
        rewrite Hlocal, iadd_str_other in Hv by done. discriminate.
      * intros s ->. rewrite annotated_iadd in Hv. injection Hv as <-.
        cbn zeta. rewrite Hmd. cbn [telegram_calls].
        by rewrite <- app_assoc.
      * intros Hlocal Hstr Hlist. apply String.eqb_neq in Hlocal.
        rewrite Hlocal, iadd_str_other in Hv by done. discriminate.
    + eexists _, _. split; [exact Hexec|]. split.
      * intros s ->. by rewrite annotated_iadd in Hv.
      * intros Hlocal Hstr Hlist. apply String.eqb_neq in Hlocal.
        rewrite Hlocal, iadd_str_other in Hv by done. by injection Hv as <-.
  - pose proof (Legacy_message_handler_exec tg net update old w_old st_old _ st_old'
                  Hauth' Hmgr' Htyping Hgen') as Hexec.
    cbn zeta iota in Hexec. fold typing in Hexec.
    destruct (if String.eqb pname_old "LOCAL" then _ else _) as [v | e] eqn:Hv.
    + rewrite telegram_exec in Hexec. cbn [telegram_calls bot_state] in Hexec.
      rewrite length_app, Nat.add_1_r in Hexec. cbn [length] in Hexec.
      eexists _, _. split; [exact Hexec|]. split.
      * intros s ->. rewrite annotated_iadd in Hv. injection Hv as <-.
        cbn zeta. cbn [telegram_calls]. rewrite <- app_assoc.
        by destruct (tg (S _) _) as [e|] eqn:Hmd.
      * intros Hlocal Hstr Hlist. apply String.eqb_neq in Hlocal.
        rewrite Hlocal, iadd_str_other in Hv by done. discriminate.
    + eexists _, _. split; [exact Hexec|]. split.
      * intros s ->. by rewrite annotated_iadd in Hv.
      * intros Hlocal Hstr Hlist. apply String.eqb_neq in Hlocal.
        rewrite Hlocal, iadd_str_other in Hv by done. by injection Hv as <-.
Qed.

(** ** The health report *)

Section ProbeAll.
Context {Config : Type}.
Implicit Types st : State Config.
Variable health_check_op : Network → option loc → M Config bool.
Variable entry : bool → LLMProvider → list string.
Hypothesis health_check_exec :
  ∀ net l p st,
    heap st !! l = Some p →
    health_check_op net (Some l) st
    = Some (Ok (healthy (probed_provider p (net (length (sent st)) (health_request p)))),
            probed_state net l p st).
Hypothesis entry_lines :
  ∀ b p, (1 ≤ length (entry b p) ≤ 2)%nat.

Lemma for_each_provider_exec net ps st :
  (∀ l, l ∈ ps → is_Some (heap st !! l)) →
  ∃ lines st' new,
    for_each_provider (health_check_op net) entry ps st = Some (Ok lines, st')
    ∧ self st' = self st
    ∧ sent st' = sent st ++ new
    ∧ new.*1 = ps
    ∧ length (heap st') = length (heap st)
    ∧ (length ps ≤ length lines ≤ 2 * length ps)%nat
    ∧ (∀ l, l ∉ ps → heap st' !! l = heap st !! l)
    ∧ (NoDup ps →
       ∀ j l p, ps !! j = Some l → heap st !! l = Some p →
         heap st' !! l
           = Some (probed_provider p
                     (net (length (sent st) + j)%nat (health_request p)))).
Proof.
  revert st. induction ps as [|l ps IH]; intros st Hlive.
  { exists [], st, []. split_and!; rewrite ?app_nil_r; try done; cbn; lia. }
  destruct (Hlive l ltac:(by left)) as [p Hp].
  set (st1 := probed_state net l p st).
  assert (∀ l', l' ∈ ps → is_Some (heap st1 !! l')) as Hlive1.
  { intros l' Hl'. apply lookup_lt_is_Some. unfold st1, probed_state. cbn.
    rewrite length_insert. apply lookup_lt_is_Some. apply Hlive. by right. }
  destruct (IH st1 Hlive1)
    as (lines & st' & new & Hrun & Hself & Hsent & Hnew & Hlen & Hlines & Hframe & Hown).
  assert (heap st1 !! l
          = Some (probed_provider p (net (length (sent st)) (health_request p))))
    as Hl1 by (unfold st1, probed_state; live).
  eexists _, st', ((l, health_request p) :: new). split_and!.
  - cbn [for_each_provider].
    erewrite bind_ok by (by apply health_check_exec).
    fold st1. erewrite bind_ok by (eapply getattr_live; exact Hl1).
    erewrite bind_ok by exact Hrun. reflexivity.
  - by rewrite Hself.
  - rewrite Hsent. unfold st1, probed_state. cbn. by rewrite <- app_assoc.
  - cbn. by rewrite Hnew.
  - rewrite Hlen. unfold st1, probed_state. cbn. apply length_insert.
  - rewrite length_app. cbn [length].
    match goal with
    | |- context [entry ?b ?q] => pose proof (entry_lines b q)
    end.
    lia.
  - rewrite length_app. cbn [length].
    match goal with
    | |- context [entry ?b ?q] => pose proof (entry_lines b q)
    end.
    lia.
  - intros l' Hl'. apply not_elem_of_cons in Hl' as [Hne Hl'].
    rewrite (Hframe l' Hl'). unfold st1, probed_state. cbn.
    by apply list_lookup_insert_ne.
  - intros Hnodup j l' p' Hj Hp'. apply NoDup_cons in Hnodup as [Hnotin Hnodup].
    destruct j as [|j]; cbn in Hj.
    + injection Hj as <-. assert (p' = p) as -> by congruence.
      rewrite (Hframe l Hnotin), Nat.add_0_r. exact Hl1.
    + assert (l' ≠ l) as Hne.
      { intros ->. apply Hnotin. by eapply list_elem_of_lookup_2. }
      assert (heap st1 !! l' = Some p') as Hp1.
      { unfold st1, probed_state. cbn. by rewrite list_lookup_insert_ne. }
      rewrite (Hown Hnodup j l' p' Hj Hp1).
      unfold st1, probed_state. cbn. rewrite length_app. cbn [length].
      by replace (length (sent st) + 1 + j)%nat with (length (sent st) + S j)%nat
        by lia.
Qed.

Lemma all_probed_exec net st :
  refs_live st →
  ∃ lines st',
    for_each_provider (health_check_op net) entry (providers (self st)) st
      = Some (Ok lines, st')
    ∧ all_probed net st st'
    ∧ (length (providers (self st)) ≤ length lines
       ≤ 2 * length (providers (self st)))%nat.
Proof.
  intros Hlive.
  destruct (for_each_provider_exec net (providers (self st)) st)
    as (lines & st' & new & Hrun & Hself & Hsent & Hnew & Hlen & Hlines & Hframe & Hown).
  { intros l Hl. apply lookup_lt_is_Some. unfold refs_live in Hlive.
    rewrite Forall_forall in Hlive. by apply Hlive. }
  exists lines, st'. split; [done|]. split; [|done].
  unfold all_probed. split_and!; [done | | | done | done].
  - unfold contacted. by rewrite Hsent, drop_app_length.
  - rewrite Hsent, length_app. f_equal. by rewrite <- Hnew, length_fmap.
Qed.
End ProbeAll.

Lemma Bot_report_entry_lines format_0f b p :
  (1 ≤ length (Bot.report_entry format_0f b p) ≤ 2)%nat.
Proof.
  unfold Bot.report_entry. destruct (truthy_opt (last_error p) && negb b); cbn; lia.
Qed.

Lemma Legacy_report_entry_lines format_0f b p :
  (1 ≤ length (Legacy.report_entry format_0f b p) ≤ 2)%nat.
Proof.
  unfold Legacy.report_entry. destruct (truthy_opt (last_error p) && negb b); cbn; lia.
Qed.

(** X17.  [health_command] probes every provider of the registry once,
    in the order of the registry, whatever the index, which it leaves
    alone with the counters; each provider then holds the result of its
    own probe, and the report has at least one and at most two lines for
    each.  The handler raises only what sending the report raises. *)
Theorem health_command_probes_every_provider format_0f tg net update
    (cfg : Bot.Config) (old : Legacy.Config)
    (w : World Bot.Config) (w_old : World Legacy.Config)
    (st : State Bot.Config) (st_old : State Legacy.Config) :
  Bot.is_authorized (effective_user_id update) cfg = true →
  Legacy.is_authorized (effective_user_id update) old = true →
  llm_manager (bot_state w) = Some st →
  providers (self st) ≠ [] → refs_live st →
  llm_manager (bot_state w_old) = Some st_old → refs_live st_old →
  tg (length (telegram_calls w))
     (reply_text (JStr "Running health checks...") None) = None →
  tg (length (telegram_calls w_old))
     (reply_text (JStr "🔍 Running health checks...") None) = None →
  (∃ out w',
     Bot.health_command format_0f tg net update cfg w = Some (out, w')
     ∧ health_reported tg net
         (reply_text (JStr "Running health checks...") None)
         ("LLM Health Report" +:+ LF +:+ "==================") None
         w st out w')
  ∧ (∃ out w',
       Legacy.health_command format_0f tg net update old w_old = Some (out, w')
       ∧ health_reported tg net
           (reply_text (JStr "🔍 Running health checks...") None)
           ("🩺 *LLM Health Report*" +:+ LF +:+ "━━━━━━━━━━━━━━━━━━━━━")
           (Some "Markdown") w_old st_old out w').
Proof.
  intros Hauth Hauth' Hmgr Hps Hlive Hmgr' Hlive' Hrun Hrun'. split.
  - destruct (all_probed_exec Bot.health_check (Bot.report_entry format_0f)
                (λ net l p st Hp,
                   Bot_health_check_exec net (Some l) st l p (or_introl eq_refl) Hp)
                (Bot_report_entry_lines format_0f) net st Hlive)
      as (lines & st' & Hloop & Hall & Hlines).
    unfold Bot.health_command. rewrite Hauth. cbn [negb].
    erewrite bind_H_ok by reflexivity. rewrite Hmgr.
    rewrite bool_decide_eq_false_2 by done.
    erewrite bind_H_ok by (rewrite telegram_exec, Hrun; reflexivity).
    erewrite bind_H_ok
      by (eapply on_manager_exec;
          [exact Hmgr | erewrite bind_ok by reflexivity; exact Hloop]).
    rewrite telegram_exec. cbn [telegram_calls bot_state].
    rewrite length_app, Nat.add_1_r. cbn [length].
    eexists _, _. split; [reflexivity|]. exists st', lines.
    cbn [bot_state message_count error_count llm_manager telegram_calls].
    rewrite <- app_assoc. split_and!; first [done | lia].
  - destruct (all_probed_exec Legacy.health_check (Legacy.report_entry format_0f)
                (λ net l p st Hp,
                   Legacy_health_check_exec net (Some l) st l p (or_introl eq_refl) Hp)
                (Legacy_report_entry_lines format_0f) net st_old Hlive')
      as (lines & st' & Hloop & Hall & Hlines).
    unfold Legacy.health_command. rewrite Hauth'. cbn [negb].
    erewrite bind_H_ok by reflexivity. rewrite Hmgr'.
    erewrite bind_H_ok by (rewrite telegram_exec, Hrun'; reflexivity).
    erewrite bind_H_ok
      by (eapply on_manager_exec;
          [exact Hmgr' | erewrite bind_ok by reflexivity; exact Hloop]).
    rewrite telegram_exec. cbn [telegram_calls bot_state].
    rewrite length_app, Nat.add_1_r. cbn [length].
    eexists _, _. split; [reflexivity|]. exists st', lines.
    cbn [bot_state message_count error_count llm_manager telegram_calls].
    rewrite <- app_assoc. split_and!; first [done | lia].
Qed.

(** ** The further properties on the sample managers *)

(** X1 on the sample managers, every backend answering. *)
Lemma served_iff_completion_shaped_witness :
  (∃ st',
     Bot.attempt net_up sample_messages 1024 0
       (registry_size sample_local_state) sample_local_state
       = Some (Ok (Some (Success "LOCAL" "llama3" (JStr "hello") 12%float)), st'))
  ∧ (∃ st',
       Legacy.attempt net_up sample_messages 1024 0
         (registry_size sample_legacy_state) sample_legacy_state
         = Some (Ok (Some (Success "LOCAL" "llama3" (JStr "hello") 12%float)), st')).
Proof.
  assert (well_formed sample_local_state) as Hlocal by sample_well_formed.
  assert (well_formed sample_legacy_state) as Hold by sample_well_formed.
  destruct (served_iff_completion_shaped net_up sample_messages 1024 0
              sample_local_state sample_legacy_state 0%nat sample_local
              0%nat sample_local (JStr "hello") 12%float
              ltac:(lia) Hlocal eq_refl eq_refl Hold eq_refl eq_refl)
    as [[_ Hbot] [_ Hlegacy]].
  split; [apply Hbot | apply Hlegacy];
    (eexists _, _; split_and!; [reflexivity | reflexivity | reflexivity |];
     eexists _, _, _, _, _; split_and!; reflexivity).
Defined.

(** X2 on the sample managers, the backend answering 503 with a body of
    210 characters of three bytes each: 200 of them are kept. *)
Lemma refused_status_diagnostic_witness :
  (∃ st' p' diagnostic,
     Bot.attempt net_long_body sample_messages 1024 0
       (registry_size sample_local_state) sample_local_state
       = Some (Ok None, st')
     ∧ heap st' !! 0%nat = Some p'
     ∧ last_error p' = Some diagnostic
     ∧ diagnostic = "HTTP 503: " +:+ str_of_chars (replicate 200 "漢")
     ∧ (str_len diagnostic ≤ 210)%nat)
  ∧ (∃ st' q',
       Legacy.attempt net_long_body sample_messages 1024 0
         (registry_size sample_legacy_state) sample_legacy_state
         = Some (Ok None, st')
       ∧ heap st' !! 0%nat = Some q'
       ∧ last_error q' = Some "HTTP 503").
Proof.
  assert (well_formed sample_local_state) as Hlocal by sample_well_formed.
  assert (well_formed sample_legacy_state) as Hold by sample_well_formed.
  destruct (refused_status_diagnostic net_long_body sample_messages 1024 0
              sample_local_state sample_legacy_state 0%nat sample_local
              0%nat sample_local _ _ _ _
              ltac:(lia) Hlocal eq_refl eq_refl eq_refl ltac:(done)
              Hold eq_refl eq_refl eq_refl ltac:(done))
    as [(st' & p' & diagnostic & Hrun & Hp' & Herr & Hbody & _)
        (st'' & q' & Hrun' & Hq' & Herr')].
  split.
  - exists st', p', diagnostic. destruct (Hbody _ eq_refl) as [Hd Hlen].
    split_and!; [done | done | done | |].
    + rewrite Hd. vm_compute. reflexivity.
    + exact Hlen.
  - by exists st'', q'.
Defined.

(** X3 on the sample managers, the backend answering 200 without a
    completion. *)
Lemma unreadable_answer_diagnostic_witness :
  (∃ st' p',
     Bot.attempt net_no_choices sample_messages 1024 0
       (registry_size sample_local_state) sample_local_state
       = Some (Ok None, st')
     ∧ heap st' !! 0%nat = Some p'
     ∧ healthy p' = false ∧ last_error p' = Some "'choices'"
     ∧ latency_ms p' = 5%float)
  ∧ (∃ st' q',
       Legacy.attempt net_no_choices sample_messages 1024 0
         (registry_size sample_legacy_state) sample_legacy_state
         = Some (Ok None, st')
       ∧ heap st' !! 0%nat = Some q'
       ∧ healthy q' = false ∧ last_error q' = Some "'choices'"
       ∧ latency_ms q' = 5%float).
Proof.
  assert (well_formed sample_local_state) as Hlocal by sample_well_formed.
  assert (well_formed sample_legacy_state) as Hold by sample_well_formed.
  destruct (unreadable_answer_diagnostic net_no_choices sample_messages 1024 0
              sample_local_state sample_legacy_state 0%nat sample_local
              0%nat sample_local _ _ _ (KeyError "choices")
              ltac:(lia) Hlocal eq_refl eq_refl eq_refl
              Hold eq_refl eq_refl eq_refl eq_refl eq_refl eq_refl)
    as (Hbot & Hlegacy & _).
  split; [exact Hbot | exact Hlegacy].
Defined.

(** X4 on the sample managers: three rotations, and two. *)
Lemma rotation_cycles_witness :
  times 3 Bot.switch_to_next_provider sample_state
    = Some (Ok tt, with_index 1 sample_state)
  ∧ times 3 Legacy.switch_to_next_provider sample_legacy_state
    = Some (Ok tt, with_index 1 sample_legacy_state)
  ∧ times 2 Bot.switch_to_next_provider sample_state = Some (Ok tt, sample_state)
  ∧ times 2 Legacy.switch_to_next_provider sample_legacy_state
    = Some (Ok tt, sample_legacy_state).
Proof.
  apply (rotation_cycles 3 sample_state sample_legacy_state);
    first [ sample_well_formed | unfold registry_size; cbn; lia ].
Defined.

(** X5 on the sample managers, no backend being reachable. *)
Lemma outage_marks_every_provider_witness :
  (∃ st',
     Bot.generate net_down sample_messages 1024 sample_state
       = Some (Ok (Failure "All providers failed" "NONE"), st')
     ∧ ∀ l, l ∈ providers (self sample_state) →
         ∃ p', heap st' !! l = Some p' ∧ marked_unhealthy p')
  ∧ (∃ st',
       Legacy.generate net_down sample_messages 1024 sample_legacy_state
         = Some (Ok (Failure "All providers failed" "NONE"), st')
       ∧ ∀ l, l ∈ providers (self sample_legacy_state) →
           ∃ q', heap st' !! l = Some q' ∧ marked_unhealthy q').
Proof.
  apply outage_marks_every_provider;
    first [ sample_well_formed | intros j l p _ _; reflexivity ].
Defined.

(** X6 on the sample managers, every backend answering. *)
Lemma generate_touches_only_contacted_witness :
  (∃ r st',
     Bot.generate net_up sample_messages 1024 sample_state = Some (Ok r, st')
     ∧ ∀ l, l ∉ contacted sample_state st' →
         heap st' !! l = heap sample_state !! l)
  ∧ (∃ r st',
       Legacy.generate net_up sample_messages 1024 sample_legacy_state
         = Some (Ok r, st')
       ∧ ∀ l, l ∉ contacted sample_legacy_state st' →
           heap st' !! l = heap sample_legacy_state !! l).
Proof. apply generate_touches_only_contacted; sample_well_formed. Defined.

(** X7 on the sample managers after a first message, the local backend
    being down. *)
Lemma key_goes_to_openai_only_witness :
  (∀ l req, (l, req) ∈ sent sample_served → key_confined (Some "sk-test") req)
  ∧ (∀ l req, (l, req) ∈ sent sample_legacy_served →
       key_confined (Some "sk-test") req).
Proof.
  apply (key_goes_to_openai_only sample_config sample_legacy_config
           sample_served sample_legacy_served).
  - apply reachable_step with sample_state; [by apply reachable_init|].
    eapply (step_generate _ _ _ net_local_down (user_messages "hi") 1024).
    vm_compute. reflexivity.
  - apply reachable_step with sample_legacy_state; [by apply reachable_init|].
    eapply (step_generate _ _ _ net_local_down (user_messages "hi") 1024).
    vm_compute. reflexivity.
Defined.

(** X9 on the sample managers, the local backend being down at start-up
    and afterwards. *)
Lemma failed_probe_sends_first_message_to_fallback_witness :
  first_goes_to Bot.generate Bot.outcome net_local_down sample_messages 1024
    1%nat (new_LLMProvider "OPENAI" "https://api.openai.com/v1" "gpt-4o-mini"
             (Some "sk-test") 30)
    sample_started
  ∧ first_goes_to Legacy.generate Legacy.outcome net_local_down sample_messages
      1024 1%nat
      (new_LLMProvider "OPENAI" "https://api.openai.com/v1" "gpt-4o-mini"
         (Some "sk-test") 30)
      sample_legacy_started.
Proof.
  apply (failed_probe_sends_first_message_to_fallback net_local_down net_local_down
           sample_messages 1024 sample_config sample_legacy_config
           (new_LLMProvider "LOCAL" "https://llm.example.net/v1" "default" None 60)
           _
           sample_local _ sample_started sample_legacy_started);
    first [ reflexivity | intros r t Hnet; discriminate Hnet ].
Defined.

(** X10 on the configurations read from [42], an em space, a comma and
    [7]: [src/bot.py] authorises 42 and 7, [src/clawdbot/bot.py] 7 and
    whoever the piece with the em space names. *)
Lemma authorization_by_decimal_text_witness :
  Bot.is_authorized 42 spaced_config = true
  ∧ Bot.is_authorized 7 spaced_config = true
  ∧ Legacy.is_authorized 7 spaced_legacy_config = true
  ∧ (Legacy.is_authorized 42 spaced_legacy_config = true
     ↔ "42" ∈ ["42" +:+ EM_SPACE; "7"]).
Proof.
  pose proof (authorization_by_decimal_text (Some spaced_ids) 42 spaced_config
                spaced_legacy_config eq_refl eq_refl) as (Hbot & Hlegacy & _).
  pose proof (authorization_by_decimal_text (Some spaced_ids) 7 spaced_config
                spaced_legacy_config eq_refl eq_refl) as (Hbot' & Hlegacy' & _).
  split_and!.
  - apply Hbot. exists ("42" +:+ EM_SPACE). split; [by left | reflexivity].
  - apply Hbot'. exists "7". split; [right; by left | reflexivity].
  - apply Hlegacy'. right. by left.
  - exact Hlegacy.
Defined.

(** X12 on the sample configurations. *)
Lemma validation_of_allowed_ids_witness :
  Bot.validate sample_config = true
  ∧ Legacy.validate sample_legacy_config = true.
Proof.
  pose proof (validation_of_allowed_ids (Some "42") sample_config
                sample_legacy_config eq_refl eq_refl) as [Hbot Hlegacy].
  split.
  - apply Hbot. split; [done|]. exists "42". split; [by left | done].
  - apply Hlegacy. by split_and!.
Defined.

(** X14 on the sample worlds: a message of a stranger. *)
Lemma unauthorized_message_reaches_no_provider_witness :
  (∃ out w',
     Bot.message_handler tg_ok net_up sample_stranger sample_config sample_world
       = Some (out, w')
     ∧ bot_state w' = bot_state sample_world
     ∧ telegram_calls w'
         = telegram_calls sample_world ++ [reply_text (JStr "Unauthorized.") None])
  ∧ (∃ out w',
       Legacy.message_handler tg_ok net_up sample_stranger sample_legacy_config
         sample_legacy_world = Some (out, w')
       ∧ bot_state w' = bot_state sample_legacy_world
       ∧ telegram_calls w'
           = telegram_calls sample_legacy_world
               ++ [reply_text (JStr "⛔ Unauthorized access.") None]).
Proof.
  apply unauthorized_message_reaches_no_provider; reflexivity.
Defined.

(** X15 on the sample worlds, no backend being reachable. *)
Lemma authorized_message_is_counted_witness :
  (∃ r st' out w',
     Bot.generate net_down (user_messages "hi") 1024 sample_state
       = Some (Ok r, st')
     ∧ Bot.message_handler tg_ok net_down sample_update sample_config sample_world
         = Some (out, w')
     ∧ message_accounted (send_chat_action 42 "typing") 2 sample_world r st' w')
  ∧ (∃ r st' out w',
       Legacy.generate net_down (user_messages "hi") 1024 sample_legacy_state
         = Some (Ok r, st')
       ∧ Legacy.message_handler tg_ok net_down sample_update sample_legacy_config
           sample_legacy_world = Some (out, w')
       ∧ message_accounted (send_chat_action 42 "typing") 1 sample_legacy_world
           r st' w').
Proof.
  apply (authorized_message_is_counted tg_ok net_down sample_update sample_config
           sample_legacy_config sample_world sample_legacy_world sample_state
           sample_legacy_state);
    first [ reflexivity | done | sample_well_formed ].
Defined.

(** X16 on the sample worlds, the local backend being down and Telegram
    refusing Markdown. *)
Lemma reply_names_fallback_provider_witness :
  (∃ out w',
     Bot.message_handler tg_no_markdown net_local_down sample_update sample_config
       sample_world = Some (out, w')
     ∧ replied tg_no_markdown true "(via " ")" "OPENAI" (JStr "hello")
         (send_chat_action 42 "typing") sample_world out w')
  ∧ (∃ out w',
       Legacy.message_handler tg_no_markdown net_local_down sample_update
         sample_legacy_config sample_legacy_world = Some (out, w')
       ∧ replied tg_no_markdown false "_(via " ")_" "OPENAI" (JStr "hello")
           (send_chat_action 42 "typing") sample_legacy_world out w').
Proof.
  apply (reply_names_fallback_provider tg_no_markdown net_local_down sample_update
           sample_config sample_legacy_config sample_world sample_legacy_world
           sample_state sample_served sample_legacy_state sample_legacy_served
           "OPENAI" "gpt-4o-mini" (JStr "hello") 12%float
           "OPENAI" "gpt-4o-mini" (JStr "hello") 12%float);
    first [ reflexivity | done | by vm_compute ].
Defined.

(** X17 on the sample worlds, the local backend being down. *)
Lemma health_command_probes_every_provider_witness :
  (∃ out w',
     Bot.health_command (λ _, "12") tg_ok net_local_down sample_update
       sample_config sample_world = Some (out, w')
     ∧ health_reported tg_ok net_local_down
         (reply_text (JStr "Running health checks...") None)
         ("LLM Health Report" +:+ LF +:+ "==================") None
         sample_world sample_state out w')
  ∧ (∃ out w',
       Legacy.health_command (λ _, "12") tg_ok net_local_down sample_update
         sample_legacy_config sample_legacy_world = Some (out, w')
       ∧ health_reported tg_ok net_local_down
           (reply_text (JStr "🔍 Running health checks...") None)
           ("🩺 *LLM Health Report*" +:+ LF +:+ "━━━━━━━━━━━━━━━━━━━━━")
           (Some "Markdown") sample_legacy_world sample_legacy_state out w').
Proof.
  apply (health_command_probes_every_provider (λ _, "12") tg_ok net_local_down
           sample_update sample_config sample_legacy_config sample_world
           sample_legacy_world sample_state sample_legacy_state);
    first [ reflexivity | done | unfold refs_live; cbn; repeat constructor ].
Defined.
